(** * Alachua owner mapping: the owner-name parser of [ownerMapping.js]

    A shallow embedding of the text helpers, the company classifier, the
    tokenizer, the person builder, the shared-surname splitter, the key
    normalizer and [parseOwnersFromText], followed by the properties of the
    specification that concern them.

    Strings.  A JavaScript string is a sequence of UTF-16 code units.  The
    embedding works on the code units U+0000..U+00FF, one [ascii] each, so a
    string is a [list ascii].  In that range [toLowerCase] is unit-wise and
    closed, [\s] is TAB..CR, SPACE and U+00A0, and [\w] and [\b] (no [u]
    flag) are ASCII-only.  [toUpperCase] leaves the range for U+00FF and
    U+00B5 only, whose capitals are U+0178 and U+039C: [toUpperCaseCodes]
    gives the values of the code units of the upper-case form, and the
    comparison of a string with its upper-case form is made on these
    values.  The upper-case form is kept as a string for [\w] characters
    and for surnames, which are made of tokenizer output and are ASCII. *)

From Stdlib Require Import Ascii String List Bool Arith Lia Permutation.
Import ListNotations.

Open Scope string_scope.
Open Scope nat_scope.
Open Scope list_scope.

(* ================================================================== *)
(** ** Code units and character classes *)

Definition jsstring : Type := list ascii.

Definition str (s : string) : jsstring := list_ascii_of_string s.
Coercion str : string >-> jsstring.

Definition code (c : ascii) : nat := nat_of_ascii c.

Definition inRange (lo hi : nat) (c : ascii) : bool :=
  (lo <=? code c) && (code c <=? hi).

(** [\s]: WhiteSpace and LineTerminator code units below U+0100. *)
Definition isSpace (c : ascii) : bool :=
  inRange 9 13 c || (code c =? 32) || (code c =? 160).

Definition isUpperAZ (c : ascii) : bool := inRange 65 90 c.
Definition isLowerAZ (c : ascii) : bool := inRange 97 122 c.
Definition isDigit (c : ascii) : bool := inRange 48 57 c.

(** [\w] = [A-Za-z0-9_]. *)
Definition isWord (c : ascii) : bool :=
  isUpperAZ c || isLowerAZ c || isDigit c || (code c =? 95).

(** [String.prototype.toLowerCase] on one code unit: A-Z and the Latin-1
    capitals U+00C0..U+00DE (U+00D7 is the multiplication sign). *)
Definition toLowerCaseUnit (c : ascii) : ascii :=
  if isUpperAZ c || (inRange 192 222 c && negb (code c =? 215))
  then ascii_of_nat (code c + 32) else c.

(** [String.prototype.toUpperCase] on one code unit: a-z, the Latin-1 small
    letters U+00E0..U+00FE (U+00F7 is the division sign), and sharp s, whose
    capital is the two units SS.  The capitals of U+00FF and U+00B5 lie
    outside the range; these two units are left as they are here, and
    [toUpperCaseCodes] below gives their capitals. *)
Definition toUpperCaseUnit (c : ascii) : jsstring :=
  if isLowerAZ c || (inRange 224 254 c && negb (code c =? 247))
  then [ascii_of_nat (code c - 32)]
  else if code c =? 223 then ["S"; "S"]%char else [c].

(** [String.prototype.toUpperCase] on one code unit, as the values of the
    code units of the result: U+00FF gives U+0178 and U+00B5 gives U+039C;
    the other units give the values of [toUpperCaseUnit]. *)
Definition toUpperCaseCodes (c : ascii) : list nat :=
  if code c =? 255 then [376]
  else if code c =? 181 then [924]
  else map code (toUpperCaseUnit c).

(** Two sequences of code unit values are the same. *)
Fixpoint sameCodes (a b : list nat) : bool :=
  match a, b with
  | [], [] => true
  | x :: a', y :: b' => (x =? y) && sameCodes a' b'
  | _, _ => false
  end.

(** [s === s.toUpperCase()]. *)
Definition isUpperCased (s : jsstring) : bool :=
  sameCodes (map code s) (flat_map toUpperCaseCodes s).

Definition toLowerCase (s : jsstring) : jsstring := map toLowerCaseUnit s.
Definition toUpperCase (s : jsstring) : jsstring := flat_map toUpperCaseUnit s.

(** Canonicalize of the regular-expression semantics, flag [i] without [u]:
    the upper-case form when it is one code unit, except that a non-ASCII
    unit never folds onto an ASCII one. *)
Definition canonicalize (c : ascii) : ascii :=
  match toUpperCaseUnit c with
  | [u] => if (128 <=? code c) && (code u <? 128) then c else u
  | _ => c
  end.

(* ================================================================== *)
(** ** JavaScript values used by the parser *)

Fixpoint streq (a b : jsstring) : bool :=
  match a, b with
  | [], [] => true
  | x :: a', y :: b' => Ascii.eqb x y && streq a' b'
  | _, _ => false
  end.

(** Truthiness of a string. *)
Definition nonEmpty (s : jsstring) : bool :=
  match s with [] => false | _ :: _ => true end.

(** Truthiness of a value that is a string, [null] or [undefined]. *)
Definition truthy (v : option jsstring) : bool :=
  match v with Some s => nonEmpty s | None => false end.

(** [v || ""]. *)
Definition orEmpty (v : option jsstring) : jsstring :=
  match v with Some s => s | None => [] end.

(** [v || null]. *)
Definition orNull (v : option jsstring) : option jsstring :=
  if truthy v then v else None.

(** [a || b]. *)
Definition orElse (a b : option jsstring) : option jsstring :=
  if truthy a then a else b.

(** [Array.prototype.join]. *)
Fixpoint join (sep : jsstring) (l : list jsstring) : jsstring :=
  match l with
  | [] => []
  | [x] => x
  | x :: l' => x ++ sep ++ join sep l'
  end.

(** The pieces of [s] between the characters of a class. *)
Fixpoint splitWhen (sep : ascii -> bool) (s : jsstring) : list jsstring :=
  match s with
  | [] => [[]]
  | c :: s' =>
      if sep c then [] :: splitWhen sep s'
      else match splitWhen sep s' with
           | p :: ps => (c :: p) :: ps
           | [] => [[c]]
           end
  end.

(** [String.prototype.split] with a one-character separator. *)
Definition splitChar (sep : ascii) (s : jsstring) : list jsstring :=
  splitWhen (fun c => Ascii.eqb c sep) s.

(** [.filter(Boolean)] on an array of strings. *)
Definition filterBoolean (l : list jsstring) : list jsstring := filter nonEmpty l.

Fixpoint dropWhile (p : ascii -> bool) (s : jsstring) : jsstring :=
  match s with
  | [] => []
  | c :: s' => if p c then dropWhile p s' else s
  end.

Fixpoint takeWhile (p : ascii -> bool) (s : jsstring) : jsstring :=
  match s with
  | [] => []
  | c :: s' => if p c then c :: takeWhile p s' else []
  end.

(** [String.prototype.trim]. *)
Definition trim (s : jsstring) : jsstring :=
  rev (dropWhile isSpace (rev (dropWhile isSpace s))).

(* ================================================================== *)
(** ** Global replacements *)

(** [s.replace(/[cls]+/g, r)]: every maximal run of characters of the class
    becomes [r].  [inRun] tells that the character before belongs to the run
    being replaced. *)
Fixpoint replaceRunsFrom (cls : ascii -> bool) (r : jsstring) (inRun : bool)
  (s : jsstring) : jsstring :=
  match s with
  | [] => []
  | c :: s' =>
      if cls c then
        if inRun then replaceRunsFrom cls r true s'
        else r ++ replaceRunsFrom cls r true s'
      else c :: replaceRunsFrom cls r false s'
  end.

Definition replaceRuns (cls : ascii -> bool) (r : jsstring) (s : jsstring) : jsstring :=
  replaceRunsFrom cls r false s.

(** [s.replace(/\s{2,}/g, " ")]: a run of two or more is replaced, a single
    whitespace character stays as it is. *)
Fixpoint replaceLongRunsFrom (inRun : bool) (s : jsstring) : jsstring :=
  match s with
  | [] => []
  | c :: s' =>
      if isSpace c then
        if inRun then replaceLongRunsFrom true s'
        else match s' with
             | d :: _ =>
                 if isSpace d then " "%char :: replaceLongRunsFrom true s'
                 else c :: replaceLongRunsFrom false s'
             | [] => [c]
             end
      else c :: replaceLongRunsFrom false s'
  end.

Definition replaceLongRuns (s : jsstring) : jsstring := replaceLongRunsFrom false s.

(** [s.replace(/[cls]/g, " ")]. *)
Definition replaceEach (cls : ascii -> bool) (s : jsstring) : jsstring :=
  map (fun c => if cls c then " "%char else c) s.

(** [s.replace(/^\*/, "")]. *)
Definition stripStar (s : jsstring) : jsstring :=
  match s with
  | c :: s' => if Ascii.eqb c "*"%char then s' else s
  | [] => []
  end.

(** [s.replace(/^\*+/, "")]. *)
Definition stripStars (s : jsstring) : jsstring :=
  dropWhile (fun c => Ascii.eqb c "*"%char) s.

(** The class [[\u00A0\s]]. *)
Definition isNbspOrSpace (c : ascii) : bool := (code c =? 160) || isSpace c.

(** [cleanText] (lines 10-14). *)
Definition cleanText (t : option jsstring) : jsstring :=
  trim (replaceRuns isNbspOrSpace " " (replaceRuns isSpace " " (orEmpty t))).

(** [titleCase] (lines 15-19): [s.replace(/\w\S*/g, w => w.charAt(0).toUpperCase()
    + w.slice(1).toLowerCase())].  [inMatch] tells that the character before
    lies in a match of [\w\S*], which runs to the next whitespace. *)
Fixpoint titleCaseFrom (inMatch : bool) (s : jsstring) : jsstring :=
  match s with
  | [] => []
  | c :: s' =>
      if inMatch then
        if isSpace c then c :: titleCaseFrom false s'
        else toLowerCaseUnit c :: titleCaseFrom true s'
      else
        if isWord c then toUpperCaseUnit c ++ titleCaseFrom true s'
        else c :: titleCaseFrom false s'
  end.

Definition titleCase (s : jsstring) : jsstring := titleCaseFrom false s.

(* ================================================================== *)
(** ** The patterns used with [RegExp.prototype.test]

    [COMPANY_KEYWORDS] and [SUFFIXES_IGNORE] are built from literals,
    alternation, [\s], [\b], [^] and [$] only, both under flag [i].  They are
    kept as syntax and run by a backtracking matcher: [run r prev rest] lists,
    in the order in which backtracking tries them, the states in which a
    match of [r] can end when it starts with [prev] as the character before
    and [rest] as the input ahead. *)

Inductive regex : Type :=
| Fail                     (* no match: the alternation without members *)
| Eps
| Chr (c : ascii)          (* a literal, compared under Canonicalize *)
| Space                    (* \s *)
| Bnd                      (* \b *)
| Bol                      (* ^ *)
| Eol                      (* $ *)
| Seq (r1 r2 : regex)
| Alt (r1 r2 : regex).

Definition isWordAt (c : option ascii) : bool :=
  match c with Some c => isWord c | None => false end.

Definition atBoundary (prev : option ascii) (rest : jsstring) : bool :=
  xorb (isWordAt prev) (isWordAt (hd_error rest)).

Definition position : Type := (option ascii * jsstring)%type.

Fixpoint run (r : regex) (prev : option ascii) (rest : jsstring) : list position :=
  match r with
  | Fail => []
  | Eps => [(prev, rest)]
  | Chr c =>
      match rest with
      | d :: rest' =>
          if Ascii.eqb (canonicalize d) (canonicalize c) then [(Some d, rest')] else []
      | [] => []
      end
  | Space =>
      match rest with
      | d :: rest' => if isSpace d then [(Some d, rest')] else []
      | [] => []
      end
  | Bnd => if atBoundary prev rest then [(prev, rest)] else []
  | Bol => match prev with None => [(prev, rest)] | Some _ => [] end
  | Eol => match rest with [] => [(prev, rest)] | _ :: _ => [] end
  | Seq r1 r2 => flat_map (fun p => run r2 (fst p) (snd p)) (run r1 prev rest)
  | Alt r1 r2 => run r1 prev rest ++ run r2 prev rest
  end.

Definition matchesAt (r : regex) (prev : option ascii) (rest : jsstring) : bool :=
  match run r prev rest with [] => false | _ :: _ => true end.

(** Some index of [s], from 0 to its length, satisfies [P], which is given
    the character before the index and the input from the index on. *)
Fixpoint anyIndexFrom (P : option ascii -> jsstring -> bool)
  (prev : option ascii) (s : jsstring) : bool :=
  P prev s ||
  match s with
  | [] => false
  | c :: s' => anyIndexFrom P (Some c) s'
  end.

Definition anyIndex (P : option ascii -> jsstring -> bool) (s : jsstring) : bool :=
  anyIndexFrom P None s.

(** [r.test(s)] for a pattern without flag [g]: a match starting at some
    index. *)
Definition test (r : regex) (s : jsstring) : bool := anyIndex (matchesAt r) s.

(** A literal word. *)
Fixpoint lit (w : jsstring) : regex :=
  match w with
  | [] => Eps
  | [c] => Chr c
  | c :: w' => Seq (Chr c) (lit w')
  end.

(** [r?], greedy. *)
Definition opt (r : regex) : regex := Alt r Eps.

(** [r1|r2|...]. *)
Fixpoint alts (rs : list regex) : regex :=
  match rs with
  | [] => Fail
  | [r] => r
  | r :: rs' => Alt r (alts rs')
  end.

Declare Scope regex_scope.
Delimit Scope regex_scope with re.
Bind Scope regex_scope with regex.
Infix ">>" := Seq (at level 61, right associativity) : regex_scope.

(** The alternatives of [COMPANY_KEYWORDS], in source order. *)
Definition companyAlternatives : list regex :=
  [ (lit "inc" >> opt (Chr "."))%re;
    lit "l.l.c.";
    lit "llc";
    (lit "ltd" >> opt (Chr "."))%re;
    lit "foundation";
    lit "alliance";
    lit "solutions";
    (lit "corp" >> opt (Chr "."))%re;
    (lit "co" >> opt (Chr "."))%re;
    lit "services";
    (lit "trust" >> Bnd)%re;
    (lit "tr" >> Bnd)%re;
    lit "associates";
    lit "partners";
    (lit "lp" >> Bnd)%re;
    (lit "llp" >> Bnd)%re;
    (lit "bank" >> Bnd)%re;
    lit "n.a.";
    (lit "na" >> Bnd)%re;
    (lit "pllc" >> Bnd)%re;
    lit "company";
    lit "enterprises";
    lit "properties";
    lit "holdings" ].

(** Lines 55-56. *)
Definition COMPANY_KEYWORDS : regex :=
  (Alt Bnd Space >> alts companyAlternatives >> Alt Bnd Space)%re.

Definition suffixWords : list jsstring :=
  [ str "jr"; str "sr"; str "ii"; str "iii"; str "iv"; str "v"; str "vi";
    str "vii"; str "viii"; str "ix"; str "x"; str "md"; str "phd"; str "esq";
    str "esquire" ].

(** Lines 57-58. *)
Definition SUFFIXES_IGNORE : regex :=
  (Bol >> alts (map lit suffixWords) >> Eol)%re.

(** [isCompanyName] (lines 73-75). *)
Definition isCompanyName (txt : jsstring) : bool := test COMPANY_KEYWORDS txt.

(* ================================================================== *)
(** ** [String.prototype.split] with a pattern

    The split loop of the language: [p] is the start of the piece being
    collected and [q] the index where a match is tried.  When the pattern
    matches at [q], the piece [p..q) is pushed and both move to the end of
    the match; otherwise [q] advances.  [matchLen prev rest] is the length of
    the match of the separator at the current index, if there is one; both
    separators used here match at least one character.  [skip] counts the
    characters of the last match still to be passed, [piece] holds the
    current piece in reverse. *)

Fixpoint splitFrom (matchLen : option ascii -> jsstring -> option nat)
  (prev : option ascii) (skip : nat) (piece : jsstring) (s : jsstring)
  : list jsstring :=
  match s with
  | [] => [rev piece]
  | c :: s' =>
      match skip with
      | S k => splitFrom matchLen (Some c) k piece s'
      | O =>
          match matchLen prev s with
          | Some (S k) => rev piece :: splitFrom matchLen (Some c) k [] s'
          | _ => splitFrom matchLen (Some c) 0 (c :: piece) s'
          end
      end
  end.

Definition splitRegex (matchLen : option ascii -> jsstring -> option nat)
  (s : jsstring) : list jsstring :=
  splitFrom matchLen None 0 [] s.

(** [/\s*,\s*/] at the current index: the greedy [\s*] takes the whole run of
    whitespace, and giving some of it back leaves a whitespace character
    where the comma is required. *)
Definition matchComma (prev : option ascii) (rest : jsstring) : option nat :=
  let ws1 := takeWhile isSpace rest in
  match dropWhile isSpace rest with
  | c :: r =>
      if Ascii.eqb c ","%char
      then Some (length ws1 + 1 + length (takeWhile isSpace r))
      else None
  | [] => None
  end.

(** The character before the index reached after passing [taken]. *)
Definition lastOr (prev : option ascii) (taken : jsstring) : option ascii :=
  match rev taken with c :: _ => Some c | [] => prev end.

(** [/\s*(?:&|\band\b)\s*/i] at the current index. *)
Definition matchAnd (prev : option ascii) (rest : jsstring) : option nat :=
  let ws1 := takeWhile isSpace rest in
  let prev1 := lastOr prev ws1 in
  match dropWhile isSpace rest with
  | c :: r =>
      if Ascii.eqb c "&"%char
      then Some (length ws1 + 1 + length (takeWhile isSpace r))
      else
        match c :: r with
        | a :: n :: d :: r3 =>
            if Ascii.eqb (canonicalize a) (canonicalize "a") &&
               Ascii.eqb (canonicalize n) (canonicalize "n") &&
               Ascii.eqb (canonicalize d) (canonicalize "d") &&
               atBoundary prev1 (c :: r) && atBoundary (Some d) r3
            then Some (length ws1 + 3 + length (takeWhile isSpace r3))
            else None
        | _ => None
        end
  | [] => None
  end.

(* ================================================================== *)
(** ** Tokenizer *)

(** The class [[^A-Za-z&'\-\s\.]]. *)
Definition notNameChar (c : ascii) : bool :=
  negb (isUpperAZ c || isLowerAZ c || Ascii.eqb c "&" || Ascii.eqb c "'" ||
        Ascii.eqb c "-" || isSpace c || Ascii.eqb c ".").

(** [tokenizeNamePart] (lines 77-85). *)
Definition tokenizeNamePart (part : jsstring) : list jsstring :=
  filterBoolean
    (splitChar " "
       (trim
          (replaceRuns isSpace " "
             (replaceEach notNameChar
                (stripStars (cleanText (Some part))))))).

(* ================================================================== *)
(** ** Owners *)

(** The two shapes of owner object the parser creates: [{type: "person",
    first_name, last_name, middle_name}] and [{type: "company", name}]. *)
Inductive Owner : Type :=
| person (first_name last_name : jsstring) (middle_name : option jsstring)
| company (name : jsstring).

Record InvalidEntry : Type := mkInvalid { raw : jsstring; reason : jsstring }.

Record ParseResult : Type :=
  mkResult { resultOwners : list Owner; resultInvalids : list InvalidEntry }.

(** [normalizeOwnerKey] (lines 60-71).  The two [return null] are for a
    missing owner and for another [type], which the parser never creates. *)
Definition normalizeOwnerKey (owner : Owner) : jsstring :=
  match owner with
  | company name => toLowerCase (cleanText (Some name))
  | person first_name last_name middle_name =>
      let f := toLowerCase (orEmpty (Some first_name)) in
      let m := toLowerCase (orEmpty middle_name) in
      let l := toLowerCase (orEmpty (Some last_name)) in
      trim (join " " (filterBoolean [f; m; l]))
  end.

(* ================================================================== *)
(** ** Person builder *)

(** Lines 112-116: [if (middle) { mids = middle.split(" ").filter(t =>
    !SUFFIXES_IGNORE.test(t)); middle = mids.join(" ") || null }]. *)
Definition stripSuffixes (middle : option jsstring) : option jsstring :=
  if truthy middle then
    let mids := filter (fun t => negb (test SUFFIXES_IGNORE t))
                       (splitChar " " (orEmpty middle)) in
    orNull (Some (join " " mids))
  else middle.

(** Line 122: [middle ? titleCase(middle) : null]. *)
Definition middleNameOf (middle : option jsstring) : option jsstring :=
  if truthy middle then Some (titleCase (orEmpty middle)) else None.

(** The condition of lines 99-105. *)
Definition surnameOmitted (tokens : list jsstring)
  (fallbackLastName : option jsstring) : bool :=
  truthy fallbackLastName &&
  (length tokens <=? 2) &&
  truthy (nth_error tokens 0) &&
  isUpperCased (orEmpty (nth_error tokens 0)) &&
  truthy (nth_error tokens 1).

(** [buildPersonFromTokens] (lines 87-124); [None] is [null]. *)
Definition buildPersonFromTokens (tokens : list jsstring)
  (fallbackLastName : option jsstring) : option Owner :=
  if length tokens =? 0 then None
  else if length tokens =? 1 then None
  else
    let last := nth_error tokens 0 in
    let first := orNull (nth_error tokens 1) in
    let middle :=
      if 2 <? length tokens then Some (join " " (skipn 2 tokens)) else None in
    let '(first, middle, last) :=
      if surnameOmitted tokens fallbackLastName
      then (nth_error tokens 0, orNull (nth_error tokens 1), fallbackLastName)
      else (first, middle, last) in
    Some (person (titleCase (orEmpty first))
                 (titleCase (orEmpty last))
                 (middleNameOf (stripSuffixes middle))).

(** [if (p) owners.push(p)]. *)
Definition pushIf (p : option Owner) (owners : list Owner) : list Owner :=
  match p with Some o => owners ++ [o] | None => owners end.

(** The loop of lines 132-146 over [rem] from index [i] on; [rem] below is
    [rem.slice(i)] and [acc] the array [owners]. *)
Fixpoint splitLoop (lastTok : jsstring) (rem : list jsstring) (acc : list Owner)
  : list Owner :=
  match rem with
  | [] => acc
  | first :: rem1 =>
      let possibleMiddle := orNull (nth_error rem1 0) in
      match rem1 with
      | mid :: rem2 =>
          if truthy possibleMiddle
          then splitLoop lastTok rem2
                 (pushIf (buildPersonFromTokens [lastTok; first; mid] None) acc)
          else splitLoop lastTok rem1
                 (pushIf (buildPersonFromTokens [lastTok; first] None) acc)
      | [] => pushIf (buildPersonFromTokens [lastTok; first] None) acc
      end
  end.

(** [splitMultiplePersonsWithSharedLast] (lines 126-148). *)
Definition splitMultiplePersonsWithSharedLast (tokens : list jsstring) : list Owner :=
  if length tokens <? 4 then []
  else
    match tokens with
    | lastTok :: rem => splitLoop lastTok rem []
    | [] => []
    end.

(* ================================================================== *)
(** ** The state of one call of [parseOwnersFromText]

    The arrays [owners] and [invalids] and the variables [lastSurname] and
    [localLastSurname] are captured and updated by the two closures; a
    method call on [undefined] raises a [TypeError].  Computations are
    therefore run in a state monad with an abrupt completion. *)

Record Env : Type := mkEnv {
  owners : list Owner;
  invalids : list InvalidEntry;
  lastSurname : option jsstring;
  localLastSurname : option jsstring
}.

Inductive completion (A : Type) : Type :=
| Normal (a : A)
| Throw (error : jsstring).

Arguments Normal {A} a.
Arguments Throw {A} error.

Definition M (A : Type) : Type := Env -> completion (A * Env).

Definition ret {A : Type} (a : A) : M A := fun e => Normal (a, e).

Definition bind {A B : Type} (m : M A) (k : A -> M B) : M B :=
  fun e =>
    match m e with
    | Normal (a, e') => k a e'
    | Throw err => Throw err
    end.

Definition throw {A : Type} (err : jsstring) : M A := fun _ => Throw err.

Declare Scope js_scope.
Delimit Scope js_scope with js.
Notation "x <- m ; k" := (bind m (fun x => k))
  (at level 62, m at next level, right associativity) : js_scope.
Notation "m ;; k" := (bind m (fun _ => k))
  (at level 62, right associativity) : js_scope.
Open Scope js_scope.

Definition getLastSurname : M (option jsstring) := fun e => Normal (lastSurname e, e).
Definition getLocalLastSurname : M (option jsstring) :=
  fun e => Normal (localLastSurname e, e).

Definition setLastSurname (v : option jsstring) : M unit :=
  fun e => Normal (tt, mkEnv (owners e) (invalids e) v (localLastSurname e)).
Definition setLocalLastSurname (v : option jsstring) : M unit :=
  fun e => Normal (tt, mkEnv (owners e) (invalids e) (lastSurname e) v).

(** [owners.push(o)] and [invalids.push(i)]. *)
Definition pushOwner (o : Owner) : M unit :=
  fun e => Normal (tt, mkEnv (owners e ++ [o]) (invalids e) (lastSurname e)
                             (localLastSurname e)).
Definition pushInvalid (i : InvalidEntry) : M unit :=
  fun e => Normal (tt, mkEnv (owners e) (invalids e ++ [i]) (lastSurname e)
                             (localLastSurname e)).

(** [v.toUpperCase()] on a value that may be [undefined]. *)
Definition callToUpperCase (v : option jsstring) : M jsstring :=
  match v with
  | Some s => ret (toUpperCase s)
  | None => throw "TypeError: Cannot read properties of undefined (reading 'toUpperCase')"
  end.

(** [array.forEach((x, idx) => f(x, idx))], from index [idx] on. *)
Fixpoint forEachFrom {A : Type} (f : A -> nat -> M unit) (idx : nat) (l : list A)
  : M unit :=
  match l with
  | [] => ret tt
  | x :: l' => f x idx ;; forEachFrom f (S idx) l'
  end.

Definition forEach {A : Type} (f : A -> nat -> M unit) (l : list A) : M unit :=
  forEachFrom f 0 l.

Definition when (b : bool) (m : M unit) : M unit := if b then m else ret tt.

(* ================================================================== *)
(** ** Parse orchestrator *)

Definition ambiguous : jsstring := "ambiguous_or_incomplete_person_name".

(** The condition of line 201: [!person && tokens.length >= 4]. *)
Definition blindSplitGuard (person : option Owner) (tokens : list jsstring) : bool :=
  match person with None => 4 <=? length tokens | Some _ => false end.

(** [person.last_name] of an object built by [buildPersonFromTokens]. *)
Definition lastNameOf (o : Owner) : jsstring :=
  match o with person _ l _ => l | company _ => [] end.

(** Lines 216-226. *)
Definition pushPersonOrInvalid (person : option Owner) (part : jsstring) : M unit :=
  match person with
  | Some p =>
      pushOwner p ;;
      when (nonEmpty (lastNameOf p))
           (setLastSurname (Some (toUpperCase (lastNameOf p))))
  | None => pushInvalid (mkInvalid part ambiguous)
  end.

(** Lines 190-226, reached when the shared-surname split did not handle the
    part. *)
Definition buildPart (tokens : list jsstring) (part : jsstring) (idx : nat) : M unit :=
  when (idx =? 0) (setLocalLastSurname (nth_error tokens 0)) ;;
  localLast <- getLocalLastSurname ;
  lastSeen <- getLastSurname ;
  let person :=
    buildPersonFromTokens tokens
      (if 0 <? idx then orElse localLast lastSeen else None) in
  if blindSplitGuard person tokens then
    let lastTok := nth_error tokens 0 in
    let p1 := buildPersonFromTokens (firstn 3 tokens) None in
    let p2 := buildPersonFromTokens (skipn 3 tokens) lastTok in
    match p1, p2 with
    | Some o1, Some o2 =>
        pushOwner o1 ;;
        pushOwner o2 ;;
        (if truthy lastTok
         then (u <- callToUpperCase lastTok ; setLastSurname (Some u))
         else ret tt)
    | _, _ => pushPersonOrInvalid person part
    end
  else pushPersonOrInvalid person part.

(** The callback of [andParts.forEach] (lines 176-227). *)
Definition andPartCallback (andPartsLength : nat) (part : jsstring) (idx : nat)
  : M unit :=
  let tokens := tokenizeNamePart part in
  if length tokens =? 0 then ret tt
  else if (andPartsLength =? 1) && (4 <=? length tokens) then
    let multi := splitMultiplePersonsWithSharedLast tokens in
    if 2 <=? length multi then
      forEach (fun p _ => pushOwner p) multi ;;
      u <- callToUpperCase (nth_error tokens 0) ;
      setLastSurname (Some u)
    else buildPart tokens part idx
  else buildPart tokens part idx.

(** The text a segment is reduced to (line 164). *)
Definition segmentText (segment : jsstring) : jsstring :=
  trim (stripStar (cleanText (Some segment))).

(** [seg.split(/\s*(?:&|\band\b)\s*/i).filter(Boolean)] (line 173). *)
Definition andPartsOf (seg : jsstring) : list jsstring :=
  filterBoolean (splitRegex matchAnd seg).

(** [pushOwnerOrInvalid] (lines 163-228). *)
Definition pushOwnerOrInvalid (segment : jsstring) : M unit :=
  let seg := segmentText segment in
  if negb (nonEmpty seg) then ret tt
  else if isCompanyName seg then pushOwner (company (titleCase seg))
  else
    let andParts := andPartsOf seg in
    setLocalLastSurname None ;;
    forEach (andPartCallback (length andParts)) andParts.

(** The text the input is reduced to (lines 154-157). *)
Definition inputText (rawText : jsstring) : jsstring :=
  trim (replaceLongRuns (stripStar (cleanText (Some rawText)))).

(** [text.split(/\s*,\s*/).filter(Boolean)] (line 160). *)
Definition commaSegmentsOf (text : jsstring) : list jsstring :=
  filterBoolean (splitRegex matchComma text).

(** Line 240: [o.type === "person" && (!o.middle_name || !o.middle_name.trim())],
    then [o.middle_name = null]. *)
Definition nullifyEmptyMiddle (o : Owner) : Owner :=
  match o with
  | person f l m =>
      if negb (truthy m) || negb (nonEmpty (trim (orEmpty m)))
      then person f l None else o
  | company _ => o
  end.

(** Lines 233-244: [seen] is the set of keys met so far. *)
Fixpoint dedupFrom (seen : list jsstring) (os : list Owner) : list Owner :=
  match os with
  | [] => []
  | o :: os' =>
      let key := normalizeOwnerKey o in
      if negb (nonEmpty key) || existsb (streq key) seen
      then dedupFrom seen os'
      else nullifyEmptyMiddle o :: dedupFrom (key :: seen) os'
  end.

Definition dedup (os : list Owner) : list Owner := dedupFrom [] os.

Definition emptyEnv : Env := mkEnv [] [] None None.

(** Lines 154-230: the owners and invalid entries accumulated before
    deduplication. *)
Definition accumulate (rawText : jsstring) : completion (unit * Env) :=
  forEach (fun seg _ => pushOwnerOrInvalid seg)
          (commaSegmentsOf (inputText rawText)) emptyEnv.

(** [parseOwnersFromText] (lines 150-247); [None] is a [null] or [undefined]
    argument. *)
Definition parseOwnersFromText (rawText : option jsstring) : completion ParseResult :=
  if negb (truthy rawText) then Normal (mkResult [] [])
  else
    match accumulate (orEmpty rawText) with
    | Normal (_, e) => Normal (mkResult (dedup (owners e)) (invalids e))
    | Throw err => Throw err
    end.

(* ================================================================== *)
(** ** Definitions that follow the words of the specification *)

(** The indicator set of the company classifier, as the specification
    lists it. *)
Definition specIndicators : list jsstring :=
  [ str "inc"; str "llc"; str "ltd"; str "foundation"; str "alliance";
    str "solutions"; str "corp"; str "co"; str "services"; str "trust";
    str "tr"; str "associates"; str "partners"; str "lp"; str "llp";
    str "bank"; str "n.a."; str "na"; str "pllc"; str "company";
    str "enterprises"; str "properties"; str "holdings" ].

(** The indicators written with letters only. *)
Definition letterIndicators : list jsstring :=
  [ str "inc"; str "llc"; str "ltd"; str "foundation"; str "alliance";
    str "solutions"; str "corp"; str "co"; str "services"; str "trust";
    str "tr"; str "associates"; str "partners"; str "lp"; str "llp";
    str "bank"; str "na"; str "pllc"; str "company";
    str "enterprises"; str "properties"; str "holdings" ].

(** The indicators written with periods. *)
Definition dottedIndicators : list jsstring := [ str "l.l.c."; str "n.a." ].

(** [w] is a prefix of [s], ignoring case. *)
Fixpoint prefixCI (w s : jsstring) : bool :=
  match w, s with
  | [], _ => true
  | c :: w', d :: s' => Ascii.eqb (canonicalize d) (canonicalize c) && prefixCI w' s'
  | _ :: _, [] => false
  end.

(** [w] stands at the current index as a whole word: no word character
    before it and none after it. *)
Definition wordAt (w : jsstring) (prev : option ascii) (rest : jsstring) : bool :=
  negb (isWordAt prev) && prefixCI w rest &&
  negb (isWordAt (hd_error (skipn (length w) rest))).

(** The text contains [w] as a whole word, ignoring case. *)
Definition occursAsWord (w s : jsstring) : bool := anyIndex (wordAt w) s.

(** [w] starts at the current index after a non-word character and is
    followed by whitespace. *)
Definition spacedAt (w : jsstring) (prev : option ascii) (rest : jsstring) : bool :=
  negb (isWordAt prev) && prefixCI w rest &&
  match hd_error (skipn (length w) rest) with Some c => isSpace c | None => false end.

(** [w] starts at the current index after a non-word character. *)
Definition afterNonWord (w : jsstring) (prev : option ascii) (rest : jsstring) : bool :=
  negb (isWordAt prev) && prefixCI w rest.

(** The text contains [w] after a non-word character and before whitespace,
    ignoring case. *)
Definition occursSpaced (w s : jsstring) : bool := anyIndex (spacedAt w) s.

(** The text contains [w] after a non-word character, ignoring case. *)
Definition occursAfterNonWord (w s : jsstring) : bool := anyIndex (afterNonWord w) s.

(** Chunks of two tokens while two remain, then a last chunk of one. *)
Fixpoint chunksOfTwo (rem : list jsstring) : list (list jsstring) :=
  match rem with
  | a :: b :: rem' => [a; b] :: chunksOfTwo rem'
  | [a] => [[a]]
  | [] => []
  end.

(** The person of one chunk under the shared last name. *)
Definition personOfChunk (lastTok : jsstring) (chunk : list jsstring) : Owner :=
  person (titleCase (orEmpty (nth_error chunk 0)))
         (titleCase lastTok)
         (middleNameOf (stripSuffixes (nth_error chunk 1))).

(** First occurrence of each key wins, the order is kept. *)
Fixpoint keepFirsts (os : list Owner) : list Owner :=
  match os with
  | [] => []
  | o :: os' =>
      o :: filter (fun x => negb (streq (normalizeOwnerKey x) (normalizeOwnerKey o)))
                  (keepFirsts os')
  end.

Inductive subsequence {A : Type} : list A -> list A -> Prop :=
| subsequence_nil : subsequence [] []
| subsequence_skip x l1 l2 : subsequence l1 l2 -> subsequence l1 (x :: l2)
| subsequence_keep x l1 l2 : subsequence l1 l2 -> subsequence (x :: l1) (x :: l2).

(** Two strings are equal, ignoring case. *)
Definition sameIgnoringCase (a b : jsstring) : Prop :=
  map canonicalize a = map canonicalize b.

(** The whitespace-delimited tokens of a string. *)
Definition wsWords (s : jsstring) : list jsstring :=
  filterBoolean (splitWhen isSpace s).

(** Only whitespace, or nothing. *)
Definition blank (s : jsstring) : bool := forallb isSpace s.

(** The sub-parts the orchestrator hands to the tokenizer: the pieces
    between conjunctions of every segment that is not a company. *)
Definition partsOfSegment (segment : jsstring) : list jsstring :=
  let seg := segmentText segment in
  if negb (nonEmpty seg) then []
  else if isCompanyName seg then []
  else andPartsOf seg.

Definition subParts (rawText : jsstring) : list jsstring :=
  flat_map partsOfSegment (commaSegmentsOf (inputText rawText)).

(** One entry for each sub-part that tokenizes to exactly one token. *)
Definition invalidsOf (parts : list jsstring) : list InvalidEntry :=
  map (fun p => mkInvalid p ambiguous)
      (filter (fun p => length (tokenizeNamePart p) =? 1) parts).

Definition hasComma (s : jsstring) : bool := existsb (fun c => Ascii.eqb c ","%char) s.

(** What the proofs need of a token, and of an owner that is pushed. *)
Definition goodToken (t : jsstring) : bool :=
  nonEmpty t && forallb (fun c => negb (isSpace c)) t.

Definition noSuffixWord (m : jsstring) : bool :=
  forallb (fun w => negb (test SUFFIXES_IGNORE w)) (wsWords m).

Definition goodMiddle (m : option jsstring) : bool :=
  match m with
  | Some x => negb (blank x) && noSuffixWord x
  | None => true
  end.

Definition goodOwner (o : Owner) : bool :=
  match o with
  | person f _ m => negb (blank f) && goodMiddle m
  | company n => negb (blank n)
  end.

(** The three forms the alternatives of [COMPANY_KEYWORDS] take, with the
    word each one spells. *)
Inductive keywordShape : regex -> jsstring -> Prop :=
| shape_plain w : keywordShape (lit w) w
| shape_period w : keywordShape (Seq (lit w) (opt (Chr "."))) w
| shape_boundary w : keywordShape (Seq (lit w) Bnd) w.

(** The words of [companyAlternatives], in source order. *)
Definition companyWords : list jsstring :=
  [ str "inc"; str "l.l.c."; str "llc"; str "ltd"; str "foundation";
    str "alliance"; str "solutions"; str "corp"; str "co"; str "services";
    str "trust"; str "tr"; str "associates"; str "partners"; str "lp";
    str "llp"; str "bank"; str "n.a."; str "na"; str "pllc"; str "company";
    str "enterprises"; str "properties"; str "holdings" ].

(** The first character is a word character. *)
Definition startsWordy (w : jsstring) : bool :=
  match w with c :: _ => isWord c | [] => false end.

(** Some letter indicator stands here as a whole word, or some dotted one
    starts here after a non-word character. *)
Definition keywordHere (prev : option ascii) (rest : jsstring) : bool :=
  existsb (fun w => wordAt w prev rest) letterIndicators ||
  existsb (fun w => afterNonWord w prev rest) dottedIndicators.

(** A non-empty word of word characters only. *)
Definition wordy (w : jsstring) : bool := nonEmpty w && forallb isWord w.

(** Two states of the matcher that agree up to case. *)
Definition sameFold (a b : position) : Prop :=
  option_map canonicalize (fst a) = option_map canonicalize (fst b) /\
  map canonicalize (snd a) = map canonicalize (snd b).

(* ================================================================== *)
(** ** The callers of the parser *)

(** The loop of lines 355-362 and of lines 379-385: the owners of a parse
    result are deduplicated once more by key, first occurrence kept. *)
Fixpoint dedupByKeyFrom (seen : list jsstring) (os : list Owner) : list Owner :=
  match os with
  | [] => []
  | o :: os' =>
      let k := normalizeOwnerKey o in
      if negb (nonEmpty k) || existsb (streq k) seen
      then dedupByKeyFrom seen os'
      else o :: dedupByKeyFrom (k :: seen) os'
  end.

Definition dedupByKey (os : list Owner) : list Owner := dedupByKeyFrom [] os.

(* ================================================================== *)
(** ** Further notions used in the properties *)

Definition spaceAt (c : option ascii) : bool :=
  match c with Some c => isSpace c | None => false end.

(** Every whitespace character is a SPACE and no two stand side by side. *)
Fixpoint singleSpaced (s : jsstring) : bool :=
  match s with
  | [] => true
  | c :: s' =>
      (if isSpace c then Ascii.eqb c " " && negb (spaceAt (hd_error s')) else true)
      && singleSpaced s'
  end.

(** Single-spaced, with no whitespace at either end: the texts [cleanText]
    returns. *)
Definition isClean (s : jsstring) : bool :=
  singleSpaced s && negb (spaceAt (hd_error s)) && negb (spaceAt (hd_error (rev s))).

(** The characters a token can hold: ASCII letters, ampersand, apostrophe,
    hyphen and period. *)
Definition isTokenChar (c : ascii) : bool :=
  isUpperAZ c || isLowerAZ c || Ascii.eqb c "&" || Ascii.eqb c "'" ||
  Ascii.eqb c "-" || Ascii.eqb c ".".

(** The owners the orchestrator pushes: a person built from the tokens of a
    sub-part, or a company named by a title-cased segment text. *)
Inductive Produced : Owner -> Prop :=
| produced_person tokens fallbackLastName o :
    Forall (fun t => goodToken t = true) tokens ->
    buildPersonFromTokens tokens fallbackLastName = Some o ->
    Produced o
| produced_company seg :
    isCompanyName seg = true -> Produced (company (titleCase seg)).

(** The fallback surname of line 197. *)
Definition fallbackAt (idx : nat) (e : Env) : option jsstring :=
  if 0 <? idx then orElse (localLastSurname e) (lastSurname e) else None.

(** The owners one run of the callback of [andParts.forEach] pushes, read
    off the branches that can be taken: nothing for a sub-part without
    tokens, the persons of the shared-surname split for a lone sub-part of
    four tokens or more, and otherwise the person built with the fallback
    surname of line 197, if one is built. *)
Definition pushedBy (andPartsLength : nat) (part : jsstring) (idx : nat) (e : Env)
  : list Owner :=
  let tokens := tokenizeNamePart part in
  if length tokens =? 0 then []
  else if (andPartsLength =? 1) && (4 <=? length tokens)
  then map (personOfChunk (hd [] tokens)) (chunksOfTwo (tl tokens))
  else pushIf (buildPersonFromTokens tokens (fallbackAt idx e)) [].

(** The shape of an owner of a result: names present and in title case, a
    middle name absent or present and in title case, a company name that
    the classifier accepts. *)
Definition wellFormedOwner (o : Owner) : Prop :=
  match o with
  | person first last middle =>
      first <> [] /\ last <> [] /\ middle <> Some [] /\
      titleCase first = first /\ titleCase last = last /\
      (forall x, middle = Some x -> titleCase x = x)
  | company name =>
      name <> [] /\ titleCase name = name /\ isCompanyName name = true
  end.

(** An owner with every field in lower case. *)
Definition lowerCaseOwner (o : Owner) : Owner :=
  match o with
  | person first last middle =>
      person (toLowerCase first) (toLowerCase last) (option_map toLowerCase middle)
  | company name => company (toLowerCase name)
  end.

(* ================================================================== *)
(** ** Sale dates (lines 306-315) *)

(** [\d{1,n}] at the start of [s]: the digits taken, greedily, and the
    rest.  In the date pattern a slash or the end must follow, so giving a
    digit back never helps. *)
Fixpoint takeDigits (n : nat) (s : jsstring) : jsstring * jsstring :=
  match n, s with
  | S n', c :: s' =>
      if isDigit c
      then let (d, r) := takeDigits n' s' in (c :: d, r)
      else ([], s)
  | _, _ => ([], s)
  end.

(** [dateText.match(/^(\d{1,2})\/(\d{1,2})\/(\d{4})$/)]: the three groups. *)
Definition matchSaleDate (dateText : jsstring)
  : option (jsstring * jsstring * jsstring) :=
  let (g1, r1) := takeDigits 2 dateText in
  if nonEmpty g1 then
    match r1 with
    | c1 :: r2 =>
        if Ascii.eqb c1 "/" then
          let (g2, r3) := takeDigits 2 r2 in
          if nonEmpty g2 then
            match r3 with
            | c2 :: r4 =>
                if Ascii.eqb c2 "/" then
                  let (g3, r5) := takeDigits 4 r4 in
                  if (length g3 =? 4) && negb (nonEmpty r5)
                  then Some (g1, g2, g3) else None
                else None
            | [] => None
            end
          else None
        else None
    | [] => None
    end
  else None.

(** [s.padStart(2, "0")]. *)
Definition padStart2 (s : jsstring) : jsstring :=
  repeat "0"%char (2 - length s) ++ s.

(** Lines 308-315: [normDate], [None] for [null]. *)
Definition normalizeSaleDate (dateText : jsstring) : option jsstring :=
  match matchSaleDate dateText with
  | Some (g1, g2, g3) => Some (g3 ++ str "-" ++ padStart2 g1 ++ str "-" ++ padStart2 g2)
  | None => None
  end.

(* ================================================================== *)
(** ** Sales history (lines 290-336)

    The document is read through a query library; what the loop over the
    rows of the sales table uses of one row is the text of its first cell,
    the text of its grantee [span] when there is one, and the text of its
    ninth cell when it has nine cells. *)

Record SalesRow : Type := mkSalesRow {
  dateCell : jsstring;
  granteeSpan : option jsstring;
  ninthCell : option jsstring
}.

Record HistoryEntry : Type := mkHistoryEntry {
  entryDate : jsstring;
  entryOwners : list Owner;
  entryInvalids : list InvalidEntry
}.

(** Lines 317-325. *)
Definition granteeTextOf (row : SalesRow) : jsstring :=
  match granteeSpan row with
  | Some t => cleanText (Some t)
  | None =>
      match ninthCell row with
      | Some t => cleanText (Some t)
      | None => []
      end
  end.

(** The loop of lines 304-334 over the rows; an exception raised by the
    parser would leave the loop. *)
Fixpoint salesHistoryOf (rows : list SalesRow) : completion (list HistoryEntry) :=
  match rows with
  | [] => Normal []
  | row :: rows' =>
      let normDate := normalizeSaleDate (cleanText (Some (dateCell row))) in
      let granteeText := granteeTextOf row in
      if truthy normDate && nonEmpty granteeText then
        match parseOwnersFromText (Some granteeText) with
        | Normal parsed =>
            match salesHistoryOf rows' with
            | Normal rest =>
                Normal (mkHistoryEntry (orEmpty normDate) (resultOwners parsed)
                                       (resultInvalids parsed) :: rest)
            | Throw err => Throw err
            end
        | Throw err => Throw err
        end
      else salesHistoryOf rows'
  end.

(* ================================================================== *)
(** ** The owners by date (lines 338-393) *)

(** A [Map], or an object whose keys are not array indices: the entries in
    the order of first insertion; setting a key that is present replaces
    its value in place. *)
Fixpoint assocSet {V : Type} (k : jsstring) (v : V) (m : list (jsstring * V))
  : list (jsstring * V) :=
  match m with
  | [] => [(k, v)]
  | (k', v') :: m' =>
      if streq k' k then (k, v) :: m' else (k', v') :: assocSet k v m'
  end.

Fixpoint assocGet {V : Type} (k : jsstring) (m : list (jsstring * V)) : option V :=
  match m with
  | [] => None
  | (k', v') :: m' => if streq k' k then Some v' else assocGet k m'
  end.

(** Lines 351-364: [dateMap]. *)
Definition dateMapOf (salesHistory : list HistoryEntry)
  : list (jsstring * list Owner) :=
  fold_left
    (fun m h =>
       if nonEmpty (entryDate h)
       then assocSet (entryDate h) (dedupByKey (entryOwners h)) m
       else m)
    salesHistory [].

(** Lines 367-387: [owners_by_date].  [sortDates] stands for
    [keys.sort((a, b) => a.localeCompare(b))], whose order depends on the
    collation of the host; a value is [None] when [dateMap.get] gives
    [undefined]. *)
Definition ownersByDateOf (sortDates : list jsstring -> list jsstring)
  (currentParsed : ParseResult) (salesHistory : list HistoryEntry)
  : list (jsstring * option (list Owner)) :=
  let dateMap := dateMapOf salesHistory in
  let sortedDates := sortDates (map fst dateMap) in
  let owners_by_date :=
    fold_left (fun obj d => assocSet d (assocGet d dateMap) obj) sortedDates [] in
  assocSet "current" (Some (dedupByKey (resultOwners currentParsed))) owners_by_date.


(** The last entry of the history with a given date. *)
Definition lastEntryFor (d : jsstring) (salesHistory : list HistoryEntry)
  : option HistoryEntry :=
  find (fun h => streq (entryDate h) d) (rev salesHistory).

(** A string of four digits, a hyphen, two digits, a hyphen, two digits. *)
Definition isIsoDate (s : jsstring) : bool :=
  match s with
  | [y1; y2; y3; y4; h1; m1; m2; h2; d1; d2] =>
      forallb isDigit [y1; y2; y3; y4; m1; m2; d1; d2] &&
      Ascii.eqb h1 "-" && Ascii.eqb h2 "-"
  | _ => false
  end.

(** The text does not begin with a digit. *)
Definition notDigitHead (r : jsstring) : Prop :=
  match r with
  | c :: _ => isDigit c = false
  | [] => True
  end.

(** The normalized date of a row, and whether the row has one and a
    grantee text that is not empty. *)
Definition rowDate (row : SalesRow) : option jsstring :=
  normalizeSaleDate (cleanText (Some (dateCell row))).

Definition rowKept (row : SalesRow) : bool :=
  match rowDate row with
  | Some _ => nonEmpty (granteeTextOf row)
  | None => false
  end.

(** An entry of the history records the date of the row and the result of
    parsing its grantee text. *)
Definition entryOfRow (row : SalesRow) (h : HistoryEntry) : Prop :=
  rowDate row = Some (entryDate h) /\
  parseOwnersFromText (Some (granteeTextOf row)) =
  Normal (mkResult (entryOwners h) (entryInvalids h)).

(* ================================================================== *)
(** ** The property identifier (lines 21-52 and 339)

    Of the document, the function uses the text of each [th] with the text
    of the [td] that follows it (empty when there is none), and the text of
    the title. *)

Record Header : Type := mkHeader { thText : jsstring; nextTdText : jsstring }.

Inductive IdKey : Type := prop_id | property_id | parcel_id.

Definition IdKey_eqb (a b : IdKey) : bool :=
  match a, b with
  | prop_id, prop_id | property_id, property_id | parcel_id, parcel_id => true
  | _, _ => false
  end.

Record Candidate : Type := mkCandidate { key : IdKey; value : jsstring }.

(** [/(^|\b)WORD\s*id(\b|:)/i] at one index of the label.  A letter
    follows [\s*], so taking fewer spaces never helps. *)
Definition labelAt (word : jsstring) (prev : option ascii) (rest : jsstring) : bool :=
  (match prev with None => true | Some _ => false end || atBoundary prev rest) &&
  prefixCI word rest &&
  let afterWord := dropWhile isSpace (skipn (length word) rest) in
  prefixCI "id" afterWord &&
  let tail := skipn 2 afterWord in
  (atBoundary (nth_error afterWord 1) tail ||
   match tail with
   | c :: _ => Ascii.eqb (canonicalize c) (canonicalize ":")
   | [] => false
   end).

Definition labelTest (word label : jsstring) : bool := anyIndex (labelAt word) label.

(** The chain of tests of lines 28-34. *)
Definition classifyLabel (label : jsstring) : option IdKey :=
  if labelTest "prop" label || streq label "prop id" then Some prop_id
  else if labelTest "property" label then Some property_id
  else if labelTest "parcel" label then Some parcel_id
  else None.

Definition labelOf (h : Header) : jsstring :=
  toLowerCase (cleanText (Some (thText h))).

(** The callback of lines 24-35 for one header: the candidate pushed. *)
Definition candidateOf (h : Header) : option Candidate :=
  let label := labelOf h in
  let value := cleanText (Some (nextTdText h)) in
  if negb (nonEmpty value) then None
  else option_map (fun k => mkCandidate k value) (classifyLabel label).

Definition candidatesOf (headers : list Header) : list Candidate :=
  flat_map (fun h => match candidateOf h with Some c => [c] | None => [] end)
           headers.

(** The loop of lines 37-43; a candidate found is an object, which is
    truthy. *)
Fixpoint preferred (pref : list IdKey) (candidates : list Candidate)
  : option jsstring :=
  match pref with
  | [] => None
  | p :: pref' =>
      match find (fun c => IdKey_eqb (key c) p) candidates with
      | Some found => Some (value found)
      | None => preferred pref' candidates
      end
  end.

(** The class [[A-Za-z0-9\-_.]] under flag [i]: the canonical form of the
    character is the canonical form of a member. *)
Definition isIdChar (c : ascii) : bool :=
  let u := canonicalize c in
  isUpperAZ u || isDigit u || Ascii.eqb u "-" || Ascii.eqb u "_" || Ascii.eqb u ".".

(** [/Report:\s*([A-Za-z0-9\-_.]+)/i] at one index: the group.  No member
    of the class is a space and the class ends the pattern, so the longest
    runs are the ones matched. *)
Definition reportAt (rest : jsstring) : option jsstring :=
  if prefixCI "Report:" rest then
    let cap := takeWhile isIdChar (dropWhile isSpace (skipn 7 rest)) in
    if nonEmpty cap then Some cap else None
  else None.

(** [title.match(...)]: the group of the first match. *)
Fixpoint reportMatch (s : jsstring) : option jsstring :=
  match reportAt s with
  | Some cap => Some cap
  | None =>
      match s with
      | [] => None
      | _ :: s' => reportMatch s'
      end
  end.

Definition extractPropertyId (headers : list Header) (titleText : jsstring)
  : jsstring :=
  let id := preferred [prop_id; property_id; parcel_id] (candidatesOf headers) in
  let id :=
    if negb (truthy id) then
      match reportMatch (cleanText (Some titleText)) with
      | Some cap => Some cap
      | None => id
      end
    else id in
  if truthy id then cleanText id else "unknown_id".

(** Line 339: [extractPropertyId($) || "unknown_id"]. *)
Definition propertyIdOf (headers : list Header) (titleText : jsstring) : jsstring :=
  let id := extractPropertyId headers titleText in
  if nonEmpty id then id else "unknown_id".

(** The order of preference of the keys. *)
Definition rank (k : IdKey) : nat :=
  match k with prop_id => 0 | property_id => 1 | parcel_id => 2 end.

(** [word], spaces or none, and [id], with no word character before or
    after. *)
Definition labelWordsAt (word : jsstring) (prev : option ascii) (rest : jsstring)
  : bool :=
  negb (isWordAt prev) && prefixCI word rest &&
  let afterWord := dropWhile isSpace (skipn (length word) rest) in
  prefixCI "id" afterWord && negb (isWordAt (hd_error (skipn 2 afterWord))).

(** The class [[A-Za-z0-9\-_.]] read without the flag. *)
Definition isIdCharPlain (c : ascii) : bool :=
  isUpperAZ c || isLowerAZ c || isDigit c ||
  Ascii.eqb c "-" || Ascii.eqb c "_" || Ascii.eqb c ".".

(* ================================================================== *)
(** ** The current owners (lines 249-288)

    Of a [section], the functions use the text of its first [div.title]
    and, of each [span] inside it in document order, the [id] attribute,
    which may be missing, and the text. *)

Record SpanEl : Type := mkSpan { spanId : option jsstring; spanText : jsstring }.

Record SectionEl : Type := mkSection { divTitle : jsstring; spans : list SpanEl }.

(** [s.includes(w)], also [/w/.test(s)] for a pattern of plain characters. *)
Definition includes (w s : jsstring) : bool :=
  anyIndex (fun _ rest => streq (firstn (length w) rest) w) s.

(** [/w/i.test(s)] for a pattern of plain characters. *)
Definition includesCI (w s : jsstring) : bool :=
  anyIndex (fun _ rest => prefixCI w rest) s.

(** [findOwnerSection]: the loop stops at the first section whose title
    matches. *)
Definition findOwnerSection (sections : list SectionEl) : option SectionEl :=
  find (fun el =>
          includes "owner information"
                   (toLowerCase (cleanText (Some (divTitle el)))))
       sections.

(** [(el.attribs && el.attribs.id) || ""]. *)
Definition idOf (el : SpanEl) : jsstring := orEmpty (spanId el).

(** [/\d{3,}/.test(t)]. *)
Definition hasDigitRun (t : jsstring) : bool :=
  anyIndex (fun _ rest =>
              match rest with
              | a :: b :: c :: _ => isDigit a && isDigit b && isDigit c
              | _ => false
              end) t.

(** [/[a-zA-Z]/.test(t)]. *)
Definition hasAlpha (t : jsstring) : bool :=
  existsb (fun c => isUpperAZ c || isLowerAZ c) t.

(** The callback of lines 277-283, on the variable [nameText]. *)
Definition fallbackSpan (nameText : jsstring) (el : SpanEl) : jsstring :=
  let id := idOf el in
  let t := cleanText (Some (spanText el)) in
  if includes "address" (toLowerCase id) then nameText
  else if hasDigitRun t then nameText
  else if hasAlpha t && (3 <=? length t) && negb (nonEmpty nameText) then t
  else nameText.

(** Lines 265-285: [nameText]. *)
Definition nameTextOf (sec : option SectionEl) : jsstring :=
  match sec with
  | Some sec =>
      let nameSpans :=
        filter (fun el => includesCI "ownername" (idOf el)) (spans sec) in
      match nameSpans with
      | first :: _ => cleanText (Some (spanText first))
      | [] => fold_left fallbackSpan (spans sec) []
      end
  | None => []
  end.

Definition extractCurrentOwners (sections : list SectionEl)
  : completion ParseResult :=
  parseOwnersFromText (Some (nameTextOf (findOwnerSection sections))).

(** A span the fallback accepts. *)
Definition nameLike (el : SpanEl) : bool :=
  let t := cleanText (Some (spanText el)) in
  negb (includes "address" (toLowerCase (idOf el))) &&
  negb (hasDigitRun t) && hasAlpha t && (3 <=? length t).

(** The span whose text is parsed, if any. *)
Definition chosenSpan (sections : list SectionEl) : option SpanEl :=
  match findOwnerSection sections with
  | Some sec =>
      match find (fun el => includesCI "ownername" (idOf el)) (spans sec) with
      | Some el => Some el
      | None => find nameLike (spans sec)
      end
  | None => None
  end.

(** The units that [toUpperCase] changes: a-z, the micro sign, and
    U+00DF..U+00FF but the division sign. *)
Definition hasCapital (c : ascii) : bool :=
  isLowerAZ c || (code c =? 181) || (inRange 223 255 c && negb (code c =? 247)).

(** The token equals, ignoring case, one of the suffix words. *)
Definition isSuffixToken (t : jsstring) : bool :=
  existsb (fun x => streq (map canonicalize t) (map canonicalize x)) suffixWords.

(** The middle name made of a middle-name portion: its tokens that are not
    suffixes, joined by a space and title-cased; absent when none remains. *)
Definition strippedMiddle (portion : list jsstring) : option jsstring :=
  match filter (fun t => negb (isSuffixToken t)) portion with
  | [] => None
  | kept => Some (titleCase (join " " kept))
  end.

(* ================================================================== *)
(** * Properties *)

(** ** Code units *)

Ltac all_units c :=
  destruct c as [[|] [|] [|] [|] [|] [|] [|] [|]]; vm_compute;
  try reflexivity; try discriminate; auto.

Lemma isSpace_not_isWord (c : ascii) : isSpace c = true -> isWord c = false.
Proof. all_units c. Qed.

Lemma isNbspOrSpace_isSpace (c : ascii) : isNbspOrSpace c = isSpace c.
Proof. all_units c. Qed.

Lemma isSpace_toLowerCaseUnit (c : ascii) : isSpace (toLowerCaseUnit c) = isSpace c.
Proof. all_units c. Qed.

Lemma canonicalize_toLowerCaseUnit (c : ascii) :
  canonicalize (toLowerCaseUnit c) = canonicalize c.
Proof. all_units c. Qed.

Lemma isWord_canonicalize (c : ascii) : isWord (canonicalize c) = isWord c.
Proof. all_units c. Qed.

Lemma isSpace_canonicalize (c : ascii) : isSpace (canonicalize c) = isSpace c.
Proof. all_units c. Qed.

Lemma toUpperCaseUnit_isWord (c : ascii) :
  isWord c = true -> toUpperCaseUnit c = [hd c (toUpperCaseUnit c)].
Proof. all_units c. Qed.

Lemma canonicalize_toUpperCaseUnit (c : ascii) :
  isWord c = true -> canonicalize (hd c (toUpperCaseUnit c)) = canonicalize c.
Proof. all_units c. Qed.

Lemma canonicalize_eq_isWord (c d : ascii) :
  canonicalize d = canonicalize c -> isWord d = isWord c.
Proof.
  intro H. rewrite <- (isWord_canonicalize d), H. apply isWord_canonicalize.
Qed.

Lemma canonicalize_eq_isSpace (c d : ascii) :
  canonicalize d = canonicalize c -> isSpace d = isSpace c.
Proof.
  intro H. rewrite <- (isSpace_canonicalize d), H. apply isSpace_canonicalize.
Qed.

(** ** Strings *)

Lemma streq_refl (a : jsstring) : streq a a = true.
Proof.
  induction a as [|x a IH]; simpl; [reflexivity|].
  now rewrite Ascii.eqb_refl.
Qed.

Lemma streq_eq (a b : jsstring) : streq a b = true <-> a = b.
Proof.
  split.
  - revert b. induction a as [|x a IH]; intros [|y b] H; simpl in H;
      try discriminate; [reflexivity|].
    apply andb_true_iff in H. destruct H as [H1 H2].
    apply Ascii.eqb_eq in H1. apply IH in H2. now subst.
  - intros ->. apply streq_refl.
Qed.


Lemma nonEmpty_false (s : jsstring) : nonEmpty s = false <-> s = [].
Proof. destruct s; simpl; split; intro H; congruence. Qed.

Lemma In_dropWhile (p : ascii -> bool) (s : jsstring) (c : ascii) :
  In c (dropWhile p s) -> In c s.
Proof.
  induction s as [|d s IH]; simpl; [tauto|].
  destruct (p d); simpl; tauto.
Qed.

Lemma In_trim (s : jsstring) (c : ascii) : In c (trim s) -> In c s.
Proof.
  unfold trim. intro H. apply in_rev in H. apply In_dropWhile in H.
  apply in_rev in H. now apply In_dropWhile in H.
Qed.

Lemma dropWhile_all (p : ascii -> bool) (s : jsstring) :
  forallb p s = true -> dropWhile p s = [].
Proof.
  induction s as [|d s IH]; simpl; [reflexivity|].
  destruct (p d); simpl; [assumption|discriminate].
Qed.

Lemma trim_blank (s : jsstring) : blank s = true -> trim s = [].
Proof.
  intro H. unfold trim. now rewrite (dropWhile_all isSpace s H).
Qed.

Lemma dropWhile_keeps (p : ascii -> bool) (s : jsstring) (c : ascii) :
  In c s -> p c = false -> In c (dropWhile p s).
Proof.
  induction s as [|d s IH]; simpl; [tauto|].
  intros [->|H] Hc.
  - rewrite Hc. now left.
  - destruct (p d); [now apply IH|]. now right.
Qed.

Lemma In_trim_keeps (s : jsstring) (c : ascii) :
  In c s -> isSpace c = false -> In c (trim s).
Proof.
  intros H Hc. unfold trim. apply -> in_rev.
  apply dropWhile_keeps; [|assumption].
  apply -> in_rev. now apply dropWhile_keeps.
Qed.

Lemma blank_false (s : jsstring) :
  blank s = false <-> exists c, In c s /\ isSpace c = false.
Proof.
  unfold blank. induction s as [|d s IH]; simpl.
  - split; [discriminate|]. intros [c [[] _]].
  - destruct (isSpace d) eqn:E; simpl.
    + rewrite IH. split; intros [c [H1 H2]]; exists c.
      * tauto.
      * destruct H1 as [->|H1]; [congruence|tauto].
    + split; [|reflexivity]. intros _. exists d. tauto.
Qed.

Lemma nonEmpty_trim (s : jsstring) : blank s = false -> nonEmpty (trim s) = true.
Proof.
  intro H. apply blank_false in H. destruct H as [c [H1 H2]].
  pose proof (In_trim_keeps s c H1 H2) as H.
  destruct (trim s); [destruct H|reflexivity].
Qed.

Lemma blank_app (a b : jsstring) : blank (a ++ b) = blank a && blank b.
Proof. apply forallb_app. Qed.

Lemma blank_map (f : ascii -> ascii) (s : jsstring) :
  (forall c, isSpace (f c) = isSpace c) -> blank (map f s) = blank s.
Proof.
  intro Hf. unfold blank. induction s as [|d s IH]; simpl; [reflexivity|].
  now rewrite Hf, IH.
Qed.

Lemma blank_toLowerCase (s : jsstring) : blank (toLowerCase s) = blank s.
Proof. apply blank_map, isSpace_toLowerCaseUnit. Qed.

(** ** Global replacements *)

Lemma In_replaceRunsFrom cls r b s c :
  In c (replaceRunsFrom cls r b s) -> (In c s /\ cls c = false) \/ In c r.
Proof.
  revert b. induction s as [|d s IH]; simpl; intro b; [tauto|].
  destruct (cls d) eqn:E.
  - destruct b.
    + intro H. apply IH in H. tauto.
    + intro H. apply in_app_or in H. destruct H as [H|H]; [tauto|].
      apply IH in H. tauto.
  - intros [->|H]; [tauto|]. apply IH in H. tauto.
Qed.

Lemma replaceRunsFrom_keeps cls r b s c :
  In c s -> cls c = false -> In c (replaceRunsFrom cls r b s).
Proof.
  revert b. induction s as [|d s IH]; simpl; intros b H Hc; [tauto|].
  destruct H as [->|H].
  - rewrite Hc. now left.
  - destruct (cls d); [destruct b|].
    + now apply IH.
    + apply in_or_app. right. now apply IH.
    + right. now apply IH.
Qed.

Lemma blank_replaceRunsFrom cls r b s :
  blank r = true -> blank s = true -> blank (replaceRunsFrom cls r b s) = true.
Proof.
  intros Hr. revert b. unfold blank in *.
  induction s as [|d s IH]; simpl; intros b H; [reflexivity|].
  apply andb_true_iff in H. destruct H as [H1 H2].
  destruct (cls d); [destruct b|]; simpl; auto.
  - rewrite forallb_app, Hr. simpl. auto.
  - rewrite H1. simpl. auto.
Qed.

Lemma In_replaceLongRunsFrom b s c :
  In c (replaceLongRunsFrom b s) -> In c s \/ c = " "%char.
Proof.
  revert b. induction s as [|d s IH]; intro b; [simpl; tauto|].
  cbn [replaceLongRunsFrom]. destruct (isSpace d).
  - destruct b.
    + intro H. apply IH in H. simpl. tauto.
    + destruct s as [|e s'].
      * simpl. tauto.
      * destruct (isSpace e).
        -- intros [H|H]; [now right|]. apply IH in H. simpl in *. tauto.
        -- intros [H|H]; [left; now left|]. apply IH in H. simpl in *. tauto.
  - intros [H|H]; [left; now left|]. apply IH in H. simpl. tauto.
Qed.

Lemma In_stripStar s c : In c (stripStar s) -> In c s.
Proof.
  destruct s as [|d s]; simpl; [tauto|].
  destruct (Ascii.eqb d "*"); simpl; tauto.
Qed.

Lemma In_cleanText s c :
  In c (cleanText (Some s)) -> (In c s /\ isSpace c = false) \/ c = " "%char.
Proof.
  unfold cleanText. intro H. apply In_trim in H.
  apply In_replaceRunsFrom in H. destruct H as [[H Hc]|H].
  - apply In_replaceRunsFrom in H. destruct H as [[H Hc']|H].
    + left. split; [|assumption].
      simpl in H. destruct s; [destruct H|exact H].
    + right. simpl in H. destruct H as [H|[]]. now symmetry.
  - right. simpl in H. destruct H as [H|[]]. now symmetry.
Qed.

Lemma cleanText_blank s : blank s = true -> cleanText (Some s) = [].
Proof.
  intro H. unfold cleanText. apply trim_blank.
  apply blank_replaceRunsFrom; [reflexivity|].
  apply blank_replaceRunsFrom; [reflexivity|].
  destruct s; [reflexivity|exact H].
Qed.

Lemma cleanText_nonblank s : blank s = false -> nonEmpty (cleanText (Some s)) = true.
Proof.
  intro H. unfold cleanText. apply nonEmpty_trim.
  apply blank_false in H. destruct H as [c [H1 H2]].
  apply blank_false. exists c. split; [|assumption].
  apply replaceRunsFrom_keeps; [|now rewrite isNbspOrSpace_isSpace].
  apply replaceRunsFrom_keeps; [|assumption].
  destruct s; [destruct H1|exact H1].
Qed.

(** ** Title case *)

Lemma titleCaseFrom_canonicalize b s :
  map canonicalize (titleCaseFrom b s) = map canonicalize s.
Proof.
  revert b. induction s as [|c s IH]; intro b; [reflexivity|].
  cbn [titleCaseFrom]. destruct b.
  - destruct (isSpace c); cbn [map]; rewrite IH; [reflexivity|].
    now rewrite canonicalize_toLowerCaseUnit.
  - destruct (isWord c) eqn:E.
    + rewrite (toUpperCaseUnit_isWord c E). cbn [app map].
      now rewrite IH, (canonicalize_toUpperCaseUnit c E).
    + cbn [map]. now rewrite IH.
Qed.

Lemma blank_canonicalize s1 s2 :
  map canonicalize s1 = map canonicalize s2 -> blank s1 = blank s2.
Proof.
  revert s2. induction s1 as [|c s1 IH]; intros [|d s2] H; try discriminate;
    [reflexivity|].
  injection H as H1 H2. unfold blank in *. simpl.
  now rewrite (canonicalize_eq_isSpace _ _ H1), (IH _ H2).
Qed.

Lemma blank_titleCase s : blank (titleCase s) = blank s.
Proof. apply blank_canonicalize, titleCaseFrom_canonicalize. Qed.

(** ** Splitting and joining *)

Section Splitting.

Variable sep : ascii -> bool.

Lemma splitWhen_not_nil s : splitWhen sep s <> [].
Proof.
  destruct s as [|c s]; simpl; [discriminate|].
  destruct (sep c); [discriminate|]. destruct (splitWhen sep s); discriminate.
Qed.

Lemma In_splitWhen s p c :
  In p (splitWhen sep s) -> In c p -> In c s /\ sep c = false.
Proof.
  revert p. induction s as [|d s IH]; simpl; intros p Hp Hc.
  - destruct Hp as [<-|[]]. destruct Hc.
  - destruct (sep d) eqn:E.
    + destruct Hp as [<-|Hp]; [destruct Hc|].
      destruct (IH p Hp Hc). tauto.
    + destruct (splitWhen sep s) as [|q qs] eqn:Eq.
      * now apply splitWhen_not_nil in Eq.
      * destruct Hp as [<-|Hp].
        -- destruct Hc as [<-|Hc]; [tauto|].
           destruct (IH q (or_introl eq_refl) Hc). tauto.
        -- destruct (IH p (or_intror Hp) Hc). tauto.
Qed.

Lemma splitWhen_free x :
  forallb (fun c => negb (sep c)) x = true -> splitWhen sep x = [x].
Proof.
  induction x as [|c x IH]; simpl; [reflexivity|].
  intro H. apply andb_true_iff in H. destruct H as [H1 H2].
  apply negb_true_iff in H1. now rewrite H1, (IH H2).
Qed.

Lemma splitWhen_app x c rest :
  forallb (fun c => negb (sep c)) x = true -> sep c = true ->
  splitWhen sep (x ++ c :: rest) = x :: splitWhen sep rest.
Proof.
  intros Hx Hc. induction x as [|d x IH]; simpl.
  - now rewrite Hc.
  - simpl in Hx. apply andb_true_iff in Hx. destruct Hx as [H1 H2].
    apply negb_true_iff in H1. now rewrite H1, (IH H2).
Qed.

Lemma splitWhen_join l :
  sep " "%char = true -> l <> [] ->
  Forall (fun x => forallb (fun c => negb (sep c)) x = true) l ->
  splitWhen sep (join " " l) = l.
Proof.
  intros Hsep Hl H. induction H as [|x l Hx H IH]; [congruence|].
  destruct l as [|y l].
  - simpl. now apply splitWhen_free.
  - change (join " " (x :: y :: l)) with (x ++ " "%char :: join " " (y :: l)).
    rewrite splitWhen_app by assumption. f_equal. apply IH. discriminate.
Qed.

End Splitting.

Lemma splitWhen_canonicalize s1 s2 :
  map canonicalize s1 = map canonicalize s2 ->
  Forall2 (fun p1 p2 => map canonicalize p1 = map canonicalize p2)
          (splitWhen isSpace s1) (splitWhen isSpace s2).
Proof.
  revert s2. induction s1 as [|c s1 IH]; intros [|d s2] H; try discriminate.
  - simpl. now constructor.
  - injection H as H1 H2. simpl.
    rewrite (canonicalize_eq_isSpace _ _ H1).
    specialize (IH _ H2).
    destruct (isSpace d).
    + constructor; [reflexivity|assumption].
    + destruct IH as [|p1 p2 l1 l2 Hp Hl].
      * constructor; [|constructor]. simpl. now rewrite H1.
      * constructor; [|assumption]. simpl. now rewrite H1, Hp.
Qed.

Lemma wsWords_canonicalize s1 s2 w :
  map canonicalize s1 = map canonicalize s2 -> In w (wsWords s1) ->
  exists w0, In w0 (wsWords s2) /\ map canonicalize w = map canonicalize w0.
Proof.
  intros H. apply splitWhen_canonicalize in H. unfold wsWords, filterBoolean.
  induction H as [|p1 p2 l1 l2 Hp Hl IH]; simpl; [tauto|].
  assert (Hne : nonEmpty p1 = nonEmpty p2).
  { destruct p1, p2; simpl in *; congruence. }
  rewrite Hne. destruct (nonEmpty p2); simpl.
  - intros [<-|Hw].
    + exists p2. tauto.
    + destruct (IH Hw) as [w0 [H1 H2]]. exists w0. tauto.
  - intro Hw. destruct (IH Hw) as [w0 [H1 H2]]. exists w0. tauto.
Qed.

Lemma wsWords_join l :
  Forall (fun x => forallb (fun c => negb (isSpace c)) x = true) l ->
  wsWords (join " " l) = filterBoolean l.
Proof.
  intro H. unfold wsWords. destruct l as [|x l]; [reflexivity|].
  rewrite splitWhen_join; auto. discriminate.
Qed.

(** ** Tokens *)

Lemma goodToken_spec t :
  goodToken t = true <->
  t <> [] /\ forallb (fun c => negb (isSpace c)) t = true.
Proof.
  unfold goodToken. rewrite andb_true_iff. destruct t; simpl; split;
    intros [H1 H2]; split; congruence.
Qed.

Lemma tokenizeNamePart_good part : Forall (fun t => goodToken t = true) (tokenizeNamePart part).
Proof.
  unfold tokenizeNamePart, filterBoolean, splitChar.
  apply Forall_forall. intros t Ht. apply filter_In in Ht. destruct Ht as [Ht Hne].
  unfold goodToken. rewrite Hne. simpl. apply forallb_forall. intros c Hc.
  destruct (@In_splitWhen _ _ _ _ Ht Hc) as [H1 H2].
  apply In_trim in H1. apply In_replaceRunsFrom in H1.
  destruct H1 as [[_ H1]|H1]; [now rewrite H1|].
  destruct H1 as [<-|[]]. discriminate H2.
Qed.

(** ** The matcher ignores case *)

Lemma Forall2_flat_map {A B C D : Type} (R : A -> B -> Prop) (R' : C -> D -> Prop)
  (f : A -> list C) (g : B -> list D) l1 l2 :
  Forall2 R l1 l2 ->
  (forall a b, R a b -> Forall2 R' (f a) (g b)) ->
  Forall2 R' (flat_map f l1) (flat_map g l2).
Proof.
  intros H Hfg. induction H as [|a b l1 l2 Hab Hl IH]; simpl; [constructor|].
  apply Forall2_app; auto.
Qed.

Lemma isWordAt_canonicalize p1 p2 :
  option_map canonicalize p1 = option_map canonicalize p2 ->
  isWordAt p1 = isWordAt p2.
Proof.
  destruct p1 as [c|], p2 as [d|]; simpl; intro H; try discriminate;
    [|reflexivity].
  injection H as H. now apply canonicalize_eq_isWord.
Qed.

Lemma atBoundary_canonicalize p1 s1 p2 s2 :
  sameFold (p1, s1) (p2, s2) -> atBoundary p1 s1 = atBoundary p2 s2.
Proof.
  intros [Hp Hs]. simpl in *. unfold atBoundary.
  rewrite (isWordAt_canonicalize _ _ Hp). f_equal.
  apply isWordAt_canonicalize. destruct s1, s2; simpl in *; congruence.
Qed.

Lemma run_canonicalize r : forall p1 s1 p2 s2,
  sameFold (p1, s1) (p2, s2) -> Forall2 sameFold (run r p1 s1) (run r p2 s2).
Proof.
  induction r as [| |c| | | | |r1 IH1 r2 IH2|r1 IH1 r2 IH2]; intros p1 s1 p2 s2 H.
  - constructor.
  - simpl. constructor; [assumption|constructor].
  - destruct H as [Hp Hs]. simpl in *.
    destruct s1 as [|d1 s1], s2 as [|d2 s2]; try discriminate; [constructor|].
    injection Hs as H1 H2. rewrite H1.
    destruct (Ascii.eqb (canonicalize d2) (canonicalize c)); constructor;
      [|constructor].
    split; simpl; congruence.
  - destruct H as [Hp Hs]. simpl in *.
    destruct s1 as [|d1 s1], s2 as [|d2 s2]; try discriminate; [constructor|].
    injection Hs as H1 H2. rewrite (canonicalize_eq_isSpace _ _ H1).
    destruct (isSpace d2); constructor; [|constructor].
    split; simpl; congruence.
  - simpl. rewrite (atBoundary_canonicalize _ _ _ _ H).
    destruct (atBoundary p2 s2); constructor; [assumption|constructor].
  - simpl. destruct H as [Hp Hs]. simpl in *.
    destruct p1, p2; try discriminate; constructor; [|constructor].
    split; assumption.
  - simpl. destruct H as [Hp Hs]. simpl in *.
    destruct s1, s2; try discriminate; constructor; [|constructor].
    split; assumption.
  - simpl. eapply Forall2_flat_map; [apply IH1; exact H|].
    intros [pa sa] [pb sb] Hab. apply IH2. exact Hab.
  - simpl. apply Forall2_app; auto.
Qed.

Lemma matchesAt_canonicalize r p1 s1 p2 s2 :
  sameFold (p1, s1) (p2, s2) -> matchesAt r p1 s1 = matchesAt r p2 s2.
Proof.
  intro H. unfold matchesAt.
  destruct (run_canonicalize r _ _ _ _ H); reflexivity.
Qed.

Lemma anyIndexFrom_canonicalize r s1 : forall p1 p2 s2,
  sameFold (p1, s1) (p2, s2) ->
  anyIndexFrom (matchesAt r) p1 s1 = anyIndexFrom (matchesAt r) p2 s2.
Proof.
  induction s1 as [|c s1 IH]; intros p1 p2 [|d s2] H;
    pose proof H as [Hp Hs]; simpl in Hp, Hs; try discriminate.
  - simpl. f_equal. now apply matchesAt_canonicalize.
  - cbn [anyIndexFrom]. f_equal; [now apply matchesAt_canonicalize|].
    injection Hs as H1 H2. apply IH. split; simpl; congruence.
Qed.

Lemma test_canonicalize r s1 s2 :
  map canonicalize s1 = map canonicalize s2 -> test r s1 = test r s2.
Proof.
  intro H. apply anyIndexFrom_canonicalize. split; [reflexivity|exact H].
Qed.

(** ** Person builder *)

Lemma goodToken_blank t : goodToken t = true -> blank t = false.
Proof.
  intro H. apply goodToken_spec in H. destruct H as [H1 H2].
  destruct t as [|c t]; [congruence|]. simpl in *.
  apply andb_true_iff in H2. destruct H2 as [H2 _].
  apply negb_true_iff in H2. now rewrite H2.
Qed.

Lemma goodToken_nonEmpty t : goodToken t = true -> nonEmpty t = true.
Proof. unfold goodToken. intro H. now apply andb_true_iff in H. Qed.

Lemma goodToken_noSpaceChar t :
  goodToken t = true ->
  forallb (fun c => negb (Ascii.eqb c " ")) t = true.
Proof.
  intro H. apply goodToken_spec in H. destruct H as [_ H].
  rewrite forallb_forall in *. intros c Hc. specialize (H c Hc).
  destruct (Ascii.eqb c " ") eqn:E; [|reflexivity].
  apply Ascii.eqb_eq in E. subst c. discriminate H.
Qed.

Lemma nonEmpty_join sep x l : nonEmpty x = true -> nonEmpty (join sep (x :: l)) = true.
Proof. destruct x; [discriminate|]. intros _. destruct l; reflexivity. Qed.

Lemma blank_join sep x l : blank x = false -> blank (join sep (x :: l)) = false.
Proof.
  intro H. destruct l; simpl; [assumption|].
  rewrite blank_app, H. reflexivity.
Qed.

Lemma goodMiddle_stripSuffixes l :
  l <> [] -> Forall (fun t => goodToken t = true) l ->
  goodMiddle (middleNameOf (stripSuffixes (Some (join " " l)))) = true.
Proof.
  intros Hl H. unfold stripSuffixes.
  destruct l as [|x l]; [congruence|].
  assert (Hne : truthy (Some (join " " (x :: l))) = true).
  { cbn [truthy]. apply nonEmpty_join, goodToken_nonEmpty. now inversion H. }
  rewrite Hne. cbn [orEmpty]. unfold splitChar.
  rewrite splitWhen_join; [|reflexivity|discriminate|].
  2: { eapply Forall_impl; [|exact H]. apply goodToken_noSpaceChar. }
  set (mids := filter (fun t => negb (test SUFFIXES_IGNORE t)) (x :: l)).
  assert (Hmids : Forall (fun t => goodToken t = true) mids).
  { apply Forall_forall. intros t Ht. apply filter_In in Ht.
    rewrite Forall_forall in H. apply H. tauto. }
  destruct mids as [|m ms] eqn:Em; [reflexivity|].
  assert (Hm : goodToken m = true) by now inversion Hmids.
  unfold orNull. cbn [truthy].
  rewrite (@nonEmpty_join " " m ms (@goodToken_nonEmpty _ Hm)).
  unfold middleNameOf. cbn [truthy orEmpty].
  rewrite (@nonEmpty_join " " m ms (@goodToken_nonEmpty _ Hm)).
  cbn [goodMiddle]. rewrite blank_titleCase.
  rewrite (@blank_join " " m ms (goodToken_blank _ Hm)). cbn [negb andb].
  unfold noSuffixWord. apply forallb_forall. intros w Hw.
  destruct (@wsWords_canonicalize _ (join " " (m :: ms)) w
              (titleCaseFrom_canonicalize false _) Hw) as [w0 [H1 H2]].
  rewrite (@test_canonicalize SUFFIXES_IGNORE _ _ H2).
  rewrite wsWords_join in H1.
  2: { eapply Forall_impl; [|exact Hmids]. intros t Ht.
       apply goodToken_spec in Ht. tauto. }
  apply filter_In in H1. destruct H1 as [H1 _].
  rewrite <- Em in H1. apply filter_In in H1. tauto.
Qed.

Lemma orNull_Some t : nonEmpty t = true -> orNull (Some t) = Some t.
Proof. intro H. unfold orNull. simpl. now rewrite H. Qed.

Lemma buildPersonFromTokens_some tokens fallbackLastName :
  2 <= length tokens ->
  exists first last middle,
    buildPersonFromTokens tokens fallbackLastName = Some (person first last middle).
Proof.
  intro H. unfold buildPersonFromTokens.
  destruct tokens as [|t0 [|t1 rest]]; simpl in H; try lia.
  cbn [length Nat.eqb].
  destruct (surnameOmitted (t0 :: t1 :: rest) fallbackLastName);
    eexists; eexists; eexists; reflexivity.
Qed.

Lemma buildPersonFromTokens_none tokens fallbackLastName :
  length tokens < 2 -> buildPersonFromTokens tokens fallbackLastName = None.
Proof.
  intro H. destruct tokens as [|t0 [|t1 rest]]; simpl in H; try lia; reflexivity.
Qed.

Lemma buildPersonFromTokens_good tokens fallbackLastName o :
  Forall (fun t => goodToken t = true) tokens ->
  buildPersonFromTokens tokens fallbackLastName = Some o ->
  goodOwner o = true.
Proof.
  intros H Hb. unfold buildPersonFromTokens in Hb.
  destruct tokens as [|t0 [|t1 rest]]; try discriminate.
  cbn [length Nat.eqb] in Hb.
  inversion H as [|? ? G0 H']. inversion H' as [|? ? G1 Hrest]. subst.
  pose proof (@goodToken_nonEmpty _ G0) as N0.
  pose proof (@goodToken_nonEmpty _ G1) as N1.
  destruct (surnameOmitted (t0 :: t1 :: rest) fallbackLastName).
  - injection Hb as <-. cbn [nth_error].
    rewrite (orNull_Some _ N1). cbn [orEmpty goodOwner].
    rewrite blank_titleCase, (@goodToken_blank _ G0). cbn [negb andb].
    apply (goodMiddle_stripSuffixes [t1]); [discriminate|].
    now constructor.
  - injection Hb as <-. cbn [nth_error].
    rewrite !(orNull_Some _ N1). cbn [orEmpty goodOwner].
    rewrite blank_titleCase, (@goodToken_blank _ G1). cbn [negb andb skipn].
    destruct rest as [|t2 rest]; [reflexivity|].
    cbn [length Nat.ltb Nat.leb].
    apply goodMiddle_stripSuffixes; [discriminate|assumption].
Qed.

(** ** Shared-surname splitter *)

Lemma pushIf_good p acc :
  (forall o, p = Some o -> goodOwner o = true) ->
  Forall (fun o => goodOwner o = true) acc ->
  Forall (fun o => goodOwner o = true) (pushIf p acc).
Proof.
  intros Hp Hacc. destruct p as [o|]; simpl; [|assumption].
  apply Forall_app. split; [assumption|]. constructor; [now apply Hp|constructor].
Qed.

Lemma splitLoop_two lastTok first mid rem2 acc :
  splitLoop lastTok (first :: mid :: rem2) acc =
  if truthy (orNull (Some mid))
  then splitLoop lastTok rem2
         (pushIf (buildPersonFromTokens [lastTok; first; mid] None) acc)
  else splitLoop lastTok (mid :: rem2)
         (pushIf (buildPersonFromTokens [lastTok; first] None) acc).
Proof. reflexivity. Qed.

Lemma splitLoop_good_bounded lastTok n : forall rem acc,
  length rem <= n ->
  goodToken lastTok = true ->
  Forall (fun t => goodToken t = true) rem ->
  Forall (fun o => goodOwner o = true) acc ->
  Forall (fun o => goodOwner o = true) (splitLoop lastTok rem acc).
Proof.
  induction n as [|n IH]; intros rem acc Hn Hl Hrem Hacc.
  - destruct rem; [exact Hacc|simpl in Hn; lia].
  - destruct rem as [|first [|mid rem2]].
    + exact Hacc.
    + inversion Hrem; subst. cbn [splitLoop]. apply pushIf_good; [|assumption].
      intros o Ho. eapply buildPersonFromTokens_good; [|exact Ho].
      repeat (constructor; try assumption).
    + inversion Hrem as [|? ? Hf Hrem1]; subst.
      inversion Hrem1 as [|? ? Hm Hrem2]; subst.
      rewrite splitLoop_two. simpl in Hn.
      destruct (truthy (orNull (Some mid))).
      * apply IH; [lia|assumption|assumption|].
        apply pushIf_good; [|assumption].
        intros o Ho. eapply buildPersonFromTokens_good; [|exact Ho].
        repeat (constructor; try assumption).
      * apply IH; [simpl; lia|assumption|assumption|].
        apply pushIf_good; [|assumption].
        intros o Ho. eapply buildPersonFromTokens_good; [|exact Ho].
        repeat (constructor; try assumption).
Qed.

Lemma splitLoop_good lastTok rem acc :
  goodToken lastTok = true ->
  Forall (fun t => goodToken t = true) rem ->
  Forall (fun o => goodOwner o = true) acc ->
  Forall (fun o => goodOwner o = true) (splitLoop lastTok rem acc).
Proof. apply (@splitLoop_good_bounded lastTok (length rem)). lia. Qed.

Lemma splitMultiplePersonsWithSharedLast_good tokens :
  Forall (fun t => goodToken t = true) tokens ->
  Forall (fun o => goodOwner o = true) (splitMultiplePersonsWithSharedLast tokens).
Proof.
  intro H. unfold splitMultiplePersonsWithSharedLast.
  destruct (length tokens <? 4); [constructor|].
  destruct tokens as [|lastTok rem]; [constructor|].
  inversion H; subst. apply splitLoop_good; auto.
Qed.

(** ** Keys and deduplication *)

Lemma blank_nonEmpty s : blank s = false -> nonEmpty s = true.
Proof. destruct s; [discriminate|reflexivity]. Qed.

Lemma normalizeOwnerKey_nonEmpty o :
  goodOwner o = true -> nonEmpty (normalizeOwnerKey o) = true.
Proof.
  destruct o as [f l m|n]; simpl; intro H.
  - apply andb_true_iff in H. destruct H as [H _].
    apply negb_true_iff in H.
    cbn [orEmpty].
    assert (Hf : blank (toLowerCase f) = false) by now rewrite blank_toLowerCase.
    unfold filterBoolean. cbn [filter]. rewrite (blank_nonEmpty _ Hf).
    apply nonEmpty_trim. now apply blank_join.
  - apply negb_true_iff in H. apply cleanText_nonblank in H.
    destruct (cleanText (Some n)); [discriminate|reflexivity].
Qed.

Lemma nullifyEmptyMiddle_good o : goodOwner o = true -> nullifyEmptyMiddle o = o.
Proof.
  destruct o as [f l [x|]|n]; simpl; intro H; try reflexivity.
  apply andb_true_iff in H. destruct H as [_ H].
  apply andb_true_iff in H. destruct H as [H _]. apply negb_true_iff in H.
  now rewrite (blank_nonEmpty _ H), (nonEmpty_trim _ H).
Qed.

Lemma filter_filter {A : Type} (p q : A -> bool) (l : list A) :
  filter p (filter q l) = filter (fun x => q x && p x) l.
Proof.
  induction l as [|x l IH]; simpl; [reflexivity|].
  destruct (q x); simpl; [destruct (p x)|]; now rewrite IH.
Qed.

Lemma dedupFrom_keepFirsts os : forall seen,
  Forall (fun o => goodOwner o = true) os ->
  dedupFrom seen os =
  filter (fun x => negb (existsb (streq (normalizeOwnerKey x)) seen)) (keepFirsts os).
Proof.
  induction os as [|o os IH]; intros seen H; [reflexivity|].
  inversion H as [|? ? Ho Hos]; subst. cbn [dedupFrom keepFirsts filter].
  rewrite (normalizeOwnerKey_nonEmpty _ Ho). cbn [negb orb].
  rewrite filter_filter.
  destruct (existsb (streq (normalizeOwnerKey o)) seen) eqn:E; cbn [negb].
  - rewrite (IH seen Hos). apply filter_ext. intro x.
    destruct (streq (normalizeOwnerKey x) (normalizeOwnerKey o)) eqn:Ex;
      [|reflexivity].
    apply streq_eq in Ex. rewrite Ex, E. reflexivity.
  - rewrite (nullifyEmptyMiddle_good _ Ho), (IH _ Hos). f_equal.
    apply filter_ext. intro x. cbn [existsb].
    now rewrite negb_orb.
Qed.

Lemma dedup_keepFirsts os :
  Forall (fun o => goodOwner o = true) os -> dedup os = keepFirsts os.
Proof.
  intro H. unfold dedup. rewrite (dedupFrom_keepFirsts os [] H).
  cbn [existsb negb]. induction (keepFirsts os) as [|x l IH]; simpl; congruence.
Qed.

Lemma In_keepFirsts os o : In o (keepFirsts os) -> In o os.
Proof.
  revert o. induction os as [|x os IH]; simpl; intros o H; [exact H|].
  destruct H as [H|H]; [now left|]. apply filter_In in H. right. apply IH. tauto.
Qed.

Lemma keepFirsts_NoDup os : NoDup (map normalizeOwnerKey (keepFirsts os)).
Proof.
  induction os as [|o os IH]; simpl; constructor.
  - intro H. apply in_map_iff in H. destruct H as [x [H1 H2]].
    apply filter_In in H2. destruct H2 as [_ H2].
    rewrite H1, streq_refl in H2. discriminate.
  - revert IH. generalize (keepFirsts os). intros l Hl.
    induction l as [|x l IHl]; simpl; [constructor|].
    inversion Hl as [|? ? Hx Hl']; subst.
    destruct (streq (normalizeOwnerKey x) (normalizeOwnerKey o)); simpl; auto.
    constructor; auto. intro H. apply Hx. apply in_map_iff in H.
    destruct H as [y [H1 H2]]. apply filter_In in H2.
    apply in_map_iff. exists y. tauto.
Qed.

Lemma subsequence_filter {A : Type} (p : A -> bool) (l1 l2 : list A) :
  subsequence l1 l2 -> subsequence (filter p l1) l2.
Proof.
  intro H. induction H as [|x l1 l2 H IH|x l1 l2 H IH]; simpl.
  - constructor.
  - now constructor.
  - destruct (p x); now constructor.
Qed.

Lemma keepFirsts_subsequence os : subsequence (keepFirsts os) os.
Proof.
  induction os as [|o os IH]; simpl; [constructor|].
  apply subsequence_keep. now apply subsequence_filter.
Qed.

Lemma keepFirsts_first os : forall pre o post,
  os = pre ++ o :: post ->
  (forall x, In x pre -> normalizeOwnerKey x <> normalizeOwnerKey o) ->
  In o (keepFirsts os).
Proof.
  induction os as [|y os IH]; intros pre o post E Hpre.
  - destruct pre; discriminate.
  - destruct pre as [|z pre]; simpl in E; injection E as -> ->.
    + now left.
    + simpl. right. apply filter_In. split.
      * apply (IH pre o post eq_refl). intros x Hx. apply Hpre. now right.
      * apply negb_true_iff. destruct (streq _ _) eqn:Es; [|reflexivity].
        apply streq_eq in Es. exfalso. apply (Hpre z); [now left|]. now symmetry.
Qed.

Lemma keepFirsts_covers os o :
  In o os -> In (normalizeOwnerKey o) (map normalizeOwnerKey (keepFirsts os)).
Proof.
  induction os as [|y os IH]; simpl; [tauto|].
  intros [->|H]; [now left|].
  destruct (streq (normalizeOwnerKey o) (normalizeOwnerKey y)) eqn:E.
  - apply streq_eq in E. left. now symmetry.
  - right. specialize (IH H). apply in_map_iff in IH.
    destruct IH as [x [H1 H2]]. apply in_map_iff. exists x. split; [assumption|].
    apply filter_In. split; [assumption|]. now rewrite H1, E.
Qed.

(** ** The orchestrator *)

Lemma blindSplitGuard_false tokens fallbackLastName :
  blindSplitGuard (buildPersonFromTokens tokens fallbackLastName) tokens = false.
Proof.
  unfold blindSplitGuard.
  destruct (buildPersonFromTokens tokens fallbackLastName) eqn:E; [reflexivity|].
  apply Nat.leb_gt.
  destruct (Nat.lt_ge_cases (length tokens) 2) as [H|H]; [lia|].
  destruct (buildPersonFromTokens_some tokens fallbackLastName H) as [f [l [m Hb]]].
  congruence.
Qed.

Lemma forEachFrom_pushOwner l : forall idx e,
  forEachFrom (fun p (_ : nat) => pushOwner p) idx l e =
  Normal (tt, mkEnv (owners e ++ l) (invalids e) (lastSurname e) (localLastSurname e)).
Proof.
  induction l as [|o l IH]; intros idx e.
  - simpl. unfold ret. rewrite app_nil_r. now destruct e.
  - cbn [forEachFrom]. unfold bind. cbn [pushOwner]. rewrite IH. simpl.
    now rewrite <- app_assoc.
Qed.

Lemma pushPersonOrInvalid_spec person part e :
  exists e',
    pushPersonOrInvalid person part e = Normal (tt, e') /\
    owners e' = pushIf person (owners e) /\
    invalids e' = invalids e ++
                  match person with Some _ => [] | None => [mkInvalid part ambiguous] end.
Proof.
  unfold pushPersonOrInvalid. destruct person as [p|].
  - unfold bind, pushOwner, when. destruct (nonEmpty (lastNameOf p)); simpl;
      eexists; (split; [reflexivity|]); simpl; now rewrite app_nil_r.
  - eexists; split; [reflexivity|]. simpl. tauto.
Qed.

Lemma buildPart_spec tokens part idx e :
  tokens <> [] ->
  exists e' fallbackLastName,
    buildPart tokens part idx e = Normal (tt, e') /\
    owners e' = pushIf (buildPersonFromTokens tokens fallbackLastName) (owners e) /\
    invalids e' = invalids e ++
                  (if length tokens =? 1 then [mkInvalid part ambiguous] else []).
Proof.
  intro Hne. unfold buildPart.
  set (e1 := if idx =? 0
             then mkEnv (owners e) (invalids e) (lastSurname e) (nth_error tokens 0)
             else e).
  assert (H1 : when (idx =? 0) (setLocalLastSurname (nth_error tokens 0)) e =
               Normal (tt, e1)).
  { unfold when, e1. destruct (idx =? 0); reflexivity. }
  assert (Ho : owners e1 = owners e) by (unfold e1; now destruct (idx =? 0)).
  assert (Hi : invalids e1 = invalids e) by (unfold e1; now destruct (idx =? 0)).
  unfold bind at 1. rewrite H1.
  unfold bind at 1. cbn [getLocalLastSurname].
  unfold bind at 1. cbn [getLastSurname].
  set (fb := if 0 <? idx then orElse (localLastSurname e1) (lastSurname e1) else None).
  rewrite blindSplitGuard_false.
  destruct (pushPersonOrInvalid_spec (buildPersonFromTokens tokens fb) part e1)
    as [e' [Hr [Hown Hinv]]].
  exists e', fb. split; [exact Hr|]. rewrite Hown, Hinv, Ho, Hi.
  split; [reflexivity|]. f_equal.
  destruct tokens as [|t0 [|t1 rest]]; [congruence|reflexivity|].
  destruct (buildPersonFromTokens_some (t0 :: t1 :: rest) fb) as [f [l [m Hb]]];
    [simpl; lia|].
  now rewrite Hb.
Qed.

Lemma andPartCallback_spec andPartsLength part idx e :
  exists e',
    andPartCallback andPartsLength part idx e = Normal (tt, e') /\
    (Forall (fun o => goodOwner o = true) (owners e) ->
     Forall (fun o => goodOwner o = true) (owners e')) /\
    invalids e' = invalids e ++
                  (if length (tokenizeNamePart part) =? 1
                   then [mkInvalid part ambiguous] else []).
Proof.
  unfold andPartCallback.
  pose proof (tokenizeNamePart_good part) as Hgood.
  set (tokens := tokenizeNamePart part) in *.
  destruct (length tokens =? 0) eqn:E0.
  { exists e. split; [reflexivity|]. split; [auto|].
    apply Nat.eqb_eq in E0. rewrite E0. simpl. now rewrite app_nil_r. }
  assert (Hne : tokens <> []).
  { intro H. rewrite H in E0. discriminate. }
  assert (Hbuild : exists e',
    buildPart tokens part idx e = Normal (tt, e') /\
    (Forall (fun o => goodOwner o = true) (owners e) ->
     Forall (fun o => goodOwner o = true) (owners e')) /\
    invalids e' = invalids e ++
                  (if length tokens =? 1 then [mkInvalid part ambiguous] else [])).
  { destruct (buildPart_spec tokens part idx e Hne) as [e' [fb [Hr [Hown Hinv]]]].
    exists e'. split; [exact Hr|]. split; [|exact Hinv].
    intro H. rewrite Hown. apply pushIf_good; [|exact H].
    intros o Ho. eapply buildPersonFromTokens_good; eauto. }
  destruct ((andPartsLength =? 1) && (4 <=? length tokens)) eqn:E1;
    [|exact Hbuild].
  destruct (2 <=? length (splitMultiplePersonsWithSharedLast tokens)) eqn:E2;
    [|exact Hbuild].
  apply andb_true_iff in E1. destruct E1 as [_ E1]. apply Nat.leb_le in E1.
  unfold forEach, bind. rewrite forEachFrom_pushOwner.
  destruct tokens as [|t0 rest] eqn:Et; [congruence|].
  cbn [nth_error callToUpperCase ret setLastSurname owners invalids].
  eexists. split; [reflexivity|]. cbn [owners invalids]. split.
  - intro H. apply Forall_app. split; [exact H|].
    now apply splitMultiplePersonsWithSharedLast_good.
  - destruct rest as [|t1 rest']; [simpl in E1; lia|].
    simpl. now rewrite app_nil_r.
Qed.

(** ** The company pattern *)

Lemma lastOr_cons p d t : lastOr p (d :: t) = lastOr (Some d) t.
Proof.
  unfold lastOr. simpl. destruct (rev t) as [|x r] eqn:E; reflexivity.
Qed.

Lemma run_lit w : forall p s,
  run (lit w) p s =
  if prefixCI w s
  then [(lastOr p (firstn (length w) s), skipn (length w) s)]
  else [].
Proof.
  induction w as [|c w IH]; intros p s; [reflexivity|].
  destruct w as [|c' w'].
  - destruct s as [|d s]; [reflexivity|]. simpl.
    rewrite andb_true_r.
    destruct (Ascii.eqb (canonicalize d) (canonicalize c)); reflexivity.
  - change (lit (c :: c' :: w')) with (Seq (Chr c) (lit (c' :: w'))).
    destruct s as [|d s]; [reflexivity|].
    cbn [run prefixCI].
    destruct (Ascii.eqb (canonicalize d) (canonicalize c)); [|reflexivity].
    cbn [flat_map fst snd andb]. rewrite IH, app_nil_r.
    change (length (c :: c' :: w')) with (S (length (c' :: w'))).
    cbn [firstn skipn]. now rewrite lastOr_cons.
Qed.

Lemma In_run_alts rs p s x :
  In x (run (alts rs) p s) <-> exists r, In r rs /\ In x (run r p s).
Proof.
  induction rs as [|r rs IH].
  - simpl. split; [tauto|]. intros [r [[] _]].
  - destruct rs as [|r' rs'].
    + simpl. split; [intro H; exists r; tauto|].
      intros [r0 [[<-|[]] H]]. exact H.
    + change (alts (r :: r' :: rs')) with (Alt r (alts (r' :: rs'))).
      cbn [run]. rewrite in_app_iff, IH. split.
      * intros [H|[r0 [H1 H2]]]; [exists r|exists r0]; simpl in *; tauto.
      * intros [r0 [[<-|H1] H2]]; [now left|]. right. exists r0. tauto.
Qed.

Lemma matchesAt_true r p s : matchesAt r p s = true <-> exists x, In x (run r p s).
Proof.
  unfold matchesAt. destruct (run r p s) as [|x l]; split.
  - discriminate.
  - intros [x []].
  - intros _. exists x. now left.
  - reflexivity.
Qed.

Lemma In_run_Seq r1 r2 p s x :
  In x (run (Seq r1 r2) p s) <->
  exists y, In y (run r1 p s) /\ In x (run r2 (fst y) (snd y)).
Proof. simpl. apply in_flat_map. Qed.

(** The alternation that opens and closes the pattern, [(\b|\s)]. *)
Lemma In_run_edge p s x :
  In x (run (Alt Bnd Space) p s) <->
  (atBoundary p s = true /\ x = (p, s)) \/
  (exists c s', s = c :: s' /\ isSpace c = true /\ x = (Some c, s')).
Proof.
  simpl. rewrite in_app_iff. split.
  - intros [H|H].
    + left. destruct (atBoundary p s); [|destruct H].
      destruct H as [<-|[]]. tauto.
    + right. destruct s as [|c s']; [destruct H|].
      destruct (isSpace c) eqn:E; [|destruct H].
      destruct H as [<-|[]]. exists c, s'. tauto.
  - intros [[H ->]|[c [s' [-> [H ->]]]]].
    + left. rewrite H. now left.
    + right. rewrite H. now left.
Qed.

Lemma prefixCI_wordy_last w : forall p s,
  wordy w = true -> prefixCI w s = true ->
  isWordAt (lastOr p (firstn (length w) s)) = true.
Proof.
  unfold wordy. induction w as [|c w IH]; intros p s Hw H; [discriminate|].
  destruct s as [|d s]; [discriminate|].
  simpl in Hw, H. apply andb_true_iff in Hw, H.
  destruct Hw as [Hc Hw], H as [Hd H]. apply Ascii.eqb_eq in Hd.
  cbn [length firstn]. rewrite lastOr_cons.
  destruct w as [|c' w'].
  - simpl. now rewrite (canonicalize_eq_isWord _ _ Hd).
  - apply IH; [|exact H]. exact Hw.
Qed.

Lemma companyAlternatives_shape :
  Forall2 keywordShape companyAlternatives companyWords.
Proof. unfold companyAlternatives, companyWords. repeat constructor. Qed.

Lemma Forall2_In_l {A B : Type} (R : A -> B -> Prop) l1 l2 a :
  Forall2 R l1 l2 -> In a l1 -> exists b, In b l2 /\ R a b.
Proof.
  intro H. induction H as [|x y l1 l2 Hxy Hl IH]; simpl; [tauto|].
  intros [<-|Ha]; [exists y; tauto|].
  destruct (IH Ha) as [b [H1 H2]]. exists b. tauto.
Qed.

Lemma Forall2_In_r {A B : Type} (R : A -> B -> Prop) l1 l2 b :
  Forall2 R l1 l2 -> In b l2 -> exists a, In a l1 /\ R a b.
Proof.
  intro H. induction H as [|x y l1 l2 Hxy Hl IH]; simpl; [tauto|].
  intros [<-|Hb]; [exists x; tauto|].
  destruct (IH Hb) as [a [H1 H2]]. exists a. tauto.
Qed.

Lemma existsb_streq w l : existsb (streq w) l = true <-> In w l.
Proof.
  rewrite existsb_exists. split.
  - intros [x [H1 H2]]. apply streq_eq in H2. now subst.
  - intro H. exists w. split; [assumption|apply streq_refl].
Qed.

Lemma companyWords_kinds w :
  In w companyWords ->
  (In w letterIndicators /\ wordy w = true) \/ In w dottedIndicators.
Proof.
  intro H.
  assert (F : forallb (fun w => (existsb (streq w) letterIndicators && wordy w)
                                || existsb (streq w) dottedIndicators)
                      companyWords = true) by reflexivity.
  rewrite forallb_forall in F. specialize (F w H).
  apply orb_true_iff in F. destruct F as [F|F].
  - apply andb_true_iff in F. destruct F as [F1 F2].
    left. split; [now apply existsb_streq|assumption].
  - right. now apply existsb_streq.
Qed.

Lemma letterIndicators_companyWords w :
  In w letterIndicators -> In w companyWords /\ wordy w = true.
Proof.
  intro H.
  assert (F : forallb (fun w => existsb (streq w) companyWords && wordy w)
                      letterIndicators = true) by reflexivity.
  rewrite forallb_forall in F. specialize (F w H).
  apply andb_true_iff in F. destruct F as [F1 F2].
  split; [now apply existsb_streq|assumption].
Qed.

Lemma dottedIndicators_companyAlternatives w :
  In w dottedIndicators -> In (lit w) companyAlternatives.
Proof.
  intros [<-|[<-|[]]]; unfold companyAlternatives; simpl; tauto.
Qed.

(** What a match of one alternative says about the input. *)
Lemma keywordShape_match r w p s z :
  keywordShape r w -> In z (run r p s) ->
  prefixCI w s = true /\
  (wordy w = true ->
   forall x, In x (run (Alt Bnd Space) (fst z) (snd z)) ->
   isWordAt (hd_error (skipn (length w) s)) = false).
Proof.
  intros Hshape Hz.
  assert (Hedge : forall t,
    wordy w = true -> prefixCI w s = true ->
    forall x, In x (run (Alt Bnd Space)
                        (lastOr p (firstn (length w) s)) t) ->
    isWordAt (hd_error t) = false).
  { intros t Hw Hp x Hx. apply In_run_edge in Hx.
    destruct Hx as [[Hb _]|[c [s' [-> [Hc _]]]]].
    - unfold atBoundary in Hb. rewrite (prefixCI_wordy_last w p s Hw Hp) in Hb.
      simpl in Hb. now apply negb_true_iff in Hb.
    - simpl. now apply isSpace_not_isWord. }
  destruct Hshape as [w|w|w].
  - rewrite run_lit in Hz. destruct (prefixCI w s) eqn:E; [|destruct Hz].
    destruct Hz as [<-|[]]. split; [reflexivity|]. intros Hw x Hx.
    now apply (Hedge _ Hw eq_refl x).
  - apply In_run_Seq in Hz. destruct Hz as [y [Hy Hz]].
    rewrite run_lit in Hy. destruct (prefixCI w s) eqn:E; [|destruct Hy].
    destruct Hy as [<-|[]]. split; [reflexivity|]. intros Hw x Hx.
    cbn [fst snd] in Hz. unfold opt in Hz. cbn [run] in Hz.
    apply in_app_or in Hz. destruct Hz as [Hz|Hz].
    + destruct (skipn (length w) s) as [|d t]; [destruct Hz|].
      destruct (Ascii.eqb (canonicalize d) (canonicalize ".")) eqn:Ed;
        [|destruct Hz].
      apply Ascii.eqb_eq in Ed. simpl.
      now rewrite (canonicalize_eq_isWord _ _ Ed).
    + destruct Hz as [<-|[]]. now apply (Hedge _ Hw eq_refl x).
  - apply In_run_Seq in Hz. destruct Hz as [y [Hy Hz]].
    rewrite run_lit in Hy. destruct (prefixCI w s) eqn:E; [|destruct Hy].
    destruct Hy as [<-|[]]. split; [reflexivity|]. intros Hw x Hx.
    cbn [fst snd run] in Hz.
    destruct (atBoundary (lastOr p (firstn (length w) s)) (skipn (length w) s));
      [|destruct Hz].
    destruct Hz as [<-|[]]. now apply (Hedge _ Hw eq_refl x).
Qed.

(** A word standing alone is matched by its alternative and the closing
    [(\b|\s)]. *)
Lemma keywordShape_word r w p s :
  keywordShape r w -> wordy w = true -> prefixCI w s = true ->
  isWordAt (hd_error (skipn (length w) s)) = false ->
  exists z x, In z (run r p s) /\ In x (run (Alt Bnd Space) (fst z) (snd z)).
Proof.
  intros Hshape Hw Hp Hnext.
  assert (Hb : atBoundary (lastOr p (firstn (length w) s)) (skipn (length w) s)
               = true).
  { unfold atBoundary. now rewrite (prefixCI_wordy_last w p s Hw Hp), Hnext. }
  exists (lastOr p (firstn (length w) s), skipn (length w) s).
  exists (lastOr p (firstn (length w) s), skipn (length w) s).
  split.
  - destruct Hshape as [w|w|w].
    + rewrite run_lit, Hp. now left.
    + apply In_run_Seq. eexists. split; [rewrite run_lit, Hp; now left|].
      unfold opt. cbn [run fst snd]. apply in_or_app. right. now left.
    + apply In_run_Seq. eexists. split; [rewrite run_lit, Hp; now left|].
      cbn [run fst snd]. rewrite Hb. now left.
  - apply In_run_edge. left. split; [exact Hb|reflexivity].
Qed.

Lemma prefixCI_head w s :
  startsWordy w = true -> prefixCI w s = true -> isWordAt (hd_error s) = true.
Proof.
  destruct w as [|c w]; [discriminate|]. simpl.
  destruct s as [|d s]; [discriminate|]. simpl.
  intros Hc H. apply andb_true_iff in H. destruct H as [H _].
  apply Ascii.eqb_eq in H. now rewrite (canonicalize_eq_isWord _ _ H).
Qed.

Lemma companyWords_startsWordy w : In w companyWords -> startsWordy w = true.
Proof.
  intro H.
  assert (F : forallb startsWordy companyWords = true) by reflexivity.
  rewrite forallb_forall in F. now apply F.
Qed.

Lemma In_run_COMPANY_KEYWORDS p s x :
  In x (run COMPANY_KEYWORDS p s) <->
  exists y r z,
    In y (run (Alt Bnd Space) p s) /\
    In r companyAlternatives /\ In z (run r (fst y) (snd y)) /\
    In x (run (Alt Bnd Space) (fst z) (snd z)).
Proof.
  unfold COMPANY_KEYWORDS. rewrite In_run_Seq. split.
  - intros [y [Hy Hx]]. apply In_run_Seq in Hx. destruct Hx as [z [Hz Hx]].
    apply In_run_alts in Hz. destruct Hz as [r [Hr Hz]].
    exists y, r, z. tauto.
  - intros [y [r [z [Hy [Hr [Hz Hx]]]]]]. exists y. split; [exact Hy|].
    apply In_run_Seq. exists z. split; [|exact Hx].
    apply In_run_alts. exists r. tauto.
Qed.

(** A match of the pattern at an index puts a keyword at that index, or at
    the next one when the opening [\s] took a character. *)
Lemma COMPANY_KEYWORDS_keywordHere p s :
  matchesAt COMPANY_KEYWORDS p s = true ->
  keywordHere p s = true \/
  exists c s', s = c :: s' /\ keywordHere (Some c) s' = true.
Proof.
  intro H. apply matchesAt_true in H. destruct H as [x Hx].
  apply In_run_COMPANY_KEYWORDS in Hx.
  destruct Hx as [y [r [z [Hy [Hr [Hz Hx]]]]]].
  destruct (Forall2_In_l _ _ _ r companyAlternatives_shape Hr) as [w [Hw Hshape]].
  destruct (keywordShape_match _ _ _ _ _ Hshape Hz) as [Hpre Hnext].
  assert (Hkey : isWordAt (fst y) = false -> keywordHere (fst y) (snd y) = true).
  { intro Hprev. unfold keywordHere. apply orb_true_iff.
    destruct (companyWords_kinds w Hw) as [[Hl Hwordy]|Hd].
    - left. apply existsb_exists. exists w. split; [exact Hl|].
      unfold wordAt. now rewrite Hprev, Hpre, (Hnext Hwordy x Hx).
    - right. apply existsb_exists. exists w. split; [exact Hd|].
      unfold afterNonWord. now rewrite Hprev, Hpre. }
  apply In_run_edge in Hy. destruct Hy as [[Hb ->]|[c [s' [-> [Hc ->]]]]].
  - left. apply Hkey. cbn [fst snd] in *. unfold atBoundary in Hb.
    rewrite (prefixCI_head w s (companyWords_startsWordy w Hw) Hpre) in Hb.
    destruct (isWordAt p); [discriminate|reflexivity].
  - right. exists c, s'. split; [reflexivity|]. apply Hkey.
    simpl. now apply isSpace_not_isWord.
Qed.

Lemma wordAt_COMPANY_KEYWORDS w p s :
  In w letterIndicators -> wordAt w p s = true ->
  matchesAt COMPANY_KEYWORDS p s = true.
Proof.
  intros Hw H. unfold wordAt in H.
  apply andb_true_iff in H. destruct H as [H Hnext].
  apply andb_true_iff in H. destruct H as [Hprev Hpre].
  apply negb_true_iff in Hprev, Hnext.
  destruct (letterIndicators_companyWords w Hw) as [Hcw Hwordy].
  destruct (Forall2_In_r _ _ _ w companyAlternatives_shape Hcw) as [r [Hr Hshape]].
  destruct (keywordShape_word r w p s Hshape Hwordy Hpre Hnext) as [z [x [Hz Hx]]].
  apply matchesAt_true. exists x. apply In_run_COMPANY_KEYWORDS.
  exists (p, s), r, z. split; [|tauto].
  apply In_run_edge. left. split; [|reflexivity]. unfold atBoundary.
  now rewrite Hprev, (prefixCI_head w s (companyWords_startsWordy w Hcw) Hpre).
Qed.

Lemma spacedAt_COMPANY_KEYWORDS w p s :
  In w dottedIndicators -> spacedAt w p s = true ->
  matchesAt COMPANY_KEYWORDS p s = true.
Proof.
  intros Hw H. unfold spacedAt in H.
  apply andb_true_iff in H. destruct H as [H Hnext].
  apply andb_true_iff in H. destruct H as [Hprev Hpre].
  apply negb_true_iff in Hprev.
  assert (Hcw : In w companyWords).
  { destruct Hw as [<-|[<-|[]]]; unfold companyWords; simpl; tauto. }
  destruct (skipn (length w) s) as [|c t] eqn:Et; [discriminate|].
  simpl in Hnext.
  apply matchesAt_true. exists (Some c, t). apply In_run_COMPANY_KEYWORDS.
  exists (p, s), (lit w), (lastOr p (firstn (length w) s), skipn (length w) s).
  split; [|split; [|split]].
  - apply In_run_edge. left. split; [|reflexivity]. unfold atBoundary.
    now rewrite Hprev, (prefixCI_head w s (companyWords_startsWordy w Hcw) Hpre).
  - now apply dottedIndicators_companyAlternatives.
  - cbn [fst snd]. rewrite run_lit, Hpre. now left.
  - cbn [fst snd]. apply In_run_edge. right. exists c, t. tauto.
Qed.

(** From one index to some index. *)

Section SomeIndex.

Variables P Q : option ascii -> jsstring -> bool.

Lemma anyIndexFrom_impl s : forall p,
  (forall p s, P p s = true -> Q p s = true) ->
  anyIndexFrom P p s = true -> anyIndexFrom Q p s = true.
Proof.
  induction s as [|c s IH]; intros p HPQ H; simpl in *.
  - rewrite orb_false_r in *. auto.
  - apply orb_true_iff in H. apply orb_true_iff. destruct H as [H|H]; auto.
Qed.

Lemma anyIndexFrom_shift s : forall p,
  (forall p s, P p s = true ->
     Q p s = true \/ exists c s', s = c :: s' /\ Q (Some c) s' = true) ->
  anyIndexFrom P p s = true -> anyIndexFrom Q p s = true.
Proof.
  induction s as [|c s IH]; intros p HPQ H.
  - simpl in *. rewrite orb_false_r in *.
    destruct (HPQ _ _ H) as [HQ|[c [s' [E _]]]]; [exact HQ|discriminate].
  - cbn [anyIndexFrom] in *. apply orb_true_iff in H. apply orb_true_iff.
    destruct H as [H|H]; [|right; now apply IH].
    destruct (HPQ _ _ H) as [HQ|[c' [s' [E HQ]]]]; [now left|].
    injection E as <- <-. right.
    destruct s; simpl; now rewrite HQ.
Qed.

Lemma anyIndexFrom_orb_true s : forall p,
  anyIndexFrom (fun p s => P p s || Q p s) p s = true ->
  anyIndexFrom P p s = true \/ anyIndexFrom Q p s = true.
Proof.
  induction s as [|c s IH]; intros p H; cbn [anyIndexFrom] in *.
  - rewrite !orb_false_r in *. apply orb_true_iff in H. tauto.
  - apply orb_true_iff in H. destruct H as [H|H].
    + apply orb_true_iff in H. destruct H as [H|H]; rewrite H; auto.
    + destruct (IH _ H) as [H'|H']; rewrite H'; auto using orb_true_r.
Qed.

Lemma anyIndexFrom_nonblank s : forall p,
  (forall p s, P p s = true -> isWordAt (hd_error s) = true) ->
  anyIndexFrom P p s = true -> blank s = false.
Proof.
  induction s as [|c s IH]; intros p HP H.
  - simpl in H. rewrite orb_false_r in H. apply HP in H. discriminate.
  - cbn [anyIndexFrom] in H. apply orb_true_iff in H. unfold blank. simpl.
    destruct (isSpace c) eqn:Ec; [|reflexivity]. simpl.
    destruct H as [H|H]; [|now apply (IH (Some c))].
    apply HP in H. simpl in H. apply isSpace_not_isWord in Ec. congruence.
Qed.

End SomeIndex.

Lemma anyIndexFrom_existsb (F : jsstring -> option ascii -> jsstring -> bool) ws s :
  forall p,
  anyIndexFrom (fun p s => existsb (fun w => F w p s) ws) p s = true <->
  exists w, In w ws /\ anyIndexFrom (F w) p s = true.
Proof.
  induction s as [|c s IH]; intro p; cbn [anyIndexFrom].
  - rewrite orb_false_r, existsb_exists. split; intros [w [H1 H2]]; exists w.
    + now rewrite H2.
    + now rewrite orb_false_r in H2.
  - rewrite orb_true_iff, existsb_exists, IH. split.
    + intros [[w [H1 H2]]|[w [H1 H2]]]; exists w; rewrite H2;
        auto using orb_true_r.
    + intros [w [H1 H2]]. apply orb_true_iff in H2.
      destruct H2 as [H2|H2]; [left|right]; exists w; tauto.
Qed.

Lemma keywordHere_head p s : keywordHere p s = true -> isWordAt (hd_error s) = true.
Proof.
  unfold keywordHere. intro H. apply orb_true_iff in H.
  destruct H as [H|H]; apply existsb_exists in H; destruct H as [w [Hw H]].
  - unfold wordAt in H. apply andb_true_iff in H. destruct H as [H _].
    apply andb_true_iff in H. destruct H as [_ H].
    destruct (letterIndicators_companyWords w Hw) as [Hcw _].
    exact (prefixCI_head w s (companyWords_startsWordy w Hcw) H).
  - unfold afterNonWord in H. apply andb_true_iff in H. destruct H as [_ H].
    assert (Hcw : In w companyWords).
    { destruct Hw as [<-|[<-|[]]]; unfold companyWords; simpl; tauto. }
    exact (prefixCI_head w s (companyWords_startsWordy w Hcw) H).
Qed.

Lemma isCompanyName_keywordHere s :
  isCompanyName s = true -> anyIndex keywordHere s = true.
Proof.
  unfold isCompanyName, test, anyIndex.
  apply anyIndexFrom_shift. apply COMPANY_KEYWORDS_keywordHere.
Qed.

Lemma isCompanyName_nonblank s : isCompanyName s = true -> blank s = false.
Proof.
  intro H. apply isCompanyName_keywordHere in H.
  exact (anyIndexFrom_nonblank keywordHere s None keywordHere_head H).
Qed.

(** ** The two loops *)

Lemma invalidsOf_app a b : invalidsOf (a ++ b) = invalidsOf a ++ invalidsOf b.
Proof. unfold invalidsOf. now rewrite filter_app, map_app. Qed.

Lemma forEachFrom_andPartCallback n parts : forall idx e,
  exists e',
    forEachFrom (andPartCallback n) idx parts e = Normal (tt, e') /\
    (Forall (fun o => goodOwner o = true) (owners e) ->
     Forall (fun o => goodOwner o = true) (owners e')) /\
    invalids e' = invalids e ++ invalidsOf parts.
Proof.
  induction parts as [|part parts IH]; intros idx e.
  - exists e. split; [reflexivity|]. split; [auto|].
    unfold invalidsOf. simpl. now rewrite app_nil_r.
  - destruct (andPartCallback_spec n part idx e) as [e1 [H1 [G1 I1]]].
    destruct (IH (S idx) e1) as [e2 [H2 [G2 I2]]].
    exists e2. split; [|split].
    + cbn [forEachFrom]. unfold bind. rewrite H1. exact H2.
    + auto.
    + rewrite I2, I1, <- app_assoc. f_equal.
      change (part :: parts) with ([part] ++ parts). rewrite invalidsOf_app.
      f_equal. unfold invalidsOf. simpl.
      destruct (length (tokenizeNamePart part) =? 1); reflexivity.
Qed.

Lemma pushOwnerOrInvalid_spec segment e :
  exists e',
    pushOwnerOrInvalid segment e = Normal (tt, e') /\
    (Forall (fun o => goodOwner o = true) (owners e) ->
     Forall (fun o => goodOwner o = true) (owners e')) /\
    invalids e' = invalids e ++ invalidsOf (partsOfSegment segment).
Proof.
  unfold pushOwnerOrInvalid, partsOfSegment.
  destruct (negb (nonEmpty (segmentText segment))).
  { exists e. split; [reflexivity|]. split; [auto|]. now rewrite app_nil_r. }
  destruct (isCompanyName (segmentText segment)) eqn:Ec.
  { eexists. split; [reflexivity|]. cbn [owners invalids]. split.
    - intro H. apply Forall_app. split; [exact H|]. constructor; [|constructor].
      simpl. rewrite blank_titleCase. now rewrite (isCompanyName_nonblank _ Ec).
    - now rewrite app_nil_r. }
  unfold bind at 1. cbn [setLocalLastSurname].
  destruct (forEachFrom_andPartCallback
              (length (andPartsOf (segmentText segment)))
              (andPartsOf (segmentText segment)) 0
              (mkEnv (owners e) (invalids e) (lastSurname e) None))
    as [e' [H [G I]]].
  exists e'. split; [exact H|]. split; [exact G|exact I].
Qed.

Lemma forEachFrom_pushOwnerOrInvalid segments : forall idx e,
  exists e',
    forEachFrom (fun seg (_ : nat) => pushOwnerOrInvalid seg) idx segments e
    = Normal (tt, e') /\
    (Forall (fun o => goodOwner o = true) (owners e) ->
     Forall (fun o => goodOwner o = true) (owners e')) /\
    invalids e' = invalids e ++ invalidsOf (flat_map partsOfSegment segments).
Proof.
  induction segments as [|seg segments IH]; intros idx e.
  - exists e. split; [reflexivity|]. split; [auto|].
    unfold invalidsOf. simpl. now rewrite app_nil_r.
  - destruct (pushOwnerOrInvalid_spec seg e) as [e1 [H1 [G1 I1]]].
    destruct (IH (S idx) e1) as [e2 [H2 [G2 I2]]].
    exists e2. split; [|split].
    + cbn [forEachFrom]. unfold bind. rewrite H1. exact H2.
    + auto.
    + rewrite I2, I1, <- app_assoc. f_equal. cbn [flat_map].
      now rewrite invalidsOf_app.
Qed.

Lemma accumulate_spec rawText :
  exists e,
    accumulate rawText = Normal (tt, e) /\
    Forall (fun o => goodOwner o = true) (owners e) /\
    invalids e = invalidsOf (subParts rawText).
Proof.
  unfold accumulate, forEach.
  destruct (forEachFrom_pushOwnerOrInvalid
              (commaSegmentsOf (inputText rawText)) 0 emptyEnv) as [e [H [G I]]].
  exists e. split; [exact H|]. split; [apply G; constructor|exact I].
Qed.

Lemma blank_inputText s : blank s = true -> inputText s = [].
Proof. intro H. unfold inputText. now rewrite (cleanText_blank s H). Qed.

Lemma parseOwnersFromText_spec rawText :
  exists e,
    accumulate rawText = Normal (tt, e) /\
    Forall (fun o => goodOwner o = true) (owners e) /\
    parseOwnersFromText (Some rawText) =
    Normal (mkResult (keepFirsts (owners e)) (invalidsOf (subParts rawText))).
Proof.
  destruct (accumulate_spec rawText) as [e [H [G I]]].
  exists e. split; [exact H|]. split; [exact G|].
  unfold parseOwnersFromText. cbn [truthy orEmpty].
  destruct (nonEmpty rawText) eqn:E; cbn [negb].
  - rewrite H, I, (dedup_keepFirsts _ G). reflexivity.
  - apply nonEmpty_false in E. subst rawText.
    vm_compute in H. injection H as <-. reflexivity.
Qed.

(* ================================================================== *)
(** * The claims of the specification *)

(** ** C1: the worked example ["SMITH JOHN & MARY"] *)

(** C1, as stated, fails: parsing ["SMITH JOHN & MARY"] does not return the
    two persons John Smith and Mary Smith with no invalid entry. *)
Lemma parse_smith_john_and_mary_not_two_persons :
  parseOwnersFromText (Some (str "SMITH JOHN & MARY")) <>
  Normal (mkResult [ person "John" "Smith" None; person "Mary" "Smith" None ] []).
Proof. vm_compute. discriminate. Qed.

(** C1, amended: parsing ["SMITH JOHN & MARY"] returns the one person John
    Smith and an invalid entry for ["MARY"], a sub-part of a single token;
    the fallback surname is applied to a sub-part of two tokens, so
    ["SMITH JOHN & MARY ANN"] returns John Smith and Mary Ann Smith. *)
Theorem parse_smith_john_and_mary :
  parseOwnersFromText (Some (str "SMITH JOHN & MARY")) =
  Normal (mkResult [ person "John" "Smith" None ] [ mkInvalid "MARY" ambiguous ])
  /\
  parseOwnersFromText (Some (str "SMITH JOHN & MARY ANN")) =
  Normal (mkResult [ person "John" "Smith" None;
                     person "Mary" "Smith" (Some (str "Ann")) ] []).
Proof. split; vm_compute; reflexivity. Qed.

(** ** C2: two tokens always build a person *)

(** C2: for every token list of at least two tokens [buildPersonFromTokens]
    returns a person whatever the fallback surname; hence the guard of the
    blind split, [!person && tokens.length >= 4], is false for every token
    list, and the callback adds no invalid entry for a sub-part of at least
    two tokens. *)
Theorem two_tokens_always_build :
  (forall tokens fallbackLastName,
     2 <= length tokens ->
     exists first last middle,
       buildPersonFromTokens tokens fallbackLastName =
       Some (person first last middle)) /\
  (forall tokens fallbackLastName,
     blindSplitGuard (buildPersonFromTokens tokens fallbackLastName) tokens = false) /\
  (forall andPartsLength part idx e,
     2 <= length (tokenizeNamePart part) ->
     exists e',
       andPartCallback andPartsLength part idx e = Normal (tt, e') /\
       invalids e' = invalids e).
Proof.
  split; [exact buildPersonFromTokens_some|].
  split; [exact blindSplitGuard_false|].
  intros n part idx e H.
  destruct (andPartCallback_spec n part idx e) as [e' [Hr [_ Hi]]].
  exists e'. split; [exact Hr|]. rewrite Hi.
  destruct (length (tokenizeNamePart part)) as [|[|k]]; try lia.
  simpl. apply app_nil_r.
Qed.

Lemma two_tokens_always_build_witness :
  2 <= length (tokenizeNamePart "SMITH JOHN") /\
  (exists first last middle,
     buildPersonFromTokens (tokenizeNamePart "SMITH JOHN") None =
     Some (person first last middle)) /\
  (exists e',
     andPartCallback 1 "SMITH JOHN" 0 emptyEnv = Normal (tt, e') /\
     invalids e' = invalids emptyEnv).
Proof.
  assert (H : 2 <= length (tokenizeNamePart "SMITH JOHN")) by (vm_compute; lia).
  split; [exact H|]. split.
  - exact (proj1 two_tokens_always_build _ None H).
  - exact (proj2 (proj2 two_tokens_always_build) 1 _ 0 emptyEnv H).
Defined.

(** ** C5: the shared-surname splitter *)

Lemma orEmpty_orNull_Some t : orEmpty (orNull (Some t)) = t.
Proof. destruct t; reflexivity. Qed.

Lemma buildPersonFromTokens_two lastTok first :
  buildPersonFromTokens [lastTok; first] None = Some (personOfChunk lastTok [first]).
Proof.
  unfold buildPersonFromTokens, personOfChunk, surnameOmitted.
  cbn [length Nat.eqb Nat.ltb Nat.leb nth_error skipn truthy andb orEmpty].
  now rewrite orEmpty_orNull_Some.
Qed.

Lemma buildPersonFromTokens_three lastTok first mid :
  buildPersonFromTokens [lastTok; first; mid] None =
  Some (personOfChunk lastTok [first; mid]).
Proof.
  unfold buildPersonFromTokens, personOfChunk, surnameOmitted.
  cbn [length Nat.eqb Nat.ltb Nat.leb nth_error skipn truthy andb orEmpty join].
  now rewrite orEmpty_orNull_Some.
Qed.

Lemma splitLoop_chunks_bounded lastTok n : forall rem acc,
  length rem <= n ->
  Forall (fun t => nonEmpty t = true) rem ->
  splitLoop lastTok rem acc = acc ++ map (personOfChunk lastTok) (chunksOfTwo rem).
Proof.
  induction n as [|n IH]; intros rem acc Hn Hrem.
  - destruct rem; [simpl; now rewrite app_nil_r|simpl in Hn; lia].
  - destruct rem as [|first [|mid rem2]].
    + simpl. now rewrite app_nil_r.
    + cbn [splitLoop]. now rewrite buildPersonFromTokens_two.
    + inversion Hrem as [|? ? Hf Hrem1]; subst.
      inversion Hrem1 as [|? ? Hm Hrem2]; subst.
      rewrite splitLoop_two, (orNull_Some _ Hm). cbn [truthy]. rewrite Hm.
      rewrite buildPersonFromTokens_three. cbn [pushIf].
      rewrite IH; [|simpl in Hn; lia|assumption].
      cbn [chunksOfTwo map]. now rewrite <- app_assoc.
Qed.

(** C5: on at least four (non-empty) tokens the splitter takes [tokens[0]]
    as the shared last name and builds one person for each chunk of the
    remaining tokens, chunks of two (first and middle) while two remain and
    a last chunk of one; on fewer than four tokens it returns nothing; and
    ["SMITH JOHN ROBERT ANN MARIE"] parses to John Robert Smith and Ann
    Marie Smith. *)
Theorem splitter_chunks_of_two :
  (forall tokens,
     Forall (fun t => nonEmpty t = true) tokens ->
     4 <= length tokens ->
     splitMultiplePersonsWithSharedLast tokens =
     map (personOfChunk (hd [] tokens)) (chunksOfTwo (tl tokens))) /\
  (forall tokens,
     length tokens < 4 -> splitMultiplePersonsWithSharedLast tokens = []) /\
  parseOwnersFromText (Some (str "SMITH JOHN ROBERT ANN MARIE")) =
  Normal (mkResult [ person "John" "Smith" (Some (str "Robert"));
                     person "Ann" "Smith" (Some (str "Marie")) ] []).
Proof.
  split; [|split].
  - intros tokens Hne Hlen. unfold splitMultiplePersonsWithSharedLast.
    destruct (length tokens <? 4) eqn:E; [apply Nat.ltb_lt in E; lia|].
    destruct tokens as [|lastTok rem]; [simpl in Hlen; lia|].
    inversion Hne; subst. cbn [hd tl].
    now rewrite (splitLoop_chunks_bounded lastTok (length rem) rem []).
  - intros tokens Hlen. unfold splitMultiplePersonsWithSharedLast.
    apply Nat.ltb_lt in Hlen. now rewrite Hlen.
  - vm_compute. reflexivity.
Qed.

Lemma splitter_chunks_of_two_witness :
  splitMultiplePersonsWithSharedLast
    [str "SMITH"; str "JOHN"; str "ROBERT"; str "ANN"; str "MARIE"] =
  map (personOfChunk "SMITH")
      [ [str "JOHN"; str "ROBERT"]; [str "ANN"; str "MARIE"] ] /\
  splitMultiplePersonsWithSharedLast [str "SMITH"; str "JOHN"; str "ROBERT"] = [].
Proof.
  split.
  - apply (proj1 splitter_chunks_of_two
             [str "SMITH"; str "JOHN"; str "ROBERT"; str "ANN"; str "MARIE"]).
    + repeat constructor.
    + simpl. lia.
  - apply (proj1 (proj2 splitter_chunks_of_two)). simpl. lia.
Defined.

(** ** C6: the baseline interpretation *)

Lemma filter_all {A : Type} (p : A -> bool) (l : list A) :
  Forall (fun x => p x = true) l -> filter p l = l.
Proof.
  intro H. induction H as [|x l Hx H IH]; simpl; [reflexivity|].
  now rewrite Hx, IH.
Qed.

Lemma stripSuffixes_join l :
  l <> [] -> Forall (fun t => goodToken t = true) l ->
  stripSuffixes (Some (join " " l)) =
  orNull (Some (join " " (filter (fun t => negb (test SUFFIXES_IGNORE t)) l))).
Proof.
  intros Hl H. unfold stripSuffixes.
  destruct l as [|x l]; [congruence|].
  assert (Hne : truthy (Some (join " " (x :: l))) = true).
  { cbn [truthy]. apply nonEmpty_join, goodToken_nonEmpty. now inversion H. }
  rewrite Hne. cbn [orEmpty]. unfold splitChar.
  rewrite splitWhen_join; [reflexivity|reflexivity|discriminate|].
  eapply Forall_impl; [|exact H]. apply goodToken_noSpaceChar.
Qed.

(** C6: [buildPersonFromTokens] returns [null] on no token and on one token;
    on two or more, when the surname-omission override does not apply,
    [tokens[0]] is the last name, [tokens[1]] the first name and
    [tokens.slice(2)] joined the middle-name portion, each title-cased, the
    middle-name portion after the removal of suffix tokens; when it holds no
    suffix token the middle name is the joined tokens, title-cased; and
    ["SMITH JOHN"] parses to the one person John Smith without middle
    name. *)
Theorem baseline_interpretation :
  (forall tokens fallbackLastName,
     length tokens <= 1 -> buildPersonFromTokens tokens fallbackLastName = None) /\
  (forall tokens fallbackLastName,
     2 <= length tokens ->
     surnameOmitted tokens fallbackLastName = false ->
     buildPersonFromTokens tokens fallbackLastName =
     Some (person (titleCase (nth 1 tokens []))
                  (titleCase (nth 0 tokens []))
                  (middleNameOf
                     (stripSuffixes
                        (if 2 <? length tokens
                         then Some (join " " (skipn 2 tokens)) else None))))) /\
  (forall tokens fallbackLastName,
     3 <= length tokens ->
     surnameOmitted tokens fallbackLastName = false ->
     Forall (fun t => goodToken t = true) tokens ->
     Forall (fun t => test SUFFIXES_IGNORE t = false) (skipn 2 tokens) ->
     buildPersonFromTokens tokens fallbackLastName =
     Some (person (titleCase (nth 1 tokens []))
                  (titleCase (nth 0 tokens []))
                  (Some (titleCase (join " " (skipn 2 tokens)))))) /\
  parseOwnersFromText (Some (str "SMITH JOHN")) =
  Normal (mkResult [ person "John" "Smith" None ] []).
Proof.
  assert (Base : forall tokens fallbackLastName,
     2 <= length tokens ->
     surnameOmitted tokens fallbackLastName = false ->
     buildPersonFromTokens tokens fallbackLastName =
     Some (person (titleCase (nth 1 tokens []))
                  (titleCase (nth 0 tokens []))
                  (middleNameOf
                     (stripSuffixes
                        (if 2 <? length tokens
                         then Some (join " " (skipn 2 tokens)) else None))))).
  { intros tokens fb Hlen Hov. unfold buildPersonFromTokens. rewrite Hov.
    destruct tokens as [|t0 [|t1 rest]]; simpl in Hlen; try lia.
    cbn [length Nat.eqb nth_error nth].
    now rewrite orEmpty_orNull_Some. }
  split; [|split; [exact Base|split]].
  - intros tokens fb H. apply buildPersonFromTokens_none. lia.
  - intros tokens fb Hlen Hov Hgood Hsuf.
    rewrite (Base tokens fb) by (assumption || lia).
    destruct tokens as [|t0 [|t1 [|t2 rest]]]; simpl in Hlen; try lia.
    cbn [length Nat.ltb Nat.leb skipn] in *.
    inversion Hgood as [|? ? _ Hg1]; subst. inversion Hg1 as [|? ? _ Hg2]; subst.
    rewrite stripSuffixes_join; [|discriminate|assumption].
    rewrite filter_all.
    2: { eapply Forall_impl; [|exact Hsuf]. intros t Ht. simpl in Ht.
         now rewrite Ht. }
    inversion Hg2 as [|? ? G2 _]; subst.
    rewrite (orNull_Some _ (nonEmpty_join " " t2 rest (goodToken_nonEmpty _ G2))).
    unfold middleNameOf. cbn [truthy orEmpty].
    now rewrite (nonEmpty_join " " t2 rest (goodToken_nonEmpty _ G2)).
  - vm_compute. reflexivity.
Qed.

Lemma baseline_interpretation_witness :
  buildPersonFromTokens [str "SMITH"] None = None /\
  buildPersonFromTokens [str "SMITH"; str "JOHN"; str "ALLEN"; str "JR"] None =
  Some (person "John" "Smith" (Some (str "Allen"))) /\
  buildPersonFromTokens [str "SMITH"; str "JOHN"; str "ALLEN"; str "RAY"] None =
  Some (person "John" "Smith" (Some (str "Allen Ray"))).
Proof.
  split; [|split].
  - apply (proj1 baseline_interpretation). simpl. lia.
  - apply (proj1 (proj2 baseline_interpretation)
             [str "SMITH"; str "JOHN"; str "ALLEN"; str "JR"] None).
    + simpl. lia.
    + reflexivity.
  - apply (proj1 (proj2 (proj2 baseline_interpretation))
             [str "SMITH"; str "JOHN"; str "ALLEN"; str "RAY"] None).
    + simpl. lia.
    + reflexivity.
    + repeat constructor.
    + repeat constructor.
Defined.

(** ** C3: the company classifier *)

(** C3, as stated, fails: ["ACME L.L.C. GROUP"] is classified as a company
    and holds none of the listed indicators as a whole word. *)
Lemma isCompanyName_not_exactly_listed :
  ~ (forall s,
       isCompanyName s = true <->
       exists w, In w specIndicators /\ occursAsWord w s = true).
Proof.
  intro H. destruct (H (str "ACME L.L.C. GROUP")) as [H1 _].
  assert (Hc : isCompanyName "ACME L.L.C. GROUP" = true) by (vm_compute; reflexivity).
  destruct (H1 Hc) as [w [Hw Ho]].
  assert (Hn : existsb (fun w => occursAsWord w "ACME L.L.C. GROUP") specIndicators
               = false) by (vm_compute; reflexivity).
  assert (Hy : existsb (fun w => occursAsWord w "ACME L.L.C. GROUP") specIndicators
               = true).
  { apply existsb_exists. exists w. tauto. }
  congruence.
Qed.

(** C3, amended: [isCompanyName] is true whenever the text holds, as a whole
    word and ignoring case, one of inc, llc, ltd, foundation, alliance,
    solutions, corp, co, services, trust, tr, associates, partners, lp, llp,
    bank, na, pllc, company, enterprises, properties, holdings, and whenever
    it holds l.l.c. or n.a. after a non-word character (or at the start)
    and before whitespace; and whenever it is true, the text holds one of
    those words as a whole word, or l.l.c. or n.a. after a non-word
    character (or at the start). *)
Theorem isCompanyName_indicators :
  (forall w s,
     In w letterIndicators -> occursAsWord w s = true -> isCompanyName s = true) /\
  (forall w s,
     In w dottedIndicators -> occursSpaced w s = true -> isCompanyName s = true) /\
  (forall s,
     isCompanyName s = true ->
     (exists w, In w letterIndicators /\ occursAsWord w s = true) \/
     (exists w, In w dottedIndicators /\ occursAfterNonWord w s = true)).
Proof.
  split; [|split].
  - intros w s Hw H. unfold isCompanyName, test, anyIndex.
    apply (anyIndexFrom_impl (wordAt w)); [|exact H].
    intros p t. now apply wordAt_COMPANY_KEYWORDS.
  - intros w s Hw H. unfold isCompanyName, test, anyIndex.
    apply (anyIndexFrom_impl (spacedAt w)); [|exact H].
    intros p t. now apply spacedAt_COMPANY_KEYWORDS.
  - intros s H. apply isCompanyName_keywordHere in H.
    unfold anyIndex, keywordHere in H. apply anyIndexFrom_orb_true in H.
    destruct H as [H|H]; [left|right];
      apply (anyIndexFrom_existsb _ _ s None) in H; exact H.
Qed.

Lemma isCompanyName_indicators_witness :
  isCompanyName "ACME LLC" = true /\
  isCompanyName "FIRST N.A. TRUSTEE" = true /\
  ((exists w, In w letterIndicators /\ occursAsWord w "Acme Inc." = true) \/
   (exists w, In w dottedIndicators /\ occursAfterNonWord w "Acme Inc." = true)).
Proof.
  split; [|split].
  - apply (proj1 isCompanyName_indicators "llc").
    + unfold letterIndicators. simpl. tauto.
    + vm_compute. reflexivity.
  - apply (proj1 (proj2 isCompanyName_indicators) "n.a.").
    + unfold dottedIndicators. simpl. tauto.
    + vm_compute. reflexivity.
  - apply (proj2 (proj2 isCompanyName_indicators)). vm_compute. reflexivity.
Defined.

(** ** C4: a company text *)

Lemma matchComma_none p s : hasComma s = false -> matchComma p s = None.
Proof.
  intro H. unfold matchComma.
  destruct (dropWhile isSpace s) as [|c r] eqn:E; [reflexivity|].
  assert (Hc : In c s).
  { apply (In_dropWhile isSpace). rewrite E. now left. }
  destruct (Ascii.eqb c ",") eqn:Ec; [|reflexivity].
  unfold hasComma in H.
  assert (Ht : existsb (fun c => Ascii.eqb c ",") s = true).
  { apply existsb_exists. exists c. tauto. }
  congruence.
Qed.

Lemma splitFrom_no_comma s : forall p piece,
  hasComma s = false -> splitFrom matchComma p 0 piece s = [rev piece ++ s].
Proof.
  induction s as [|c s IH]; intros p piece H.
  - simpl. now rewrite app_nil_r.
  - cbn [splitFrom]. rewrite (matchComma_none p _ H).
    unfold hasComma in H. simpl in H. apply orb_false_iff in H.
    rewrite IH by tauto. simpl. now rewrite <- app_assoc.
Qed.

Lemma hasComma_inputText s : hasComma s = false -> hasComma (inputText s) = false.
Proof.
  intro H. unfold hasComma in *.
  destruct (existsb (fun c => Ascii.eqb c ",") (inputText s)) eqn:E;
    [|reflexivity].
  apply existsb_exists in E. destruct E as [c [Hc Hcomma]].
  apply Ascii.eqb_eq in Hcomma. subst c.
  assert (Hin : In ","%char s).
  { unfold inputText in Hc. apply In_trim in Hc.
    apply In_replaceLongRunsFrom in Hc. destruct Hc as [Hc|Hc]; [|discriminate].
    apply In_stripStar in Hc. apply In_cleanText in Hc.
    destruct Hc as [[Hc _]|Hc]; [exact Hc|discriminate]. }
  assert (Ht : existsb (fun c => Ascii.eqb c ",") s = true).
  { apply existsb_exists. exists ","%char. split; [exact Hin|reflexivity]. }
  congruence.
Qed.

(** C4, as stated, fails: ["ACME LLC, SMITH JOHN"] holds the keyword LLC as
    a whole word and parses to a company and a person. *)
Lemma company_keyword_not_one_company :
  ~ (forall rawText,
       (exists w, In w specIndicators /\ occursAsWord w rawText = true) ->
       exists name,
         parseOwnersFromText (Some rawText) = Normal (mkResult [company name] [])).
Proof.
  intro H.
  destruct (H (str "ACME LLC, SMITH JOHN")) as [name Hn].
  - exists (str "llc"). split; [unfold specIndicators; simpl; tauto|].
    vm_compute. reflexivity.
  - vm_compute in Hn. discriminate Hn.
Qed.

(** C4, amended: for every input text without a comma whose segment text
    (the input after [cleanText], the removal of a leading asterisk and
    [trim], as the parser computes it) is classified as a company, the
    parser returns exactly one owner, the company named by the title-cased
    segment text, and no invalid entry. *)
Theorem company_text_one_company (rawText : jsstring) :
  hasComma rawText = false ->
  isCompanyName (segmentText (inputText rawText)) = true ->
  parseOwnersFromText (Some rawText) =
  Normal (mkResult [company (titleCase (segmentText (inputText rawText)))] []).
Proof.
  intros Hcomma Hcompany.
  pose proof (isCompanyName_nonblank _ Hcompany) as Hnb.
  assert (Htext : nonEmpty (inputText rawText) = true).
  { destruct (inputText rawText) eqn:E; [|reflexivity].
    vm_compute in Hcompany. discriminate Hcompany. }
  assert (Hraw : nonEmpty rawText = true).
  { destruct rawText; [|reflexivity].
    vm_compute in Htext. discriminate Htext. }
  assert (Hacc : accumulate rawText =
    Normal (tt, mkEnv [company (titleCase (segmentText (inputText rawText)))]
                      [] None None)).
  { unfold accumulate, commaSegmentsOf, splitRegex.
    rewrite (splitFrom_no_comma _ None [] (hasComma_inputText _ Hcomma)).
    cbn [rev app]. unfold filterBoolean. cbn [filter]. rewrite Htext.
    unfold forEach. cbn [forEachFrom]. unfold bind, pushOwnerOrInvalid.
    rewrite (blank_nonEmpty _ Hnb), Hcompany. reflexivity. }
  unfold parseOwnersFromText. cbn [truthy orEmpty]. rewrite Hraw, Hacc.
  cbn [negb owners invalids]. rewrite dedup_keepFirsts; [reflexivity|].
  constructor; [|constructor]. cbn [goodOwner]. now rewrite blank_titleCase, Hnb.
Qed.

Lemma company_text_one_company_witness :
  parseOwnersFromText (Some (str "ACME LLC")) =
  Normal (mkResult [company "Acme Llc"] []).
Proof.
  exact (company_text_one_company "ACME LLC" eq_refl eq_refl).
Defined.

(** ** C7: deduplication *)

Lemma parseOwnersFromText_null_or_empty rawText :
  truthy rawText = false -> parseOwnersFromText rawText = Normal (mkResult [] []).
Proof. intro H. unfold parseOwnersFromText. now rewrite H. Qed.

Lemma truthy_false_cases rawText :
  truthy rawText = false \/
  exists s, rawText = Some s /\ nonEmpty s = true.
Proof.
  destruct rawText as [[|c s]|]; simpl; auto.
  right. exists (c :: s). auto.
Qed.

Lemma keys_keepFirsts os k :
  In k (map normalizeOwnerKey (keepFirsts os)) <-> In k (map normalizeOwnerKey os).
Proof.
  split; intro H; apply in_map_iff in H; destruct H as [o [<- H]].
  - apply in_map. now apply In_keepFirsts.
  - now apply keepFirsts_covers.
Qed.

(** C7: in every result no two owners have the same normalized key; the
    owners returned are the accumulated owners with the first occurrence of
    each key kept and the order preserved, so an owner whose key was met
    before is dropped and every key met is represented; and whatever the
    order in which the owners were accumulated, the same keys are
    returned, each once. *)
Theorem parse_owners_deduplicated :
  (forall rawText r,
     parseOwnersFromText rawText = Normal r ->
     NoDup (map normalizeOwnerKey (resultOwners r))) /\
  (forall rawText,
     exists e,
       accumulate rawText = Normal (tt, e) /\
       parseOwnersFromText (Some rawText) =
       Normal (mkResult (keepFirsts (owners e)) (invalids e)) /\
       dedup (owners e) = keepFirsts (owners e) /\
       subsequence (keepFirsts (owners e)) (owners e) /\
       (forall pre o post,
          owners e = pre ++ o :: post ->
          (forall x, In x pre -> normalizeOwnerKey x <> normalizeOwnerKey o) ->
          In o (keepFirsts (owners e))) /\
       (forall o,
          In o (owners e) ->
          In (normalizeOwnerKey o)
             (map normalizeOwnerKey (keepFirsts (owners e))))) /\
  (forall os os',
     Forall (fun o => goodOwner o = true) os ->
     Permutation os os' ->
     NoDup (map normalizeOwnerKey (dedup os')) /\
     (forall k, In k (map normalizeOwnerKey (dedup os)) <->
                In k (map normalizeOwnerKey (dedup os')))).
Proof.
  split; [|split].
  - intros rawText r H.
    destruct (truthy_false_cases rawText) as [Hf|[s [-> Hs]]].
    + rewrite (parseOwnersFromText_null_or_empty _ Hf) in H.
      injection H as <-. constructor.
    + destruct (parseOwnersFromText_spec s) as [e [_ [_ Hp]]].
      rewrite Hp in H. injection H as <-. apply keepFirsts_NoDup.
  - intro rawText.
    destruct (parseOwnersFromText_spec rawText) as [e [Ha [Hg Hp]]].
    destruct (accumulate_spec rawText) as [e' [Ha' [_ Hi]]].
    assert (e' = e) by congruence. subst e'.
    exists e. split; [exact Ha|]. split; [now rewrite Hi|].
    split; [now apply dedup_keepFirsts|].
    split; [apply keepFirsts_subsequence|].
    split; [intros pre o post; apply keepFirsts_first|].
    apply keepFirsts_covers.
  - intros os os' Hg Hperm.
    assert (Hg' : Forall (fun o => goodOwner o = true) os').
    { rewrite Forall_forall in *. intros o Ho. apply Hg.
      apply (Permutation_in o (Permutation_sym Hperm) Ho). }
    rewrite (dedup_keepFirsts os Hg), (dedup_keepFirsts os' Hg').
    split; [apply keepFirsts_NoDup|].
    intro k. rewrite !keys_keepFirsts. split; intro H.
    + apply (Permutation_in k (Permutation_map _ Hperm) H).
    + apply (Permutation_in k (Permutation_map _ (Permutation_sym Hperm)) H).
Qed.

Lemma parse_owners_deduplicated_witness :
  NoDup (map normalizeOwnerKey
           [ person "John" "Smith" None; person "Mary" "Jones" (Some (str "Ann")) ]).
Proof.
  apply (proj1 parse_owners_deduplicated
           (Some (str "SMITH JOHN, JONES MARY ANN, smith john"))
           (mkResult [ person "John" "Smith" None;
                       person "Mary" "Jones" (Some (str "Ann")) ] [])).
  vm_compute. reflexivity.
Defined.

(** ** C8: the suffix pattern *)

Lemma prefixCI_whole x : forall w,
  prefixCI x w = true /\ skipn (length x) w = [] <-> sameIgnoringCase w x.
Proof.
  unfold sameIgnoringCase.
  induction x as [|c x IH]; intros [|d w]; simpl; split;
    try (intros [H1 H2]; congruence); try discriminate; try tauto.
  - intros [H1 H2]. apply andb_true_iff in H1. destruct H1 as [Hd H1].
    apply Ascii.eqb_eq in Hd. rewrite Hd. f_equal. apply IH. tauto.
  - intro H. injection H as Hd H. apply IH in H. destruct H as [H1 H2].
    now rewrite Hd, Ascii.eqb_refl, H1.
Qed.

Lemma matchesAt_SUFFIXES_IGNORE p s :
  matchesAt SUFFIXES_IGNORE p s = true <->
  p = None /\ exists x, In x suffixWords /\ sameIgnoringCase s x.
Proof.
  rewrite matchesAt_true. unfold SUFFIXES_IGNORE. split.
  - intros [z Hz]. apply In_run_Seq in Hz. destruct Hz as [y [Hy Hz]].
    simpl in Hy. destruct p; [destruct Hy|]. destruct Hy as [<-|[]].
    split; [reflexivity|]. cbn [fst snd] in Hz.
    apply In_run_Seq in Hz. destruct Hz as [y [Hy Hz]].
    apply In_run_alts in Hy. destruct Hy as [r [Hr Hy]].
    apply in_map_iff in Hr. destruct Hr as [x [<- Hx]].
    rewrite run_lit in Hy. destruct (prefixCI x s) eqn:E; [|destruct Hy].
    destruct Hy as [<-|[]]. cbn [fst snd run] in Hz.
    destruct (skipn (length x) s) eqn:Es; [|destruct Hz].
    exists x. split; [exact Hx|]. apply prefixCI_whole. tauto.
  - intros [-> [x [Hx Hs]]]. apply prefixCI_whole in Hs. destruct Hs as [H1 H2].
    exists (lastOr None (firstn (length x) s), []).
    apply In_run_Seq. exists (None, s). split; [now left|]. cbn [fst snd].
    apply In_run_Seq.
    exists (lastOr None (firstn (length x) s), skipn (length x) s). split.
    + apply In_run_alts. exists (lit x). split; [now apply in_map|].
      rewrite run_lit, H1. now left.
    + cbn [fst snd run]. rewrite H2. now left.
Qed.

Lemma anyIndexFrom_start (P : option ascii -> jsstring -> bool) s c :
  (forall p s, P p s = true -> p = None) ->
  anyIndexFrom P (Some c) s = false.
Proof.
  intro HP. revert c. induction s as [|d s IH]; intro c; cbn [anyIndexFrom].
  - rewrite orb_false_r. destruct (P (Some c) []) eqn:E; [|reflexivity].
    apply HP in E. discriminate.
  - rewrite IH, orb_false_r. destruct (P (Some c) (d :: s)) eqn:E; [|reflexivity].
    apply HP in E. discriminate.
Qed.

(** The suffix pattern accepts the strings equal, ignoring case, to one of
    its words. *)
Lemma test_SUFFIXES_IGNORE w :
  test SUFFIXES_IGNORE w = true <->
  exists x, In x suffixWords /\ sameIgnoringCase w x.
Proof.
  assert (Hstart : forall p s, matchesAt SUFFIXES_IGNORE p s = true -> p = None).
  { intros p s H. apply matchesAt_SUFFIXES_IGNORE in H. tauto. }
  unfold test, anyIndex. split.
  - intro H. destruct w as [|c w]; cbn [anyIndexFrom] in H.
    + rewrite orb_false_r in H. apply matchesAt_SUFFIXES_IGNORE in H. tauto.
    + rewrite (anyIndexFrom_start _ w c Hstart), orb_false_r in H.
      apply matchesAt_SUFFIXES_IGNORE in H. tauto.
  - intro H.
    assert (Hm : matchesAt SUFFIXES_IGNORE None w = true).
    { apply matchesAt_SUFFIXES_IGNORE. tauto. }
    destruct w; cbn [anyIndexFrom]; now rewrite Hm.
Qed.

(** ** C9: totality *)

(** C9: [parseOwnersFromText] returns a result for every argument, a string,
    [null] or [undefined], without raising; for a [null], empty or
    whitespace-only argument the result has no owner and no invalid
    entry. *)
Theorem parseOwnersFromText_total :
  (forall rawText, exists r, parseOwnersFromText rawText = Normal r) /\
  (forall rawText,
     blank (orEmpty rawText) = true ->
     parseOwnersFromText rawText = Normal (mkResult [] [])).
Proof.
  split.
  - intro rawText. destruct (truthy_false_cases rawText) as [Hf|[s [-> Hs]]].
    + eexists. now apply parseOwnersFromText_null_or_empty.
    + destruct (parseOwnersFromText_spec s) as [e [_ [_ Hp]]]. eexists. exact Hp.
  - intros rawText Hb.
    destruct (truthy_false_cases rawText) as [Hf|[s [-> Hs]]].
    + now apply parseOwnersFromText_null_or_empty.
    + cbn [orEmpty] in Hb. unfold parseOwnersFromText. cbn [truthy orEmpty].
      rewrite Hs. cbn [negb]. unfold accumulate.
      rewrite (blank_inputText s Hb). reflexivity.
Qed.

Lemma parseOwnersFromText_total_witness :
  parseOwnersFromText (Some (str "   ")) = Normal (mkResult [] []) /\
  parseOwnersFromText None = Normal (mkResult [] []).
Proof.
  split.
  - apply (proj2 parseOwnersFromText_total (Some (str "   "))). reflexivity.
  - apply (proj2 parseOwnersFromText_total None). reflexivity.
Defined.

(** ** C10: invalid entries *)

(** C10, as stated, fails: the fragment ["12345"] is not empty, is not a
    company and does not build a person, and the parser returns no invalid
    entry for it. *)
Lemma digits_fragment_silently_dropped :
  In (str "12345") (subParts "12345") /\
  isCompanyName "12345" = false /\
  buildPersonFromTokens (tokenizeNamePart "12345") None = None /\
  parseOwnersFromText (Some (str "12345")) = Normal (mkResult [] []).
Proof. repeat split; vm_compute; auto. Qed.

(** C10, amended: the invalid entries of a result are, in order, one entry
    for each sub-part that tokenizes to exactly one token, with the sub-part
    text and the reason ["ambiguous_or_incomplete_person_name"]; a sub-part
    with tokens fails to build exactly when it has one token, and a sub-part
    without tokens is skipped; ["SMITH"] gives no person and one such
    entry. *)
Theorem invalid_entries_are_single_token_parts :
  (forall rawText,
     exists r,
       parseOwnersFromText (Some rawText) = Normal r /\
       resultInvalids r = invalidsOf (subParts rawText)) /\
  (forall part fallbackLastName,
     tokenizeNamePart part <> [] ->
     (buildPersonFromTokens (tokenizeNamePart part) fallbackLastName = None <->
      length (tokenizeNamePart part) = 1)) /\
  parseOwnersFromText (Some (str "SMITH")) =
  Normal (mkResult [] [ mkInvalid "SMITH" ambiguous ]).
Proof.
  split; [|split].
  - intro rawText. destruct (parseOwnersFromText_spec rawText) as [e [_ [_ Hp]]].
    eexists. split; [exact Hp|reflexivity].
  - intros part fb Hne. destruct (tokenizeNamePart part) as [|t0 [|t1 rest]].
    + congruence.
    + split; reflexivity.
    + split; intro H.
      * destruct (buildPersonFromTokens_some (t0 :: t1 :: rest) fb)
          as [f [l [m Hb]]]; [simpl; lia|congruence].
      * simpl in H. lia.
  - vm_compute. reflexivity.
Qed.

Lemma invalid_entries_are_single_token_parts_witness :
  buildPersonFromTokens (tokenizeNamePart "SMITH") None = None <->
  length (tokenizeNamePart "SMITH") = 1.
Proof.
  apply (proj1 (proj2 invalid_entries_are_single_token_parts) "SMITH" None).
  vm_compute. discriminate.
Defined.

(* ================================================================== *)
(** * Further properties of the code *)

(** ** Whitespace normalization *)

Lemma dropWhile_suffix p s : exists a, s = a ++ dropWhile p s.
Proof.
  induction s as [|c s [a IH]]; simpl.
  - now exists [].
  - destruct (p c); [|now exists []]. exists (c :: a). simpl. now f_equal.
Qed.

Lemma dropWhile_head p s c : hd_error (dropWhile p s) = Some c -> p c = false.
Proof.
  induction s as [|d s IH]; simpl; [discriminate|].
  destruct (p d) eqn:E; [exact IH|]. simpl. congruence.
Qed.

Lemma spaceAt_dropWhile s : spaceAt (hd_error (dropWhile isSpace s)) = false.
Proof.
  destruct (hd_error (dropWhile isSpace s)) as [c|] eqn:E; [|reflexivity].
  simpl. now apply (dropWhile_head isSpace s).
Qed.

Lemma trim_decompose s : exists a b, s = a ++ trim s ++ b.
Proof.
  unfold trim. destruct (dropWhile_suffix isSpace s) as [a Ha].
  destruct (dropWhile_suffix isSpace (rev (dropWhile isSpace s))) as [b Hb].
  exists a, (rev b). rewrite <- rev_app_distr, <- Hb, rev_involutive. exact Ha.
Qed.

Lemma spaceAt_trim_head s : spaceAt (hd_error (trim s)) = false.
Proof.
  destruct (trim s) as [|c t] eqn:E; [reflexivity|].
  unfold trim in E.
  destruct (dropWhile_suffix isSpace (rev (dropWhile isSpace s))) as [b Hb].
  apply (f_equal (@rev ascii)) in Hb.
  rewrite rev_involutive, rev_app_distr, E in Hb.
  pose proof (spaceAt_dropWhile s) as H. rewrite Hb in H. exact H.
Qed.

Lemma spaceAt_trim_last s : spaceAt (hd_error (rev (trim s))) = false.
Proof. unfold trim. rewrite rev_involutive. apply spaceAt_dropWhile. Qed.

Lemma singleSpaced_app a b :
  singleSpaced (a ++ b) = true -> singleSpaced a = true /\ singleSpaced b = true.
Proof.
  induction a as [|c a IH]; simpl; [tauto|].
  intro H. apply andb_true_iff in H. destruct H as [H1 H2].
  destruct (IH H2) as [Ha Hb]. split; [|exact Hb]. rewrite Ha, andb_true_r.
  destruct (isSpace c); [|reflexivity].
  apply andb_true_iff in H1. destruct H1 as [H1 H3]. rewrite H1. simpl.
  destruct a; [reflexivity|exact H3].
Qed.

Lemma singleSpaced_trim s : singleSpaced s = true -> singleSpaced (trim s) = true.
Proof.
  intro H. destruct (trim_decompose s) as [a [b E]]. rewrite E in H.
  apply singleSpaced_app in H. destruct H as [_ H].
  apply singleSpaced_app in H. tauto.
Qed.

Lemma dropWhile_none p s :
  match hd_error s with Some c => p c | None => false end = false ->
  dropWhile p s = s.
Proof. destruct s as [|c s]; simpl; [reflexivity|]. now intros ->. Qed.

Lemma trim_fixed s :
  spaceAt (hd_error s) = false -> spaceAt (hd_error (rev s)) = false -> trim s = s.
Proof.
  intros H1 H2. unfold trim.
  rewrite (dropWhile_none isSpace s H1), (dropWhile_none isSpace (rev s) H2).
  apply rev_involutive.
Qed.

Section Runs.

Variable cls : ascii -> bool.
Hypothesis cls_isSpace : forall c, cls c = isSpace c.

Lemma singleSpaced_replaceRunsFrom s : forall b,
  singleSpaced (replaceRunsFrom cls " " b s) = true /\
  (b = true -> spaceAt (hd_error (replaceRunsFrom cls " " b s)) = false).
Proof.
  induction s as [|c s IH]; intro b; [split; reflexivity|].
  cbn [replaceRunsFrom]. rewrite cls_isSpace. destruct (isSpace c) eqn:E.
  - destruct (IH true) as [H1 H2]. destruct b.
    + split; [exact H1|exact H2].
    + split; [|discriminate]. specialize (H2 eq_refl). simpl in H1, H2 |- *.
      now rewrite H1, H2.
  - destruct (IH false) as [H1 _]. split.
    + simpl in H1 |- *. now rewrite E, H1.
    + intros _. simpl. exact E.
Qed.

Lemma replaceRunsFrom_fixed s : forall b,
  singleSpaced s = true ->
  (b = true -> spaceAt (hd_error s) = false) ->
  replaceRunsFrom cls " " b s = s.
Proof.
  induction s as [|c s IH]; intros b H Hb; [reflexivity|].
  simpl in H. apply andb_true_iff in H. destruct H as [H1 H2].
  cbn [replaceRunsFrom]. rewrite cls_isSpace. destruct (isSpace c) eqn:E.
  - apply andb_true_iff in H1. destruct H1 as [Hc Hn].
    apply Ascii.eqb_eq in Hc. apply negb_true_iff in Hn.
    destruct b; [specialize (Hb eq_refl); simpl in Hb; congruence|].
    rewrite (IH true H2 (fun _ => Hn)). subst c. reflexivity.
  - f_equal. apply IH; [exact H2|discriminate].
Qed.

End Runs.

Lemma cleanText_isClean t : isClean (cleanText t) = true.
Proof.
  unfold cleanText, isClean.
  rewrite spaceAt_trim_head, spaceAt_trim_last, singleSpaced_trim; [reflexivity|].
  apply (singleSpaced_replaceRunsFrom isNbspOrSpace isNbspOrSpace_isSpace).
Qed.

Lemma cleanText_fixed s : isClean s = true -> cleanText (Some s) = s.
Proof.
  unfold isClean, cleanText. intro H.
  apply andb_true_iff in H. destruct H as [H H3].
  apply andb_true_iff in H. destruct H as [H1 H2].
  apply negb_true_iff in H2, H3. cbn [orEmpty]. unfold replaceRuns.
  rewrite (replaceRunsFrom_fixed isSpace (fun c => eq_refl) s false H1)
    by discriminate.
  rewrite (replaceRunsFrom_fixed isNbspOrSpace isNbspOrSpace_isSpace s false H1)
    by discriminate.
  now apply trim_fixed.
Qed.

(** X1: [cleanText] returns a text whose only whitespace is single SPACE
    characters between other characters, returns such a text unchanged, and
    is therefore idempotent. *)
Theorem cleanText_normal_form :
  (forall t, isClean (cleanText t) = true) /\
  (forall s, isClean s = true -> cleanText (Some s) = s) /\
  (forall t, cleanText (Some (cleanText t)) = cleanText t).
Proof.
  split; [exact cleanText_isClean|]. split; [exact cleanText_fixed|].
  intro t. apply cleanText_fixed, cleanText_isClean.
Qed.

Lemma cleanText_normal_form_witness :
  cleanText (Some (str "SMITH JOHN & MARY")) = str "SMITH JOHN & MARY".
Proof.
  apply (proj1 (proj2 cleanText_normal_form)). vm_compute. reflexivity.
Defined.

Lemma parse_after_cleanText rawText :
  parseOwnersFromText (Some (cleanText (Some rawText))) =
  parseOwnersFromText (Some rawText).
Proof.
  assert (Hin : inputText (cleanText (Some rawText)) = inputText rawText).
  { unfold inputText. now rewrite (cleanText_fixed _ (cleanText_isClean _)). }
  assert (Hacc : accumulate (cleanText (Some rawText)) = accumulate rawText).
  { unfold accumulate. now rewrite Hin. }
  unfold parseOwnersFromText. cbn [truthy orEmpty]. rewrite Hacc.
  destruct rawText as [|c raw]; [reflexivity|]. cbn [nonEmpty negb].
  match goal with
  | |- context [nonEmpty (cleanText ?t)] =>
      destruct (nonEmpty (cleanText t)) eqn:E; [reflexivity|]
  end.
  apply nonEmpty_false in E. cbn [negb]. unfold accumulate, inputText.
  rewrite E. reflexivity.
Qed.

(** X2: the parser gives the same result for a text and for its
    [cleanText]: the callers, which clean the text first, lose nothing. *)
Theorem parseOwnersFromText_cleanText rawText :
  parseOwnersFromText (Some (cleanText (Some rawText))) =
  parseOwnersFromText (Some rawText).
Proof.
  exact (parse_after_cleanText rawText).
Qed.

(** ** Title case *)

Lemma toLowerCaseUnit_idempotent (c : ascii) :
  toLowerCaseUnit (toLowerCaseUnit c) = toLowerCaseUnit c.
Proof. all_units c. Qed.

Lemma isWord_toUpperCaseUnit (c : ascii) :
  isWord c = true -> isWord (hd c (toUpperCaseUnit c)) = true.
Proof. all_units c. Qed.

Lemma toUpperCaseUnit_idempotent (c : ascii) :
  isWord c = true ->
  toUpperCaseUnit (hd c (toUpperCaseUnit c)) = [hd c (toUpperCaseUnit c)].
Proof. all_units c. Qed.

Lemma titleCaseFrom_idempotent s : forall b,
  titleCaseFrom b (titleCaseFrom b s) = titleCaseFrom b s.
Proof.
  induction s as [|c s IH]; intro b; [reflexivity|].
  cbn [titleCaseFrom]. destruct b.
  - destruct (isSpace c) eqn:E; cbn [titleCaseFrom].
    + now rewrite E, IH.
    + now rewrite isSpace_toLowerCaseUnit, E, toLowerCaseUnit_idempotent, IH.
  - destruct (isWord c) eqn:E.
    + rewrite (toUpperCaseUnit_isWord c E). cbn [app titleCaseFrom].
      now rewrite (isWord_toUpperCaseUnit c E), (toUpperCaseUnit_idempotent c E), IH.
    + cbn [titleCaseFrom]. now rewrite E, IH.
Qed.

(** X3: [titleCase] changes nothing but the case of characters, keeps the
    length, and is idempotent. *)
Theorem titleCase_idempotent s :
  titleCase (titleCase s) = titleCase s /\
  sameIgnoringCase (titleCase s) s /\
  length (titleCase s) = length s.
Proof.
  split; [apply titleCaseFrom_idempotent|]. split.
  - apply titleCaseFrom_canonicalize.
  - rewrite <- (length_map canonicalize (titleCase s)).
    unfold titleCase. now rewrite titleCaseFrom_canonicalize, length_map.
Qed.

(** ** The company classifier ignores case *)

Lemma toLowerCase_canonicalize s : map canonicalize (toLowerCase s) = map canonicalize s.
Proof.
  unfold toLowerCase. rewrite map_map. apply map_ext.
  apply canonicalize_toLowerCaseUnit.
Qed.

(** X4: [isCompanyName] gives the same answer on two texts that differ in
    case only; in particular on a text, on its lower-case form and on its
    title-cased form, so the name of a company that was pushed is again
    classified as a company. *)
Theorem isCompanyName_ignores_case :
  (forall s1 s2, sameIgnoringCase s1 s2 -> isCompanyName s1 = isCompanyName s2) /\
  (forall s, isCompanyName (toLowerCase s) = isCompanyName s) /\
  (forall s, isCompanyName (titleCase s) = isCompanyName s).
Proof.
  split; [|split].
  - intros s1 s2 H. now apply test_canonicalize.
  - intro s. apply test_canonicalize, toLowerCase_canonicalize.
  - intro s. apply test_canonicalize, titleCaseFrom_canonicalize.
Qed.

Lemma isCompanyName_ignores_case_witness :
  isCompanyName "Acme llc" = isCompanyName "ACME LLC".
Proof.
  apply (proj1 isCompanyName_ignores_case). vm_compute. reflexivity.
Defined.

(** ** The alphabet of tokens *)

Lemma In_replaceEach cls s c :
  In c (replaceEach cls s) -> (In c s /\ cls c = false) \/ c = " "%char.
Proof.
  unfold replaceEach. intro H. apply in_map_iff in H. destruct H as [d [Hd Hin]].
  destruct (cls d) eqn:E; [right; now symmetry|]. left. subst d. tauto.
Qed.

Lemma notNameChar_isTokenChar c :
  notNameChar c = false -> isSpace c = false -> isTokenChar c = true.
Proof.
  unfold notNameChar, isTokenChar. intros H Hs. apply negb_false_iff in H.
  rewrite Hs in H.
  destruct (isUpperAZ c), (isLowerAZ c), (Ascii.eqb c "&"), (Ascii.eqb c "'"),
    (Ascii.eqb c "-"), (Ascii.eqb c "."); simpl in *; congruence.
Qed.

(** X5: every token of [tokenizeNamePart] is a non-empty string of ASCII
    letters, ampersands, apostrophes, hyphens and periods; digits, other
    symbols, whitespace and characters outside ASCII never reach a token. *)
Theorem tokens_alphabet part t :
  In t (tokenizeNamePart part) ->
  t <> [] /\ forallb isTokenChar t = true.
Proof.
  unfold tokenizeNamePart, filterBoolean, splitChar. intro Ht.
  apply filter_In in Ht. destruct Ht as [Ht Hne]. split.
  - intro E. subst t. discriminate Hne.
  - apply forallb_forall. intros c Hc.
    destruct (In_splitWhen _ _ _ _ Ht Hc) as [H1 H2].
    apply In_trim in H1. apply In_replaceRunsFrom in H1.
    destruct H1 as [[H1 Hs]|H1].
    + apply In_replaceEach in H1. destruct H1 as [[_ H1]|H1].
      * now apply notNameChar_isTokenChar.
      * subst c. discriminate H2.
    + destruct H1 as [<-|[]]. discriminate H2.
Qed.

Lemma tokens_alphabet_witness :
  str "O'NEIL" <> [] /\ forallb isTokenChar (str "O'NEIL") = true.
Proof.
  apply (tokens_alphabet " *O'NEIL  j4r 99 MC-X. "). vm_compute. tauto.
Defined.

(** ** What one sub-part contributes *)

Lemma buildPart_exact tokens part idx e :
  tokens <> [] ->
  exists e',
    buildPart tokens part idx e = Normal (tt, e') /\
    owners e' = pushIf (buildPersonFromTokens tokens (fallbackAt idx e)) (owners e).
Proof.
  intro Hne. unfold buildPart.
  set (e1 := if idx =? 0
             then mkEnv (owners e) (invalids e) (lastSurname e) (nth_error tokens 0)
             else e).
  assert (H1 : when (idx =? 0) (setLocalLastSurname (nth_error tokens 0)) e =
               Normal (tt, e1)).
  { unfold when, e1. destruct (idx =? 0); reflexivity. }
  assert (Ho : owners e1 = owners e) by (unfold e1; now destruct (idx =? 0)).
  assert (Hfb : (if 0 <? idx then orElse (localLastSurname e1) (lastSurname e1)
                 else None) = fallbackAt idx e).
  { unfold fallbackAt, e1. destruct idx; reflexivity. }
  unfold bind at 1. rewrite H1.
  unfold bind at 1. cbn [getLocalLastSurname].
  unfold bind at 1. cbn [getLastSurname].
  rewrite Hfb, blindSplitGuard_false.
  destruct (pushPersonOrInvalid_spec
              (buildPersonFromTokens tokens (fallbackAt idx e)) part e1)
    as [e' [Hr [Hown _]]].
  exists e'. split; [exact Hr|]. now rewrite Hown, Ho.
Qed.

Lemma length_chunksOfTwo_bounded n : forall rem,
  length rem <= n -> length (chunksOfTwo rem) = (length rem + 1) / 2.
Proof.
  induction n as [|n IH]; intros rem Hn.
  - destruct rem; [reflexivity|simpl in Hn; lia].
  - destruct rem as [|a [|b rem]]; [reflexivity|reflexivity|].
    cbn [chunksOfTwo length]. rewrite IH by (simpl in Hn; lia).
    replace (S (S (length rem)) + 1) with ((length rem + 1) + 1 * 2) by lia.
    rewrite Nat.div_add by lia. lia.
Qed.

Lemma length_chunksOfTwo rem : length (chunksOfTwo rem) = (length rem + 1) / 2.
Proof. apply (length_chunksOfTwo_bounded (length rem)). lia. Qed.

Lemma splitMultiplePersonsWithSharedLast_chunks tokens :
  Forall (fun t => goodToken t = true) tokens ->
  4 <= length tokens ->
  splitMultiplePersonsWithSharedLast tokens =
  map (personOfChunk (hd [] tokens)) (chunksOfTwo (tl tokens)).
Proof.
  intros Hg Hlen. unfold splitMultiplePersonsWithSharedLast.
  destruct (length tokens <? 4) eqn:E; [apply Nat.ltb_lt in E; lia|].
  destruct tokens as [|lastTok rem]; [simpl in Hlen; lia|].
  inversion Hg as [|? ? _ Hrem]; subst. cbn [hd tl].
  rewrite (splitLoop_chunks_bounded lastTok (length rem) rem []); [reflexivity|lia|].
  eapply Forall_impl; [|exact Hrem]. apply goodToken_nonEmpty.
Qed.

Lemma andPartCallback_exact andPartsLength part idx e :
  exists e',
    andPartCallback andPartsLength part idx e = Normal (tt, e') /\
    owners e' = owners e ++ pushedBy andPartsLength part idx e.
Proof.
  unfold andPartCallback, pushedBy.
  pose proof (tokenizeNamePart_good part) as Hgood.
  set (tokens := tokenizeNamePart part) in *.
  destruct (length tokens =? 0) eqn:E0.
  { exists e. split; [reflexivity|]. now rewrite app_nil_r. }
  assert (Hne : tokens <> []).
  { intro H. rewrite H in E0. discriminate. }
  destruct ((andPartsLength =? 1) && (4 <=? length tokens)) eqn:E1.
  - apply andb_true_iff in E1. destruct E1 as [_ E1]. apply Nat.leb_le in E1.
    rewrite (splitMultiplePersonsWithSharedLast_chunks tokens Hgood E1).
    assert (E2 : (2 <=? length (map (personOfChunk (hd [] tokens))
                                    (chunksOfTwo (tl tokens)))) = true).
    { apply Nat.leb_le. rewrite length_map, length_chunksOfTwo.
      destruct tokens as [|t0 rest]; [congruence|]. cbn [tl]. simpl in E1.
      assert (H4 : 4 <= length rest + 1) by lia.
      apply (Nat.Div0.div_le_mono _ _ 2) in H4.
      change (4 / 2) with 2 in H4. exact H4. }
    rewrite E2. unfold forEach, bind. rewrite forEachFrom_pushOwner.
    destruct tokens as [|t0 rest]; [congruence|].
    cbn [nth_error callToUpperCase ret setLastSurname owners].
    eexists. split; reflexivity.
  - destruct (buildPart_exact tokens part idx e Hne) as [e' [Hr Ho]].
    exists e'. split; [exact Hr|]. rewrite Ho.
    destruct (buildPersonFromTokens tokens (fallbackAt idx e)); simpl;
      [reflexivity|now rewrite app_nil_r].
Qed.

(** X6: one run of the callback of [andParts.forEach] completes normally and
    appends to [owners] exactly this: nothing when the sub-part has no
    token; for a sub-part that is alone in its segment and has four tokens
    or more, one person for each chunk of the shared-surname split (the
    build after it is never reached); otherwise the person built from the
    tokens, without a fallback surname at index 0 and with
    [localLastSurname || lastSurname] at a later index. *)
Theorem andPartCallback_pushes andPartsLength part idx e :
  exists e',
    andPartCallback andPartsLength part idx e = Normal (tt, e') /\
    owners e' = owners e ++ pushedBy andPartsLength part idx e.
Proof. apply andPartCallback_exact. Qed.

(** ** Where the owners of a result come from *)

Lemma In_chunksOfTwo_bounded n : forall rem chunk,
  length rem <= n -> In chunk (chunksOfTwo rem) ->
  (exists a, chunk = [a] /\ In a rem) \/
  (exists a b, chunk = [a; b] /\ In a rem /\ In b rem).
Proof.
  induction n as [|n IH]; intros rem chunk Hn Hin.
  - destruct rem; [destruct Hin|simpl in Hn; lia].
  - destruct rem as [|a [|b rem]].
    + destruct Hin.
    + destruct Hin as [<-|[]]. left. exists a. simpl. tauto.
    + cbn [chunksOfTwo] in Hin. destruct Hin as [<-|Hin].
      * right. exists a, b. simpl. tauto.
      * destruct (IH rem chunk) as [[x [E Hx]]|[x [y [E [Hx Hy]]]]];
          [simpl in Hn; lia|exact Hin| |].
        -- left. exists x. simpl. tauto.
        -- right. exists x, y. simpl. tauto.
Qed.

Lemma pushedBy_Produced n part idx e o :
  In o (pushedBy n part idx e) -> Produced o.
Proof.
  unfold pushedBy. pose proof (tokenizeNamePart_good part) as Hgood.
  set (tokens := tokenizeNamePart part) in *.
  destruct (length tokens =? 0); [intros []|].
  destruct ((n =? 1) && (4 <=? length tokens)).
  - intro Hin. apply in_map_iff in Hin. destruct Hin as [chunk [<- Hc]].
    destruct tokens as [|t0 rest]; [destruct Hc|]. cbn [hd tl] in *.
    inversion Hgood as [|? ? G0 Grest]; subst. rewrite Forall_forall in Grest.
    destruct (In_chunksOfTwo_bounded (length rest) rest chunk (le_n _) Hc)
      as [[a [-> Ha]]|[a [b [-> [Ha Hb]]]]].
    + apply (produced_person [t0; a] None); [|apply buildPersonFromTokens_two].
      repeat constructor; auto.
    + apply (produced_person [t0; a; b] None); [|apply buildPersonFromTokens_three].
      repeat constructor; auto.
  - destruct (buildPersonFromTokens tokens (fallbackAt idx e)) as [p|] eqn:E;
      simpl; [|tauto].
    intros [<-|[]]. now apply (produced_person tokens (fallbackAt idx e)).
Qed.

Lemma forEachFrom_andPartCallback_Produced n parts : forall idx e,
  Forall Produced (owners e) ->
  exists e',
    forEachFrom (andPartCallback n) idx parts e = Normal (tt, e') /\
    Forall Produced (owners e').
Proof.
  induction parts as [|part parts IH]; intros idx e H.
  - exists e. split; [reflexivity|exact H].
  - destruct (andPartCallback_exact n part idx e) as [e1 [H1 O1]].
    destruct (IH (S idx) e1) as [e2 [H2 G2]].
    + rewrite O1. apply Forall_app. split; [exact H|].
      apply Forall_forall. intros o. apply pushedBy_Produced.
    + exists e2. split; [|exact G2].
      cbn [forEachFrom]. unfold bind. rewrite H1. exact H2.
Qed.

Lemma pushOwnerOrInvalid_Produced segment e :
  Forall Produced (owners e) ->
  exists e',
    pushOwnerOrInvalid segment e = Normal (tt, e') /\ Forall Produced (owners e').
Proof.
  intro H. unfold pushOwnerOrInvalid.
  destruct (negb (nonEmpty (segmentText segment))).
  { exists e. split; [reflexivity|exact H]. }
  destruct (isCompanyName (segmentText segment)) eqn:Ec.
  { eexists. split; [reflexivity|]. cbn [owners]. apply Forall_app.
    split; [exact H|]. constructor; [|constructor]. now apply produced_company. }
  unfold bind at 1. cbn [setLocalLastSurname].
  apply forEachFrom_andPartCallback_Produced. exact H.
Qed.

Lemma forEachFrom_pushOwnerOrInvalid_Produced segments : forall idx e,
  Forall Produced (owners e) ->
  exists e',
    forEachFrom (fun seg (_ : nat) => pushOwnerOrInvalid seg) idx segments e
    = Normal (tt, e') /\
    Forall Produced (owners e').
Proof.
  induction segments as [|seg segments IH]; intros idx e H.
  - exists e. split; [reflexivity|exact H].
  - destruct (pushOwnerOrInvalid_Produced seg e H) as [e1 [H1 G1]].
    destruct (IH (S idx) e1 G1) as [e2 [H2 G2]].
    exists e2. split; [|exact G2].
    cbn [forEachFrom]. unfold bind. rewrite H1. exact H2.
Qed.

Lemma parseOwnersFromText_Produced rawText r :
  parseOwnersFromText rawText = Normal r -> Forall Produced (resultOwners r).
Proof.
  intro H. destruct (truthy_false_cases rawText) as [Hf|[s [-> Hs]]].
  - rewrite (parseOwnersFromText_null_or_empty _ Hf) in H.
    injection H as <-. constructor.
  - destruct (parseOwnersFromText_spec s) as [e [Ha [_ Hp]]].
    rewrite Hp in H. injection H as <-. cbn [resultOwners].
    destruct (forEachFrom_pushOwnerOrInvalid_Produced
                (commaSegmentsOf (inputText s)) 0 emptyEnv) as [e2 [H2 G2]];
      [constructor|].
    unfold accumulate, forEach in Ha. rewrite Ha in H2. injection H2 as <-.
    rewrite Forall_forall in *. intros o Ho. apply G2.
    now apply In_keepFirsts.
Qed.

(** ** C8: the middle name after the removal of suffixes *)

Lemma test_SUFFIXES_IGNORE_isSuffixToken t :
  test SUFFIXES_IGNORE t = isSuffixToken t.
Proof.
  apply eq_true_iff_eq. rewrite test_SUFFIXES_IGNORE.
  unfold isSuffixToken. rewrite existsb_exists. unfold sameIgnoringCase.
  split; intros [x [Hx H]]; exists x; split; try exact Hx.
  - apply streq_eq. exact H.
  - apply streq_eq in H. exact H.
Qed.

Lemma filter_isSuffixToken l :
  filter (fun t => negb (test SUFFIXES_IGNORE t)) l =
  filter (fun t => negb (isSuffixToken t)) l.
Proof.
  apply filter_ext. intro t. now rewrite test_SUFFIXES_IGNORE_isSuffixToken.
Qed.

Lemma middleNameOf_kept kept :
  Forall (fun t => goodToken t = true) kept ->
  middleNameOf (orNull (Some (join " " kept))) =
  match kept with
  | [] => None
  | _ :: _ => Some (titleCase (join " " kept))
  end.
Proof.
  intro H. destruct kept as [|x kept]; [reflexivity|].
  assert (Hn : nonEmpty (join " " (x :: kept)) = true).
  { apply nonEmpty_join, goodToken_nonEmpty. now inversion H. }
  rewrite (orNull_Some _ Hn). unfold middleNameOf. cbn [truthy orEmpty].
  now rewrite Hn.
Qed.

Lemma Forall_filter_good (p : jsstring -> bool) l :
  Forall (fun t => goodToken t = true) l ->
  Forall (fun t => goodToken t = true) (filter p l).
Proof.
  intro H. rewrite Forall_forall in *. intros t Ht.
  apply filter_In in Ht. now apply H.
Qed.

Lemma middleNameOf_stripSuffixes portion :
  portion <> [] -> Forall (fun t => goodToken t = true) portion ->
  middleNameOf (stripSuffixes (Some (join " " portion))) = strippedMiddle portion.
Proof.
  intros Hne H. rewrite (stripSuffixes_join portion Hne H).
  rewrite (middleNameOf_kept _ (Forall_filter_good _ _ H)).
  unfold strippedMiddle. rewrite filter_isSuffixToken.
  now destruct (filter (fun t => negb (isSuffixToken t)) portion).
Qed.

Lemma buildPersonFromTokens_stripped (t0 t1 : jsstring) rest fallbackLastName :
  Forall (fun t => goodToken t = true) (t0 :: t1 :: rest) ->
  buildPersonFromTokens (t0 :: t1 :: rest) fallbackLastName =
  Some (if surnameOmitted (t0 :: t1 :: rest) fallbackLastName
        then person (titleCase t0) (titleCase (orEmpty fallbackLastName))
                    (strippedMiddle [t1])
        else person (titleCase t1) (titleCase t0) (strippedMiddle rest)).
Proof.
  intro H. inversion H as [|? ? G0 H']. inversion H' as [|? ? G1 Hr]. subst.
  pose proof (goodToken_nonEmpty _ G1) as N1.
  unfold buildPersonFromTokens. cbn [length Nat.eqb nth_error skipn].
  rewrite (orNull_Some _ N1).
  destruct (surnameOmitted (t0 :: t1 :: rest) fallbackLastName); cbn [orEmpty].
  - f_equal. f_equal.
    change (Some t1) with (Some (join " " [t1])).
    apply middleNameOf_stripSuffixes; [discriminate|].
    constructor; [exact G1|constructor].
  - f_equal. f_equal. destruct rest as [|t2 rest]; [reflexivity|].
    change (2 <? length (t0 :: t1 :: t2 :: rest)) with true. cbn iota.
    apply middleNameOf_stripSuffixes; [discriminate|exact Hr].
Qed.

Lemma Produced_strippedMiddle first last middle :
  Produced (person first last middle) ->
  exists portion,
    Forall (fun t => goodToken t = true) portion /\
    middle = strippedMiddle portion.
Proof.
  intro H. inversion H as [tokens fb o Hgood Hb E|]; subst.
  destruct tokens as [|t0 [|t1 rest]]; try discriminate Hb.
  rewrite (buildPersonFromTokens_stripped t0 t1 rest fb Hgood) in Hb.
  inversion Hgood as [|? ? G0 H']. inversion H' as [|? ? G1 Hr]. subst.
  destruct (surnameOmitted (t0 :: t1 :: rest) fb); injection Hb as _ _ <-.
  - exists [t1]. split; [|reflexivity]. constructor; [exact G1|constructor].
  - exists rest. split; [exact Hr|reflexivity].
Qed.

(** C8: no person of a parse result has a middle name with a
    whitespace-delimited token equal, ignoring case, to one of jr, sr, ii,
    iii, iv, v, vi, vii, viii, ix, x, md, phd, esq, esquire, which are the
    strings the suffix pattern accepts.  The builder strips these tokens
    from the middle-name portion only: for every list of two tokens or more
    the first and the last name are the title-cased tokens, suffix or not,
    and the middle name is made of the tokens of the middle-name portion
    that are not suffixes, in their order, joined and title-cased, and is
    absent exactly when none remains; the middle name of every person of a
    parse result is made so.  So ["SMITH JOHN JR"] has no middle name,
    ["DOE JANE & SMITH JOHN JR ALLEN III"] keeps Allen alone, and a suffix
    in the place of the first name is kept. *)
Theorem middle_name_has_no_suffix :
  (forall rawText r first last middle w x,
     parseOwnersFromText rawText = Normal r ->
     In (person first last (Some middle)) (resultOwners r) ->
     In w (wsWords middle) ->
     In x suffixWords ->
     ~ sameIgnoringCase w x) /\
  (forall w,
     test SUFFIXES_IGNORE w = true <->
     exists x, In x suffixWords /\ sameIgnoringCase w x) /\
  parseOwnersFromText (Some (str "SMITH JOHN JR")) =
  Normal (mkResult [ person "John" "Smith" None ] []) /\
  parseOwnersFromText (Some (str "SMITH JOHN ALLEN PHD")) =
  Normal (mkResult [ person "John" "Smith" (Some (str "Allen"));
                     person "Phd" "Smith" None ] []) /\
  parseOwnersFromText (Some (str "SMITH JR")) =
  Normal (mkResult [ person "Jr" "Smith" None ] []) /\
  (forall (t0 t1 : jsstring) rest fallbackLastName,
     Forall (fun t => goodToken t = true) (t0 :: t1 :: rest) ->
     buildPersonFromTokens (t0 :: t1 :: rest) fallbackLastName =
     Some (if surnameOmitted (t0 :: t1 :: rest) fallbackLastName
           then person (titleCase t0) (titleCase (orEmpty fallbackLastName))
                       (strippedMiddle [t1])
           else person (titleCase t1) (titleCase t0) (strippedMiddle rest))) /\
  (forall portion,
     strippedMiddle portion = None <->
     Forall (fun t => isSuffixToken t = true) portion) /\
  (forall t, test SUFFIXES_IGNORE t = isSuffixToken t) /\
  (forall rawText r first last middle,
     parseOwnersFromText rawText = Normal r ->
     In (person first last middle) (resultOwners r) ->
     exists portion,
       Forall (fun t => goodToken t = true) portion /\
       middle = strippedMiddle portion) /\
  parseOwnersFromText (Some (str "DOE JANE & SMITH JOHN JR ALLEN III")) =
  Normal (mkResult [ person "Jane" "Doe" None;
                     person "John" "Smith" (Some (str "Allen")) ] []).
Proof.
  split; [|split; [exact test_SUFFIXES_IGNORE|]].
  { intros rawText r first last middle w x H Hin Hw Hx Hsame.
    assert (Ht : test SUFFIXES_IGNORE w = true).
    { apply test_SUFFIXES_IGNORE. exists x. tauto. }
    destruct (truthy_false_cases rawText) as [Hf|[s [-> Hs]]].
    - rewrite (parseOwnersFromText_null_or_empty _ Hf) in H.
      injection H as <-. destruct Hin.
    - destruct (parseOwnersFromText_spec s) as [e [_ [Hg Hp]]].
      rewrite Hp in H. injection H as <-. cbn [resultOwners] in Hin.
      apply In_keepFirsts in Hin. rewrite Forall_forall in Hg.
      specialize (Hg _ Hin). cbn [goodOwner goodMiddle] in Hg.
      apply andb_true_iff in Hg. destruct Hg as [_ Hg].
      apply andb_true_iff in Hg. destruct Hg as [_ Hg].
      unfold noSuffixWord in Hg. rewrite forallb_forall in Hg.
      specialize (Hg w Hw). rewrite Ht in Hg. discriminate Hg. }
  split; [vm_compute; reflexivity|].
  split; [vm_compute; reflexivity|].
  split; [vm_compute; reflexivity|].
  split; [exact buildPersonFromTokens_stripped|].
  split.
  { intro portion. unfold strippedMiddle. split.
    - intro H. apply Forall_forall. intros t Ht.
      destruct (isSuffixToken t) eqn:E; [reflexivity|].
      assert (Hk : In t (filter (fun t => negb (isSuffixToken t)) portion)).
      { apply filter_In. split; [exact Ht|]. now rewrite E. }
      destruct (filter (fun t => negb (isSuffixToken t)) portion);
        [destruct Hk|discriminate H].
    - intro H. rewrite Forall_forall in H.
      destruct (filter (fun t => negb (isSuffixToken t)) portion) as [|k kept] eqn:E;
        [reflexivity|].
      assert (Hk : In k (filter (fun t => negb (isSuffixToken t)) portion))
        by (rewrite E; now left).
      apply filter_In in Hk. destruct Hk as [Hk1 Hk2].
      rewrite (H k Hk1) in Hk2. discriminate Hk2. }
  split; [exact test_SUFFIXES_IGNORE_isSuffixToken|].
  split; [|vm_compute; reflexivity].
  intros rawText r first last middle H Hin.
  apply Produced_strippedMiddle with (first := first) (last := last).
  pose proof (parseOwnersFromText_Produced rawText r H) as Hp.
  rewrite Forall_forall in Hp. now apply Hp.
Qed.

Lemma middle_name_has_no_suffix_witness :
  ~ sameIgnoringCase "Ray" "jr" /\
  buildPersonFromTokens [str "SMITH"; str "JOHN"; str "JR"; str "ALLEN"; str "III"]
                        None =
  Some (person "John" "Smith" (Some (str "Allen"))).
Proof.
  split.
  - apply (proj1 middle_name_has_no_suffix
             (Some (str "SMITH JOHN ALLEN, JONES MARY RAY"))
             (mkResult [ person "John" "Smith" (Some (str "Allen"));
                         person "Mary" "Jones" (Some (str "Ray")) ] [])
             "Mary" "Jones" "Ray" "Ray" "jr").
    + vm_compute. reflexivity.
    + simpl. right. left. reflexivity.
    + vm_compute. left. reflexivity.
    + unfold suffixWords. simpl. tauto.
  - apply (proj1 (proj2 (proj2 (proj2 (proj2 (proj2 middle_name_has_no_suffix)))))
             (str "SMITH") (str "JOHN") [str "JR"; str "ALLEN"; str "III"] None).
    repeat constructor.
Defined.

(** ** The shape of the owners of a result *)

Lemma titleCase_titled y :
  nonEmpty y = true -> titleCase y <> [] /\ titleCase (titleCase y) = titleCase y.
Proof.
  intro H. split; [|apply titleCaseFrom_idempotent].
  intro E. apply (f_equal (@length ascii)) in E.
  unfold titleCase in E.
  rewrite <- (length_map canonicalize), titleCaseFrom_canonicalize, length_map in E.
  destruct y; [discriminate H|discriminate E].
Qed.

Lemma middleNameOf_titled m x :
  middleNameOf m = Some x -> x <> [] /\ titleCase x = x.
Proof.
  unfold middleNameOf. destruct (truthy m) eqn:E; [|discriminate].
  intro H. injection H as <-. apply titleCase_titled.
  destruct m as [y|]; [exact E|discriminate E].
Qed.

Lemma surnameOmitted_truthy tokens fallbackLastName :
  surnameOmitted tokens fallbackLastName = true -> truthy fallbackLastName = true.
Proof.
  unfold surnameOmitted. intro H.
  repeat (apply andb_true_iff in H; destruct H as [H _]). exact H.
Qed.

Lemma Produced_wellFormedOwner o : Produced o -> wellFormedOwner o.
Proof.
  intros [tokens fb p Hgood Hb|seg Hc].
  - unfold buildPersonFromTokens in Hb.
    destruct tokens as [|t0 [|t1 rest]]; try discriminate.
    cbn [length Nat.eqb nth_error] in Hb.
    inversion Hgood as [|? ? G0 H']. inversion H' as [|? ? G1 _]. subst.
    pose proof (goodToken_nonEmpty _ G0) as N0.
    pose proof (goodToken_nonEmpty _ G1) as N1.
    rewrite (orNull_Some _ N1) in Hb.
    destruct (surnameOmitted (t0 :: t1 :: rest) fb) eqn:Eo;
      injection Hb as <-; cbn [wellFormedOwner orEmpty].
    + apply surnameOmitted_truthy in Eo.
      assert (Nf : nonEmpty (orEmpty fb) = true).
      { destruct fb; [exact Eo|discriminate Eo]. }
      destruct (titleCase_titled t0 N0) as [A1 A2].
      destruct (titleCase_titled _ Nf) as [B1 B2].
      repeat split; auto.
      * intro E. apply middleNameOf_titled in E. tauto.
      * intros x E. apply middleNameOf_titled in E. tauto.
    + destruct (titleCase_titled t1 N1) as [A1 A2].
      destruct (titleCase_titled t0 N0) as [B1 B2].
      repeat split; auto.
      * intro E. apply middleNameOf_titled in E. tauto.
      * intros x E. apply middleNameOf_titled in E. tauto.
  - cbn [wellFormedOwner].
    destruct (titleCase_titled seg (blank_nonEmpty _ (isCompanyName_nonblank _ Hc)))
      as [A1 A2].
    repeat split; auto.
    rewrite <- Hc. apply test_canonicalize, titleCaseFrom_canonicalize.
Qed.

(** X7: every owner of a parse result is well formed: a person has a
    non-empty first name and a non-empty last name, both in title case, and
    a middle name that is absent or non-empty and in title case; a company
    has a non-empty name in title case that [isCompanyName] accepts. *)
Theorem result_owners_well_formed rawText r o :
  parseOwnersFromText rawText = Normal r ->
  In o (resultOwners r) ->
  wellFormedOwner o.
Proof.
  intros H Hin. apply Produced_wellFormedOwner.
  pose proof (parseOwnersFromText_Produced rawText r H) as Hp.
  rewrite Forall_forall in Hp. now apply Hp.
Qed.

Lemma result_owners_well_formed_witness :
  wellFormedOwner (person "Mary" "Smith" (Some (str "Ann"))).
Proof.
  apply (result_owners_well_formed
           (Some (str "SMITH JOHN & MARY ANN"))
           (mkResult [ person "John" "Smith" None;
                       person "Mary" "Smith" (Some (str "Ann")) ] [])).
  - vm_compute. reflexivity.
  - simpl. right. left. reflexivity.
Defined.

(** ** When the fallback surname is used *)

Lemma toUpperCaseCodes_cons (c : ascii) :
  toUpperCaseCodes c = hd 0 (toUpperCaseCodes c) :: tl (toUpperCaseCodes c).
Proof. all_units c. Qed.

Lemma toUpperCaseCodes_hasCapital (c : ascii) :
  (hasCapital c = false /\ toUpperCaseCodes c = [code c]) \/
  (hasCapital c = true /\ (hd 0 (toUpperCaseCodes c) =? code c) = false).
Proof. all_units c. Qed.

Lemma isUpperCased_forallb t :
  isUpperCased t = forallb (fun c => negb (hasCapital c)) t.
Proof.
  unfold isUpperCased. induction t as [|c t IH]; [reflexivity|].
  cbn [map flat_map forallb].
  destruct (toUpperCaseCodes_hasCapital c) as [[E1 E2]|[E1 E2]]; rewrite E1.
  - rewrite E2. cbn [app sameCodes negb andb]. now rewrite Nat.eqb_refl.
  - rewrite (toUpperCaseCodes_cons c). cbn [app sameCodes negb andb].
    rewrite Nat.eqb_sym, E2. reflexivity.
Qed.

Lemma buildPersonFromTokens_no_override tokens fallbackLastName :
  surnameOmitted tokens fallbackLastName = false ->
  buildPersonFromTokens tokens fallbackLastName = buildPersonFromTokens tokens None.
Proof.
  intro H. unfold buildPersonFromTokens. rewrite H.
  assert (H0 : surnameOmitted tokens None = false) by reflexivity.
  now rewrite H0.
Qed.

(** X8: the fallback surname changes the person built only for exactly two
    tokens whose first is equal to its upper-case form, that is, holds no
    unit that [toUpperCase] changes: a-z, the micro sign and
    U+00DF..U+00FF but the division sign.  With three tokens or more, or
    with such a unit in the first token, the person is the one built
    without fallback; with two non-empty tokens, no such unit in the first,
    and a non-empty fallback, the first token is the first name, the second
    the middle-name portion and the fallback the last name. *)
Theorem fallback_surname_use :
  (forall t, isUpperCased t = forallb (fun c => negb (hasCapital c)) t) /\
  (forall tokens fallbackLastName,
     3 <= length tokens ->
     buildPersonFromTokens tokens fallbackLastName =
     buildPersonFromTokens tokens None) /\
  (forall (tokens : list jsstring) fallbackLastName (t0 : jsstring) c,
     nth_error tokens 0 = Some t0 -> In c t0 -> hasCapital c = true ->
     buildPersonFromTokens tokens fallbackLastName =
     buildPersonFromTokens tokens None) /\
  (forall t0 t1 fallback,
     nonEmpty t0 = true -> nonEmpty t1 = true -> nonEmpty fallback = true ->
     forallb (fun c => negb (hasCapital c)) t0 = true ->
     buildPersonFromTokens [t0; t1] (Some fallback) =
     Some (person (titleCase t0) (titleCase fallback)
                  (middleNameOf (stripSuffixes (Some t1))))).
Proof.
  split; [exact isUpperCased_forallb|]. split; [|split].
  - intros tokens fb H. apply buildPersonFromTokens_no_override.
    unfold surnameOmitted.
    destruct tokens as [|a [|b [|c r]]]; simpl in H; try lia.
    cbn [length Nat.leb]. now rewrite andb_false_r.
  - intros tokens fb t0 c H0 Hin Hc. apply buildPersonFromTokens_no_override.
    unfold surnameOmitted. rewrite H0. cbn [orEmpty].
    assert (E : isUpperCased t0 = false).
    { rewrite isUpperCased_forallb.
      destruct (forallb (fun c => negb (hasCapital c)) t0) eqn:F; [|reflexivity].
      rewrite forallb_forall in F. specialize (F c Hin).
      rewrite Hc in F. discriminate F. }
    rewrite E. now rewrite andb_false_r.
  - intros t0 t1 fb N0 N1 Nf Hup. unfold buildPersonFromTokens, surnameOmitted.
    cbn [length Nat.eqb Nat.leb nth_error truthy orEmpty].
    rewrite N0, N1, Nf, isUpperCased_forallb, Hup. cbn [andb].
    now rewrite (orNull_Some _ N1).
Qed.

Lemma fallback_surname_use_witness :
  buildPersonFromTokens [str "MARY"; str "ANN"; str "LEE"] (Some (str "SMITH")) =
  buildPersonFromTokens [str "MARY"; str "ANN"; str "LEE"] None /\
  buildPersonFromTokens [str "Mary"; str "Ann"] (Some (str "SMITH")) =
  buildPersonFromTokens [str "Mary"; str "Ann"] None /\
  buildPersonFromTokens [[ascii_of_nat 255]; str "B"] (Some (str "SMITH")) =
  buildPersonFromTokens [[ascii_of_nat 255]; str "B"] None /\
  buildPersonFromTokens [str "MARY"; str "ANN"] (Some (str "SMITH")) =
  Some (person "Mary" "Smith" (Some (str "Ann"))).
Proof.
  split; [|split; [|split]].
  - apply (proj1 (proj2 fallback_surname_use)). simpl. lia.
  - apply (proj1 (proj2 (proj2 fallback_surname_use)) _ _ (str "Mary") "a"%char);
      [reflexivity|simpl; tauto|reflexivity].
  - apply (proj1 (proj2 (proj2 fallback_surname_use)) _ _
             [ascii_of_nat 255] (ascii_of_nat 255));
      [reflexivity|simpl; tauto|reflexivity].
  - apply (proj2 (proj2 (proj2 fallback_surname_use))
             (str "MARY") (str "ANN") (str "SMITH"));
      reflexivity.
Defined.

(** ** The deduplication done again by the callers *)

Lemma existsb_streq_false k seen : existsb (streq k) seen = false <-> ~ In k seen.
Proof.
  split.
  - intros H Hin. apply existsb_streq in Hin. congruence.
  - intro H. destruct (existsb (streq k) seen) eqn:E; [|reflexivity].
    apply existsb_streq in E. contradiction.
Qed.

Lemma dedupByKeyFrom_sound os : forall seen,
  NoDup (map normalizeOwnerKey (dedupByKeyFrom seen os)) /\
  (forall o, In o (dedupByKeyFrom seen os) ->
     In o os /\ nonEmpty (normalizeOwnerKey o) = true /\
     ~ In (normalizeOwnerKey o) seen).
Proof.
  induction os as [|x os IH]; intro seen; cbn [dedupByKeyFrom].
  - split; [constructor|intros o []].
  - destruct (nonEmpty (normalizeOwnerKey x)) eqn:En; cbn [negb orb].
    + destruct (existsb (streq (normalizeOwnerKey x)) seen) eqn:Es.
      * destruct (IH seen) as [H1 H2]. split; [exact H1|].
        intros o Ho. destruct (H2 o Ho) as [A [B C]]. simpl. tauto.
      * destruct (IH (normalizeOwnerKey x :: seen)) as [H1 H2]. split.
        -- cbn [map]. constructor; [|exact H1].
           intro Hin. apply in_map_iff in Hin. destruct Hin as [o [Ek Ho]].
           destruct (H2 o Ho) as [_ [_ C]]. apply C. left. now symmetry.
        -- intros o [<-|Ho].
           ++ split; [now left|]. split; [exact En|].
              now apply existsb_streq_false.
           ++ destruct (H2 o Ho) as [A [B C]]. split; [now right|].
              split; [exact B|]. intro Hin. apply C. now right.
    + destruct (IH seen) as [H1 H2]. split; [exact H1|].
      intros o Ho. destruct (H2 o Ho) as [A [B C]]. simpl. tauto.
Qed.

Lemma dedupByKeyFrom_fixed os : forall seen,
  NoDup (map normalizeOwnerKey os) ->
  (forall o, In o os ->
     nonEmpty (normalizeOwnerKey o) = true /\ ~ In (normalizeOwnerKey o) seen) ->
  dedupByKeyFrom seen os = os.
Proof.
  induction os as [|x os IH]; intros seen Hnd H; [reflexivity|].
  cbn [dedupByKeyFrom]. destruct (H x (or_introl eq_refl)) as [En Hs].
  rewrite En. apply existsb_streq_false in Hs. rewrite Hs. cbn [negb orb].
  f_equal. cbn [map] in Hnd. inversion Hnd as [|? ? Hx Hnd']; subst.
  apply IH; [exact Hnd'|]. intros o Ho.
  destruct (H o (or_intror Ho)) as [A B]. split; [exact A|].
  intros [E|Hin]; [|contradiction].
  apply Hx. rewrite E. now apply in_map.
Qed.

Lemma dedupFrom_dedupByKeyFrom os : forall seen,
  dedupFrom seen os = map nullifyEmptyMiddle (dedupByKeyFrom seen os).
Proof.
  induction os as [|x os IH]; intro seen; [reflexivity|].
  cbn [dedupFrom dedupByKeyFrom].
  destruct (negb (nonEmpty (normalizeOwnerKey x))
            || existsb (streq (normalizeOwnerKey x)) seen).
  - apply IH.
  - cbn [map]. now rewrite IH.
Qed.

Lemma dedupByKeyFrom_covers os : forall seen o,
  In o os -> nonEmpty (normalizeOwnerKey o) = true ->
  In (normalizeOwnerKey o) seen \/
  In (normalizeOwnerKey o) (map normalizeOwnerKey (dedupByKeyFrom seen os)).
Proof.
  induction os as [|x os IH]; intros seen o Hin Hne; [destruct Hin|].
  cbn [dedupByKeyFrom]. destruct Hin as [->|Hin].
  - rewrite Hne. cbn [negb orb].
    destruct (existsb (streq (normalizeOwnerKey o)) seen) eqn:Es.
    + left. now apply existsb_streq.
    + right. now left.
  - destruct (negb (nonEmpty (normalizeOwnerKey x))
              || existsb (streq (normalizeOwnerKey x)) seen).
    + now apply IH.
    + destruct (IH (normalizeOwnerKey x :: seen) o Hin Hne) as [[E|H]|H].
      * right. left. exact E.
      * now left.
      * right. now right.
Qed.

(** X9: the loop with which the callers deduplicate owners returns owners
    of the list with pairwise distinct, non-empty keys, represents every
    non-empty key of the list, is idempotent, and is the deduplication of
    the parser without the reset of blank middle names. *)
Theorem dedupByKey_properties os :
  NoDup (map normalizeOwnerKey (dedupByKey os)) /\
  (forall o, In o (dedupByKey os) -> In o os /\ normalizeOwnerKey o <> []) /\
  (forall o, In o os -> normalizeOwnerKey o <> [] ->
     In (normalizeOwnerKey o) (map normalizeOwnerKey (dedupByKey os))) /\
  dedupByKey (dedupByKey os) = dedupByKey os /\
  dedup os = map nullifyEmptyMiddle (dedupByKey os).
Proof.
  unfold dedupByKey, dedup. destruct (dedupByKeyFrom_sound os []) as [H1 H2].
  split; [exact H1|]. split; [|split; [|split]].
  - intros o Ho. destruct (H2 o Ho) as [A [B _]]. split; [exact A|].
    intro E. rewrite E in B. discriminate.
  - intros o Ho Hne.
    destruct (dedupByKeyFrom_covers os [] o Ho) as [[]|H]; [|exact H].
    destruct (normalizeOwnerKey o); [congruence|reflexivity].
  - apply dedupByKeyFrom_fixed; [exact H1|].
    intros o Ho. destruct (H2 o Ho) as [_ [B _]]. split; [exact B|intros []].
  - apply dedupFrom_dedupByKeyFrom.
Qed.

Lemma dedupByKey_properties_witness :
  In (str "john smith")
     (map normalizeOwnerKey
        (dedupByKey [ person "John" "Smith" None; person "JOHN" "SMITH" None ])).
Proof.
  apply (proj1 (proj2 (proj2 (dedupByKey_properties
           [ person "John" "Smith" None; person "JOHN" "SMITH" None ])))
           (person "JOHN" "SMITH" None)).
  - simpl. tauto.
  - vm_compute. discriminate.
Defined.

(** X10: deduplicating the owners of a parse result once more, as the
    callers do at lines 355-362 and 379-385, returns them unchanged. *)
Theorem dedupByKey_of_result rawText r :
  parseOwnersFromText rawText = Normal r ->
  dedupByKey (resultOwners r) = resultOwners r.
Proof.
  intro H. unfold dedupByKey.
  destruct (truthy_false_cases rawText) as [Hf|[s [-> Hs]]].
  - rewrite (parseOwnersFromText_null_or_empty _ Hf) in H. now injection H as <-.
  - destruct (parseOwnersFromText_spec s) as [e [_ [Hg Hp]]].
    rewrite Hp in H. injection H as <-. cbn [resultOwners].
    apply dedupByKeyFrom_fixed; [apply keepFirsts_NoDup|].
    intros o Ho. apply In_keepFirsts in Ho. rewrite Forall_forall in Hg.
    split; [|intros []]. now apply normalizeOwnerKey_nonEmpty, Hg.
Qed.

Lemma dedupByKey_of_result_witness :
  dedupByKey [ person "John" "Smith" None; person "Mary" "Jones" None ] =
  [ person "John" "Smith" None; person "Mary" "Jones" None ].
Proof.
  apply (dedupByKey_of_result
           (Some (str "SMITH JOHN, JONES MARY, smith john"))
           (mkResult [ person "John" "Smith" None; person "Mary" "Jones" None ] [])).
  vm_compute. reflexivity.
Defined.

(** ** Keys ignore case *)

Lemma toLowerCase_idempotent s : toLowerCase (toLowerCase s) = toLowerCase s.
Proof.
  unfold toLowerCase. rewrite map_map. apply map_ext.
  apply toLowerCaseUnit_idempotent.
Qed.

Lemma toLowerCaseUnit_space : toLowerCaseUnit " " = " "%char.
Proof. reflexivity. Qed.

Section MapUnits.

Variable f : ascii -> ascii.
Hypothesis f_isSpace : forall c, isSpace (f c) = isSpace c.

Lemma dropWhile_map s : dropWhile isSpace (map f s) = map f (dropWhile isSpace s).
Proof.
  induction s as [|c s IH]; simpl; [reflexivity|].
  rewrite f_isSpace. destruct (isSpace c); [exact IH|reflexivity].
Qed.

Lemma trim_map s : trim (map f s) = map f (trim s).
Proof.
  unfold trim. now rewrite dropWhile_map, <- map_rev, dropWhile_map, map_rev.
Qed.

Lemma replaceRunsFrom_map cls s : forall b,
  (forall c, cls (f c) = cls c) -> f " " = " "%char ->
  replaceRunsFrom cls " " b (map f s) = map f (replaceRunsFrom cls " " b s).
Proof.
  intros b Hcls Hsp. revert b. induction s as [|c s IH]; intro b; [reflexivity|].
  cbn [map replaceRunsFrom]. rewrite Hcls. destruct (cls c).
  - destruct b; [apply IH|]. rewrite IH. simpl. now rewrite Hsp.
  - cbn [map]. now rewrite IH.
Qed.

Lemma cleanText_map s :
  f " " = " "%char -> cleanText (Some (map f s)) = map f (cleanText (Some s)).
Proof.
  intro Hsp. unfold cleanText, replaceRuns. cbn [orEmpty].
  rewrite (replaceRunsFrom_map isSpace s false f_isSpace Hsp).
  rewrite replaceRunsFrom_map; [apply trim_map| |exact Hsp].
  intro c. now rewrite !isNbspOrSpace_isSpace.
Qed.

Lemma join_map l :
  f " " = " "%char -> join " " (map (map f) l) = map f (join " " l).
Proof.
  intro Hsp. induction l as [|x l IH]; [reflexivity|].
  destruct l as [|y l]; [reflexivity|].
  change (map (map f) (x :: y :: l)) with (map f x :: map (map f) (y :: l)).
  change (join " " (map f x :: map (map f) (y :: l)))
    with (map f x ++ " "%char :: join " " (map (map f) (y :: l))).
  change (join " " (x :: y :: l)) with (x ++ " "%char :: join " " (y :: l)).
  rewrite IH, map_app. simpl. now rewrite Hsp.
Qed.

Lemma filterBoolean_map l :
  filterBoolean (map (map f) l) = map (map f) (filterBoolean l).
Proof.
  unfold filterBoolean. induction l as [|x l IH]; [reflexivity|].
  cbn [map filter]. assert (E : nonEmpty (map f x) = nonEmpty x) by now destruct x.
  rewrite E. destruct (nonEmpty x); cbn [map]; now rewrite IH.
Qed.

End MapUnits.

Lemma normalizeOwnerKey_lowerCaseOwner o :
  normalizeOwnerKey (lowerCaseOwner o) = normalizeOwnerKey o.
Proof.
  destruct o as [first last middle|name]; cbn [lowerCaseOwner normalizeOwnerKey].
  - cbn [orEmpty]. rewrite !toLowerCase_idempotent.
    destruct middle as [m|]; cbn [option_map orEmpty];
      [now rewrite toLowerCase_idempotent|reflexivity].
  - change (toLowerCase name) with (map toLowerCaseUnit name).
    rewrite (cleanText_map toLowerCaseUnit isSpace_toLowerCaseUnit)
      by reflexivity.
    apply toLowerCase_idempotent.
Qed.

Lemma toLowerCase_normalizeOwnerKey o :
  toLowerCase (normalizeOwnerKey o) = normalizeOwnerKey o.
Proof.
  destruct o as [first last middle|name]; cbn [normalizeOwnerKey].
  - unfold toLowerCase at 1.
    rewrite <- (trim_map toLowerCaseUnit isSpace_toLowerCaseUnit).
    rewrite <- (join_map toLowerCaseUnit _ toLowerCaseUnit_space).
    rewrite <- filterBoolean_map. cbn [map].
    fold (toLowerCase (toLowerCase (orEmpty (Some first)))).
    fold (toLowerCase (toLowerCase (orEmpty middle))).
    fold (toLowerCase (toLowerCase (orEmpty (Some last)))).
    now rewrite !toLowerCase_idempotent.
  - apply toLowerCase_idempotent.
Qed.

(** X11: a key is in lower case, and the key of an owner does not depend on
    the case of its fields: two owners that become equal when their fields
    are put in lower case have the same key, so deduplication ignores
    case. *)
Theorem normalizeOwnerKey_ignores_case :
  (forall o, toLowerCase (normalizeOwnerKey o) = normalizeOwnerKey o) /\
  (forall o, normalizeOwnerKey (lowerCaseOwner o) = normalizeOwnerKey o) /\
  (forall o1 o2,
     lowerCaseOwner o1 = lowerCaseOwner o2 ->
     normalizeOwnerKey o1 = normalizeOwnerKey o2).
Proof.
  split; [exact toLowerCase_normalizeOwnerKey|].
  split; [exact normalizeOwnerKey_lowerCaseOwner|].
  intros o1 o2 H.
  rewrite <- (normalizeOwnerKey_lowerCaseOwner o1), H.
  apply normalizeOwnerKey_lowerCaseOwner.
Qed.

Lemma normalizeOwnerKey_ignores_case_witness :
  normalizeOwnerKey (person "John" "Smith" None) =
  normalizeOwnerKey (person "JOHN" "SMITH" None).
Proof.
  apply (proj2 (proj2 normalizeOwnerKey_ignores_case)). reflexivity.
Defined.

(** ** Sale dates *)

Lemma takeDigits_spec n : forall s d r,
  takeDigits n s = (d, r) ->
  s = d ++ r /\ forallb isDigit d = true /\ length d <= n /\
  (length d < n -> notDigitHead r).
Proof.
  induction n as [|n IH]; intros s d r H.
  - cbn [takeDigits] in H. injection H as <- <-. simpl. repeat split; lia.
  - destruct s as [|c s].
    + cbn [takeDigits] in H. injection H as <- <-. simpl. repeat split; lia.
    + cbn [takeDigits] in H. destruct (isDigit c) eqn:Ec.
      * destruct (takeDigits n s) as [d' r'] eqn:E.
        injection H as <- <-. destruct (IH _ _ _ E) as [A [B [C D]]].
        subst s. cbn [forallb length]. rewrite Ec, B.
        repeat split; [lia|]. intro L. apply D. lia.
      * injection H as <- <-. simpl. repeat split; try lia. intros _. exact Ec.
Qed.

Lemma takeDigits_app n : forall d r,
  forallb isDigit d = true -> length d <= n ->
  (length d < n -> notDigitHead r) ->
  takeDigits n (d ++ r) = (d, r).
Proof.
  induction n as [|n IH]; intros d r Hd Hl Hr.
  - destruct d; [reflexivity|simpl in Hl; lia].
  - destruct d as [|c d].
    + cbn [app]. destruct r as [|c r]; [reflexivity|].
      cbn [takeDigits]. assert (Hc : isDigit c = false) by (apply Hr; simpl; lia).
      now rewrite Hc.
    + cbn [forallb] in Hd. apply andb_true_iff in Hd. destruct Hd as [Hc Hd].
      cbn [app takeDigits]. rewrite Hc.
      rewrite (IH d r Hd); [reflexivity|simpl in Hl; lia|].
      intro L. apply Hr. simpl. lia.
Qed.

Lemma notDigitHead_slash r : notDigitHead ("/"%char :: r).
Proof. reflexivity. Qed.

Lemma length_nonEmpty (s : jsstring) : nonEmpty s = true <-> 1 <= length s.
Proof.
  destruct s; simpl; split; intro H; try reflexivity; try discriminate; lia.
Qed.

Lemma matchSaleDate_iff dateText g1 g2 g3 :
  matchSaleDate dateText = Some (g1, g2, g3) <->
  dateText = g1 ++ str "/" ++ g2 ++ str "/" ++ g3 /\
  forallb isDigit g1 = true /\ forallb isDigit g2 = true /\
  forallb isDigit g3 = true /\
  1 <= length g1 <= 2 /\ 1 <= length g2 <= 2 /\ length g3 = 4.
Proof.
  split.
  - unfold matchSaleDate.
    destruct (takeDigits 2 dateText) as [a r1] eqn:E1.
    destruct (nonEmpty a) eqn:Na; [|discriminate].
    destruct r1 as [|c1 r2]; [discriminate|].
    destruct (Ascii.eqb c1 "/") eqn:Ec1; [|discriminate].
    destruct (takeDigits 2 r2) as [b r3] eqn:E2.
    destruct (nonEmpty b) eqn:Nb; [|discriminate].
    destruct r3 as [|c2 r4]; [discriminate|].
    destruct (Ascii.eqb c2 "/") eqn:Ec2; [|discriminate].
    destruct (takeDigits 4 r4) as [y r5] eqn:E3.
    destruct ((length y =? 4) && negb (nonEmpty r5)) eqn:Ey; [|discriminate].
    intro H. injection H as <- <- <-.
    apply Ascii.eqb_eq in Ec1, Ec2. subst c1 c2.
    apply andb_true_iff in Ey. destruct Ey as [Ly Ny].
    apply Nat.eqb_eq in Ly. apply negb_true_iff, nonEmpty_false in Ny. subst r5.
    destruct (takeDigits_spec _ _ _ _ E1) as [A1 [B1 [C1 _]]].
    destruct (takeDigits_spec _ _ _ _ E2) as [A2 [B2 [C2 _]]].
    destruct (takeDigits_spec _ _ _ _ E3) as [A3 [B3 _]].
    apply length_nonEmpty in Na, Nb.
    subst dateText r2 r4. rewrite app_nil_r.
    repeat split; try assumption.
  - intros [-> [D1 [D2 [D3 [[L1 L1'] [[L2 L2'] L3]]]]]].
    unfold matchSaleDate. cbn [str list_ascii_of_string app].
    rewrite (takeDigits_app 2 g1 _ D1 L1' (fun _ => notDigitHead_slash _)).
    apply length_nonEmpty in L1. rewrite L1. cbn [Ascii.eqb Bool.eqb].
    rewrite (takeDigits_app 2 g2 _ D2 L2' (fun _ => notDigitHead_slash _)).
    apply length_nonEmpty in L2. rewrite L2. cbn [Ascii.eqb Bool.eqb].
    rewrite <- (app_nil_r g3) at 1.
    rewrite (takeDigits_app 4 g3 [] D3); [|lia|intros _; exact I].
    rewrite L3. reflexivity.
Qed.

Lemma padStart2_digits g :
  forallb isDigit g = true -> 1 <= length g <= 2 ->
  exists a b, padStart2 g = [a; b] /\ isDigit a = true /\ isDigit b = true.
Proof.
  intros D [L1 L2]. destruct g as [|a [|b [|c g]]]; simpl in L1, L2; try lia.
  - exists "0"%char, a. cbn [forallb] in D. rewrite andb_true_r in D.
    split; [reflexivity|]. split; [reflexivity|exact D].
  - exists a, b. cbn [forallb] in D. rewrite andb_true_r in D.
    apply andb_true_iff in D. destruct D. repeat split; assumption.
Qed.

Lemma padStart2_fixed g : 2 <= length g -> padStart2 g = g.
Proof.
  intro L. unfold padStart2. replace (2 - length g) with 0 by lia. reflexivity.
Qed.

Lemma normalizeSaleDate_isIsoDate dateText d :
  normalizeSaleDate dateText = Some d -> isIsoDate d = true.
Proof.
  unfold normalizeSaleDate.
  destruct (matchSaleDate dateText) as [[[g1 g2] g3]|] eqn:E; [|discriminate].
  intro H. injection H as <-.
  apply matchSaleDate_iff in E.
  destruct E as [_ [D1 [D2 [D3 [L1 [L2 L3]]]]]].
  destruct (padStart2_digits g1 D1 L1) as [m1 [m2 [-> [Hm1 Hm2]]]].
  destruct (padStart2_digits g2 D2 L2) as [d1 [d2 [-> [Hd1 Hd2]]]].
  destruct g3 as [|y1 [|y2 [|y3 [|y4 [|y5 g3]]]]]; try discriminate L3.
  cbn [forallb] in D3.
  apply andb_true_iff in D3. destruct D3 as [Hy1 D3].
  apply andb_true_iff in D3. destruct D3 as [Hy2 D3].
  apply andb_true_iff in D3. destruct D3 as [Hy3 D3].
  apply andb_true_iff in D3. destruct D3 as [Hy4 _].
  cbn [app str list_ascii_of_string isIsoDate forallb].
  rewrite Hm1, Hm2, Hd1, Hd2, Hy1, Hy2, Hy3, Hy4. reflexivity.
Qed.

Lemma isIsoDate_shape d :
  isIsoDate d = true ->
  nonEmpty d = true /\ d <> str "current" /\ length d = 10.
Proof.
  intro H.
  destruct d as [|c1 [|c2 [|c3 [|c4 [|c5 [|c6 [|c7 [|c8 [|c9 [|c10 [|c11 d]]]]]]]]]]];
    try discriminate H.
  split; [reflexivity|]. split; [|reflexivity]. discriminate.
Qed.

(** X12: the date of a row is accepted exactly when the text of its cell
    is one or two digits, a slash, one or two digits, a slash and four
    digits, with nothing before or after; the normalized date is then the
    year, the month and the day in this order, month and day padded with
    a zero to two digits.  No other check is made on the numbers. *)
Theorem normalizeSaleDate_accepts dateText d :
  normalizeSaleDate dateText = Some d <->
  exists mm dd yyyy,
    dateText = mm ++ str "/" ++ dd ++ str "/" ++ yyyy /\
    forallb isDigit mm = true /\ forallb isDigit dd = true /\
    forallb isDigit yyyy = true /\
    1 <= length mm <= 2 /\ 1 <= length dd <= 2 /\ length yyyy = 4 /\
    d = yyyy ++ str "-" ++ padStart2 mm ++ str "-" ++ padStart2 dd.
Proof.
  unfold normalizeSaleDate. split.
  - destruct (matchSaleDate dateText) as [[[g1 g2] g3]|] eqn:E; [|discriminate].
    intro H. injection H as <-. exists g1, g2, g3.
    apply matchSaleDate_iff in E. tauto.
  - intros [mm [dd [yyyy [A [B [C [D [E [F [G ->]]]]]]]]]].
    assert (H : matchSaleDate dateText = Some (mm, dd, yyyy))
      by (apply matchSaleDate_iff; tauto).
    now rewrite H.
Qed.

Lemma normalizeSaleDate_accepts_witness :
  normalizeSaleDate (str "7/4/1999") = Some (str "1999-07-04").
Proof.
  apply (proj2 (normalizeSaleDate_accepts (str "7/4/1999") (str "1999-07-04"))).
  exists (str "7"), (str "4"), (str "1999").
  repeat split; try reflexivity; simpl; lia.
Defined.

(** X13: a normalized date has ten characters, four digits, a hyphen, two
    digits, a hyphen, two digits, so it is never empty and never the key
    ["current"]; and writing the month and the day of an accepted text with
    their leading zero gives the same normalized date. *)
Theorem normalizeSaleDate_format :
  (forall dateText d,
     normalizeSaleDate dateText = Some d ->
     isIsoDate d = true /\ length d = 10 /\ d <> str "current") /\
  (forall mm dd yyyy,
     forallb isDigit mm = true -> forallb isDigit dd = true ->
     forallb isDigit yyyy = true ->
     1 <= length mm <= 2 -> 1 <= length dd <= 2 -> length yyyy = 4 ->
     normalizeSaleDate (padStart2 mm ++ str "/" ++ padStart2 dd ++ str "/" ++ yyyy)
     = normalizeSaleDate (mm ++ str "/" ++ dd ++ str "/" ++ yyyy)).
Proof.
  split.
  - intros dateText d H. pose proof (normalizeSaleDate_isIsoDate _ _ H) as Hi.
    destruct (isIsoDate_shape _ Hi) as [_ [Hc Hl]]. tauto.
  - intros mm dd yyyy D1 D2 D3 L1 L2 L3.
    destruct (padStart2_digits mm D1 L1) as [m1 [m2 [P1 [Hm1 Hm2]]]].
    destruct (padStart2_digits dd D2 L2) as [d1 [d2 [P2 [Hd1 Hd2]]]].
    assert (H : matchSaleDate (padStart2 mm ++ str "/" ++ padStart2 dd ++ str "/" ++ yyyy)
                = Some (padStart2 mm, padStart2 dd, yyyy)).
    { apply matchSaleDate_iff. rewrite P1, P2. cbn [forallb length].
      rewrite Hm1, Hm2, Hd1, Hd2. split; [reflexivity|].
      split; [reflexivity|]. split; [reflexivity|]. split; [exact D3|]. lia. }
    assert (H' : matchSaleDate (mm ++ str "/" ++ dd ++ str "/" ++ yyyy)
                 = Some (mm, dd, yyyy)).
    { apply matchSaleDate_iff. tauto. }
    unfold normalizeSaleDate. rewrite H, H'.
    rewrite (padStart2_fixed (padStart2 mm)), (padStart2_fixed (padStart2 dd));
      [reflexivity|rewrite P2; simpl; lia|rewrite P1; simpl; lia].
Qed.

Lemma normalizeSaleDate_format_witness :
  isIsoDate (str "1999-07-04") = true /\
  normalizeSaleDate (str "07/04/1999") = normalizeSaleDate (str "7/4/1999").
Proof.
  split.
  - apply (proj1 normalizeSaleDate_format (str "7/4/1999") (str "1999-07-04")).
    reflexivity.
  - apply (proj2 normalizeSaleDate_format (str "7") (str "4") (str "1999"));
      try reflexivity; simpl; lia.
Defined.

(** ** The sales history and the owners by date *)

Lemma parseOwnersFromText_Normal rawText :
  exists r, parseOwnersFromText rawText = Normal r.
Proof.
  destruct (truthy_false_cases rawText) as [Hf|[s [-> _]]].
  - eexists. now apply parseOwnersFromText_null_or_empty.
  - destruct (parseOwnersFromText_spec s) as [e [_ [_ Hp]]]. eexists. exact Hp.
Qed.

Lemma dedupByKey_parsed rawText r :
  parseOwnersFromText rawText = Normal r ->
  dedupByKey (resultOwners r) = resultOwners r.
Proof.
  intro H. unfold dedupByKey.
  destruct (truthy_false_cases rawText) as [Hf|[s [-> Hs]]].
  - rewrite (parseOwnersFromText_null_or_empty _ Hf) in H. now injection H as <-.
  - destruct (parseOwnersFromText_spec s) as [e [_ [Hg Hp]]].
    rewrite Hp in H. injection H as <-. cbn [resultOwners].
    apply dedupByKeyFrom_fixed; [apply keepFirsts_NoDup|].
    intros o Ho. apply In_keepFirsts in Ho. rewrite Forall_forall in Hg.
    split; [|intros []]. now apply normalizeOwnerKey_nonEmpty, Hg.
Qed.

Lemma salesHistoryOf_Forall2 rows :
  exists history,
    salesHistoryOf rows = Normal history /\
    Forall2 entryOfRow (filter rowKept rows) history.
Proof.
  induction rows as [|row rows [history [IH1 IH2]]].
  - exists []. split; [reflexivity|constructor].
  - cbn [salesHistoryOf filter]. unfold rowKept.
    fold (rowDate row). destruct (rowDate row) as [d|] eqn:Ed.
    + pose proof (normalizeSaleDate_isIsoDate _ _ Ed) as Hi.
      destruct (isIsoDate_shape _ Hi) as [Hn _].
      cbn [truthy]. rewrite Hn. cbn [andb].
      destruct (nonEmpty (granteeTextOf row)) eqn:Eg.
      * destruct (parseOwnersFromText_Normal (Some (granteeTextOf row)))
          as [r Hr].
        rewrite Hr, IH1. eexists. split; [reflexivity|].
        constructor; [|exact IH2].
        unfold entryOfRow. cbn [entryDate entryOwners entryInvalids orEmpty].
        split; [exact Ed|]. rewrite Hr. now destruct r.
      * exists history. split; [exact IH1|exact IH2].
    + cbn [truthy andb]. exists history. split; [exact IH1|exact IH2].
Qed.

(** X14: reading the sales history never fails; it has one entry, in the
    order of the rows, for each row whose first cell is an accepted date
    and whose grantee text is not empty, holding the normalized date and
    the owners and invalid entries parsed from the grantee text.  A row
    without an accepted date leaves nothing, whatever its grantee. *)
Theorem salesHistoryOf_entries rows :
  exists history,
    salesHistoryOf rows = Normal history /\
    Forall2 entryOfRow (filter rowKept rows) history /\
    Forall (fun h => isIsoDate (entryDate h) = true /\
                     dedupByKey (entryOwners h) = entryOwners h) history.
Proof.
  destruct (salesHistoryOf_Forall2 rows) as [history [H1 H2]].
  exists history. split; [exact H1|]. split; [exact H2|].
  clear H1. induction H2 as [|row h rs hs [Hd Hp] _ IH]; constructor.
  - split.
    + exact (normalizeSaleDate_isIsoDate _ _ Hd).
    + exact (dedupByKey_parsed _ _ Hp).
  - exact IH.
Qed.

Lemma assocGet_assocSet_same {V : Type} k (v : V) m :
  assocGet k (assocSet k v m) = Some v.
Proof.
  induction m as [|[k' v'] m IH]; cbn [assocSet assocGet].
  - now rewrite streq_refl.
  - destruct (streq k' k) eqn:E; cbn [assocGet].
    + now rewrite streq_refl.
    + now rewrite E.
Qed.

Lemma assocGet_assocSet_other {V : Type} k k' (v : V) m :
  k <> k' -> assocGet k (assocSet k' v m) = assocGet k m.
Proof.
  intro N. assert (N' : streq k' k = false).
  { destruct (streq k' k) eqn:E; [|reflexivity].
    apply streq_eq in E. now subst. }
  induction m as [|[k1 v1] m IH]; cbn [assocSet assocGet].
  - now rewrite N'.
  - destruct (streq k1 k') eqn:E; cbn [assocGet].
    + apply streq_eq in E. subst k1. now rewrite N'.
    + now rewrite IH.
Qed.

Lemma assocGet_In {V : Type} k (m : list (jsstring * V)) :
  In k (map fst m) <-> assocGet k m <> None.
Proof.
  induction m as [|[k' v'] m IH]; cbn [map fst In assocGet].
  - tauto.
  - destruct (streq k' k) eqn:E.
    + apply streq_eq in E. split; [discriminate|auto].
    + rewrite <- IH. split; [intros [A|A]|auto]; [|exact A].
      subst k'. now rewrite streq_refl in E.
Qed.

Lemma assocSet_keys {V : Type} k (v : V) m :
  (In k (map fst m) -> map fst (assocSet k v m) = map fst m) /\
  (~ In k (map fst m) -> map fst (assocSet k v m) = map fst m ++ [k]).
Proof.
  induction m as [|[k' v'] m [IH1 IH2]]; cbn [assocSet map fst In app].
  - split; [tauto|reflexivity].
  - destruct (streq k' k) eqn:E.
    + apply streq_eq in E. subst k'. cbn [map fst]. split; [reflexivity|tauto].
    + cbn [map fst]. split.
      * intros [A|A]; [subst k'; now rewrite streq_refl in E|].
        now rewrite IH1.
      * intro A. rewrite IH2; [reflexivity|tauto].
Qed.

Lemma assocSet_NoDup {V : Type} k (v : V) m :
  NoDup (map fst m) -> NoDup (map fst (assocSet k v m)).
Proof.
  intro H. destruct (in_dec (list_eq_dec ascii_dec) k (map fst m)) as [A|A].
  - now rewrite (proj1 (assocSet_keys k v m) A).
  - rewrite (proj2 (assocSet_keys k v m) A).
    apply NoDup_app; [exact H|repeat constructor; intros []|].
    intros x Hx [<-|[]]. contradiction.
Qed.

Lemma find_snoc {A : Type} (p : A -> bool) l x :
  find p (l ++ [x]) =
  match find p l with
  | Some y => Some y
  | None => if p x then Some x else None
  end.
Proof.
  induction l as [|a l IH]; cbn [app find]; [reflexivity|].
  destruct (p a); [reflexivity|exact IH].
Qed.

Lemma dateMap_fold_get d : forall salesHistory m0,
  (forall h, In h salesHistory -> entryDate h = d -> nonEmpty d = true) ->
  assocGet d
    (fold_left
       (fun m h =>
          if nonEmpty (entryDate h)
          then assocSet (entryDate h) (dedupByKey (entryOwners h)) m
          else m)
       salesHistory m0) =
  match lastEntryFor d salesHistory with
  | Some h => Some (dedupByKey (entryOwners h))
  | None => assocGet d m0
  end.
Proof.
  induction salesHistory as [|h t IH]; intros m0 Hd; [reflexivity|].
  cbn [fold_left]. rewrite IH by (intros; eapply Hd; [right|]; eassumption).
  unfold lastEntryFor. cbn [rev]. rewrite find_snoc.
  destruct (find (fun h0 => streq (entryDate h0) d) (rev t)); [reflexivity|].
  destruct (streq (entryDate h) d) eqn:E.
  - apply streq_eq in E. rewrite E, (Hd h (or_introl eq_refl) E).
    now rewrite assocGet_assocSet_same.
  - destruct (nonEmpty (entryDate h)); [|reflexivity].
    apply assocGet_assocSet_other. intros ->. now rewrite streq_refl in E.
Qed.

Lemma dateMap_fold_NoDup : forall salesHistory m0,
  NoDup (map fst m0) ->
  NoDup (map fst
    (fold_left
       (fun (m : list (jsstring * list Owner)) h =>
          if nonEmpty (entryDate h)
          then assocSet (entryDate h) (dedupByKey (entryOwners h)) m
          else m)
       salesHistory m0)).
Proof.
  induction salesHistory as [|h t IH]; intros m0 H; [exact H|].
  cbn [fold_left]. apply IH. destruct (nonEmpty (entryDate h)); [|exact H].
  now apply assocSet_NoDup.
Qed.

Lemma object_fold_get {V : Type} (f : jsstring -> V) d : forall keys obj0,
  (In d keys ->
   assocGet d (fold_left (fun obj k => assocSet k (f k) obj) keys obj0)
   = Some (f d)) /\
  (~ In d keys ->
   assocGet d (fold_left (fun obj k => assocSet k (f k) obj) keys obj0)
   = assocGet d obj0).
Proof.
  induction keys as [|k keys IH]; intro obj0; cbn [fold_left In].
  - tauto.
  - destruct (IH (assocSet k (f k) obj0)) as [IH1 IH2].
    destruct (in_dec (list_eq_dec ascii_dec) d keys) as [A|A].
    + split; [intros _; now apply IH1|tauto].
    + split.
      * intros [->|B]; [|contradiction].
        rewrite IH2 by exact A. apply assocGet_assocSet_same.
      * intro B. rewrite IH2 by exact A.
        apply assocGet_assocSet_other. intros ->. tauto.
Qed.

Lemma object_fold_keys {V : Type} (f : jsstring -> V) : forall keys obj0,
  NoDup keys -> NoDup (map fst obj0) ->
  (forall k, In k keys -> ~ In k (map fst obj0)) ->
  map fst (fold_left (fun obj k => assocSet k (f k) obj) keys obj0)
  = map fst obj0 ++ keys.
Proof.
  induction keys as [|k keys IH]; intros obj0 Hk Ho Hd; cbn [fold_left].
  - now rewrite app_nil_r.
  - inversion Hk as [|? ? Hx Hk']; subst.
    assert (E : map fst (assocSet k (f k) obj0) = map fst obj0 ++ [k])
      by (apply assocSet_keys, Hd; now left).
    rewrite IH; [rewrite E, <- app_assoc; reflexivity|exact Hk'| |].
    + now apply assocSet_NoDup.
    + intros k' Hk2. rewrite E. rewrite in_app_iff. intros [A|[<-|[]]].
      * apply (Hd k'); [now right|exact A].
      * contradiction.
Qed.

Lemma ownersByDateOf_get sortDates currentParsed salesHistory d :
  (forall l, Permutation (sortDates l) l) ->
  (forall h, In h salesHistory -> entryDate h = d -> nonEmpty d = true) ->
  d <> str "current" ->
  assocGet d (ownersByDateOf sortDates currentParsed salesHistory) =
  option_map (fun h => Some (dedupByKey (entryOwners h)))
             (lastEntryFor d salesHistory).
Proof.
  intros Hs Hd Hc. unfold ownersByDateOf.
  rewrite assocGet_assocSet_other by exact Hc.
  pose proof (dateMap_fold_get d salesHistory [] Hd) as G.
  fold (dateMapOf salesHistory) in G. cbn [assocGet] in G.
  destruct (object_fold_get (fun k => assocGet k (dateMapOf salesHistory)) d
              (sortDates (map fst (dateMapOf salesHistory))) []) as [O1 O2].
  destruct (lastEntryFor d salesHistory) as [h|]; cbn [option_map].
  - rewrite O1; [now rewrite G|].
    apply (Permutation_in _ (Permutation_sym (Hs _))).
    apply assocGet_In. now rewrite G.
  - rewrite O2; [reflexivity|].
    intro A. apply (Permutation_in _ (Hs _)) in A.
    apply assocGet_In in A. now apply A.
Qed.

Lemma ownersByDateOf_keys sortDates currentParsed salesHistory :
  (forall l, Permutation (sortDates l) l) ->
  (forall h, In h salesHistory -> entryDate h <> str "current") ->
  map fst (ownersByDateOf sortDates currentParsed salesHistory) =
  sortDates (map fst (dateMapOf salesHistory)) ++ [str "current"].
Proof.
  intros Hs Hc. unfold ownersByDateOf.
  assert (Hn : NoDup (map fst (dateMapOf salesHistory)))
    by (apply dateMap_fold_NoDup; constructor).
  assert (Hn' : NoDup (sortDates (map fst (dateMapOf salesHistory))))
    by (eapply Permutation_NoDup; [apply Permutation_sym, Hs|exact Hn]).
  pose proof (object_fold_keys (fun k => assocGet k (dateMapOf salesHistory))
                (sortDates (map fst (dateMapOf salesHistory))) [] Hn'
                (NoDup_nil _) (fun _ _ H => H)) as K.
  cbn [map app] in K.
  rewrite (proj2 (assocSet_keys _ _ _)); [now rewrite K|].
  rewrite K. intro A. apply (Permutation_in _ (Hs _)) in A.
  apply assocGet_In in A. unfold dateMapOf in A.
  rewrite (dateMap_fold_get (str "current") salesHistory []) in A
    by (intros; reflexivity).
  destruct (lastEntryFor (str "current") salesHistory) as [h|] eqn:E.
  - unfold lastEntryFor in E. apply find_some in E. destruct E as [E1 E2].
    apply streq_eq in E2. apply (Hc h); [now apply in_rev|exact E2].
  - now apply A.
Qed.



(** X16: for the history read from the rows, every key of the owners by
    date is answered without a condition: ["current"] gives the current
    owners, any other key the owners of the last entry with that date, as
    parsed (the deduplication of lines 354-363 changes nothing), and
    nothing when no entry has it.  The keys are the sorted dates followed
    by ["current"], which no date can equal. *)
Theorem owners_by_date_of_rows sortDates currentParsed rows salesHistory :
  (forall l, Permutation (sortDates l) l) ->
  salesHistoryOf rows = Normal salesHistory ->
  (forall k,
     assocGet k (ownersByDateOf sortDates currentParsed salesHistory) =
     if streq k (str "current")
     then Some (Some (dedupByKey (resultOwners currentParsed)))
     else option_map (fun h => Some (entryOwners h))
                     (lastEntryFor k salesHistory)) /\
  map fst (ownersByDateOf sortDates currentParsed salesHistory) =
  sortDates (map fst (dateMapOf salesHistory)) ++ [str "current"].
Proof.
  intros Hs Hr.
  destruct (salesHistoryOf_Forall2 rows) as [history [H1 H2]].
  rewrite Hr in H1. injection H1 as <-.
  assert (F : Forall (fun h => isIsoDate (entryDate h) = true /\
                        dedupByKey (entryOwners h) = entryOwners h) salesHistory).
  { clear Hr. induction H2 as [|row h rs hs [Hd Hp] _ IH]; constructor.
    - split; [exact (normalizeSaleDate_isIsoDate _ _ Hd)|].
      exact (dedupByKey_parsed _ _ Hp).
    - exact IH. }
  rewrite Forall_forall in F. split.
  - intro k. destruct (streq k (str "current")) eqn:E.
    + apply streq_eq in E. subst k. unfold ownersByDateOf.
      apply assocGet_assocSet_same.
    + rewrite ownersByDateOf_get; [|exact Hs| |].
      * destruct (lastEntryFor k salesHistory) as [h|] eqn:L; [|reflexivity].
        unfold lastEntryFor in L. apply find_some in L. destruct L as [L _].
        apply in_rev in L. cbn [option_map].
        now rewrite (proj2 (F h L)).
      * intros h Hh <-. destruct (F h Hh) as [Hi _].
        now destruct (isIsoDate_shape _ Hi).
      * intros ->. now rewrite streq_refl in E.
  - apply ownersByDateOf_keys; [exact Hs|].
    intros h Hh. destruct (F h Hh) as [Hi _].
    now destruct (isIsoDate_shape _ Hi) as [_ [N _]].
Qed.

Lemma owners_by_date_of_rows_witness :
  map fst (ownersByDateOf (fun l => l) (mkResult [] [])
             [ mkHistoryEntry "2020-01-02" [ person "John" "Smith" None ] [] ])
  = [ str "2020-01-02"; str "current" ].
Proof.
  apply (proj2 (owners_by_date_of_rows (fun l => l) (mkResult [] [])
           [ mkSalesRow "1/2/2020" (Some (str "SMITH JOHN")) None ]
           [ mkHistoryEntry "2020-01-02" [ person "John" "Smith" None ] [] ]
           (fun l => Permutation_refl l) eq_refl)).
Defined.

(** ** The property identifier *)

Lemma isIdChar_plain (c : ascii) : isIdChar c = isIdCharPlain c.
Proof. all_units c. Qed.

Lemma isIdChar_not_isSpace (c : ascii) : isIdChar c = true -> isSpace c = false.
Proof. all_units c. Qed.

Lemma colon_not_isWord (c : ascii) :
  Ascii.eqb (canonicalize c) (canonicalize ":") = true -> isWord c = false.
Proof. all_units c. Qed.

Lemma takeWhile_forallb p s : forallb p (takeWhile p s) = true.
Proof.
  induction s as [|c s IH]; [reflexivity|]. cbn [takeWhile].
  destruct (p c) eqn:E; [|reflexivity]. cbn [forallb]. now rewrite E.
Qed.

Lemma noSpace_singleSpaced s :
  forallb (fun c => negb (isSpace c)) s = true -> singleSpaced s = true.
Proof.
  induction s as [|c s IH]; [reflexivity|]. cbn [forallb singleSpaced].
  intro H. apply andb_true_iff in H. destruct H as [Hc Hs].
  apply negb_true_iff in Hc. rewrite Hc. now apply IH.
Qed.

Lemma noSpace_head s :
  forallb (fun c => negb (isSpace c)) s = true -> spaceAt (hd_error s) = false.
Proof.
  destruct s as [|c s]; [reflexivity|]. cbn [forallb hd_error spaceAt].
  intro H. apply andb_true_iff in H. destruct H as [Hc _].
  now apply negb_true_iff in Hc.
Qed.

Lemma noSpace_isClean s :
  forallb (fun c => negb (isSpace c)) s = true -> isClean s = true.
Proof.
  intro H. unfold isClean.
  rewrite (noSpace_singleSpaced s H), (noSpace_head s H). cbn [negb andb].
  rewrite noSpace_head; [reflexivity|].
  apply forallb_forall. intros c Hc. apply in_rev in Hc.
  now apply (proj1 (forallb_forall _ _) H).
Qed.

Lemma reportAt_cap rest cap :
  reportAt rest = Some cap -> nonEmpty cap = true /\ forallb isIdChar cap = true.
Proof.
  unfold reportAt. destruct (prefixCI (str "Report:") rest); [|discriminate].
  destruct (nonEmpty (takeWhile isIdChar (dropWhile isSpace (skipn 7 rest))))
    eqn:E; [|discriminate].
  intro H. injection H as <-. split; [exact E|apply takeWhile_forallb].
Qed.

Lemma reportMatch_cap s : forall cap,
  reportMatch s = Some cap -> nonEmpty cap = true /\ forallb isIdChar cap = true.
Proof.
  induction s as [|c s IH]; intros cap; cbn [reportMatch].
  - destruct (reportAt []) eqn:E; [|discriminate].
    intro H. injection H as <-. now apply reportAt_cap in E.
  - destruct (reportAt (c :: s)) eqn:E.
    + intro H. injection H as <-. now apply reportAt_cap in E.
    + apply IH.
Qed.

Lemma idChars_isClean cap : forallb isIdChar cap = true -> isClean cap = true.
Proof.
  intro H. apply noSpace_isClean. apply forallb_forall. intros c Hc.
  apply negb_true_iff, isIdChar_not_isSpace.
  now apply (proj1 (forallb_forall _ _) H).
Qed.

Lemma candidateOf_Some h c :
  candidateOf h = Some c ->
  nonEmpty (value c) = true /\ value c = cleanText (Some (nextTdText h)) /\
  classifyLabel (labelOf h) = Some (key c).
Proof.
  unfold candidateOf.
  destruct (nonEmpty (cleanText (Some (nextTdText h)))) eqn:E; [|discriminate].
  cbn [negb]. destruct (classifyLabel (labelOf h)) as [k|]; [|discriminate].
  cbn [option_map]. intro H. injection H as <-. cbn [key value]. auto.
Qed.

Lemma In_candidatesOf headers c :
  In c (candidatesOf headers) <-> exists h, In h headers /\ candidateOf h = Some c.
Proof.
  unfold candidatesOf. rewrite in_flat_map. split.
  - intros [h [Hh Hc]]. exists h. split; [exact Hh|].
    destruct (candidateOf h) as [c'|]; [|destruct Hc].
    destruct Hc as [->|[]]. reflexivity.
  - intros [h [Hh Hc]]. exists h. split; [exact Hh|]. rewrite Hc. now left.
Qed.

Lemma candidatesOf_app a b :
  candidatesOf (a ++ b) = candidatesOf a ++ candidatesOf b.
Proof. unfold candidatesOf. apply flat_map_app. Qed.

Lemma IdKey_eqb_eq a b : IdKey_eqb a b = true <-> a = b.
Proof. destruct a, b; simpl; split; intro H; try reflexivity; discriminate. Qed.

Lemma preferred_In pref candidates v :
  preferred pref candidates = Some v ->
  exists c, In c candidates /\ value c = v /\ In (key c) pref.
Proof.
  induction pref as [|p pref IH]; cbn [preferred]; [discriminate|].
  destruct (find (fun c => IdKey_eqb (key c) p) candidates) as [found|] eqn:E.
  - intro H. injection H as <-. apply find_some in E. destruct E as [E1 E2].
    apply IdKey_eqb_eq in E2. exists found. cbn [In]. auto.
  - intro H. destruct (IH H) as [c [A [B C]]]. exists c. cbn [In]. auto.
Qed.

Lemma preferred_None candidates :
  preferred [prop_id; property_id; parcel_id] candidates = None ->
  candidates = [].
Proof.
  cbn [preferred].
  destruct (find (fun c => IdKey_eqb (key c) prop_id) candidates) eqn:E1;
    [discriminate|].
  destruct (find (fun c => IdKey_eqb (key c) property_id) candidates) eqn:E2;
    [discriminate|].
  destruct (find (fun c => IdKey_eqb (key c) parcel_id) candidates) eqn:E3;
    [discriminate|].
  intros _. destruct candidates as [|c cs]; [reflexivity|].
  pose proof (find_none _ _ E1 c (or_introl eq_refl)) as A1.
  pose proof (find_none _ _ E2 c (or_introl eq_refl)) as A2.
  pose proof (find_none _ _ E3 c (or_introl eq_refl)) as A3.
  cbn beta in A1, A2, A3. destruct (key c); discriminate.
Qed.

Lemma find_first {A : Type} (p : A -> bool) l1 x l2 :
  (forall y, In y l1 -> p y = false) -> p x = true ->
  find p (l1 ++ x :: l2) = Some x.
Proof.
  intros H Hx. induction l1 as [|a l1 IH]; cbn [app find].
  - now rewrite Hx.
  - rewrite (H a (or_introl eq_refl)). apply IH.
    intros y Hy. apply H. now right.
Qed.

Lemma find_absent {A : Type} (p : A -> bool) l :
  (forall y, In y l -> p y = false) -> find p l = None.
Proof.
  intro H. induction l as [|a l IH]; [reflexivity|]. cbn [find].
  rewrite (H a (or_introl eq_refl)). apply IH. intros y Hy. apply H. now right.
Qed.

Lemma value_clean_fixed v t : v = cleanText t -> cleanText (Some v) = v.
Proof. intros ->. apply cleanText_fixed, cleanText_isClean. Qed.

(** X17: the identifier returned is never empty, so the alternative
    ["unknown_id"] of line 339 is never taken; it is clean; and it is
    ["unknown_id"], or the cleaned cell of a header whose label is one of
    the three kinds, or, when no header gave a candidate, the identifier
    found in the title, made of letters, digits, hyphens, underscores and
    periods only. *)
Theorem extractPropertyId_result headers titleText :
  nonEmpty (extractPropertyId headers titleText) = true /\
  isClean (extractPropertyId headers titleText) = true /\
  propertyIdOf headers titleText = extractPropertyId headers titleText /\
  (extractPropertyId headers titleText = str "unknown_id" \/
   (exists h, In h headers /\ classifyLabel (labelOf h) <> None /\
      extractPropertyId headers titleText = cleanText (Some (nextTdText h))) \/
   (candidatesOf headers = [] /\
    reportMatch (cleanText (Some titleText))
    = Some (extractPropertyId headers titleText) /\
    forallb isIdCharPlain (extractPropertyId headers titleText) = true)).
Proof.
  assert (G : nonEmpty (extractPropertyId headers titleText) = true /\
    isClean (extractPropertyId headers titleText) = true /\
    (extractPropertyId headers titleText = str "unknown_id" \/
     (exists h, In h headers /\ classifyLabel (labelOf h) <> None /\
        extractPropertyId headers titleText = cleanText (Some (nextTdText h))) \/
     (candidatesOf headers = [] /\
      reportMatch (cleanText (Some titleText))
      = Some (extractPropertyId headers titleText) /\
      forallb isIdCharPlain (extractPropertyId headers titleText) = true))).
  { unfold extractPropertyId.
    destruct (preferred [prop_id; property_id; parcel_id] (candidatesOf headers))
      as [v|] eqn:P.
    - destruct (preferred_In _ _ _ P) as [c [Hc [<- _]]].
      apply In_candidatesOf in Hc. destruct Hc as [h [Hh Hc]].
      destruct (candidateOf_Some _ _ Hc) as [Hn [Hv Hk]].
      cbn [truthy]. rewrite Hn. cbn [negb truthy]. rewrite Hn.
      rewrite (value_clean_fixed _ _ Hv).
      split; [exact Hn|]. split; [rewrite Hv; apply cleanText_isClean|].
      right. left. exists h. split; [exact Hh|]. split; [|exact Hv].
      rewrite Hk. discriminate.
    - cbn [truthy negb]. apply preferred_None in P.
      destruct (reportMatch (cleanText (Some titleText))) as [cap|] eqn:R.
      + destruct (reportMatch_cap _ _ R) as [Hn Hi].
        cbn [truthy]. rewrite Hn.
        rewrite (cleanText_fixed cap (idChars_isClean cap Hi)).
        split; [exact Hn|]. split; [exact (idChars_isClean cap Hi)|].
        right. right. split; [exact P|]. split; [reflexivity|].
        apply forallb_forall. intros a Ha. rewrite <- isIdChar_plain.
        now apply (proj1 (forallb_forall _ _) Hi).
      + cbn [truthy]. split; [reflexivity|]. split; [reflexivity|]. now left. }
  destruct G as [G1 [G2 G3]]. split; [exact G1|]. split; [exact G2|].
  split; [|exact G3]. unfold propertyIdOf. now rewrite G1.
Qed.

(** X18: the order of preference.  When some header gives a candidate and
    none gives one of a kind preferred to it, the identifier is the cleaned
    cell of the first header of that kind; the later headers and the title
    play no part. *)
Theorem extractPropertyId_preference headers titleText pre h post c :
  headers = pre ++ h :: post ->
  candidateOf h = Some c ->
  (forall h' c', In h' pre -> candidateOf h' = Some c' -> key c' <> key c) ->
  (forall h' c', In h' headers -> candidateOf h' = Some c' ->
     rank (key c) <= rank (key c')) ->
  extractPropertyId headers titleText = cleanText (Some (nextTdText h)) /\
  propertyIdOf headers titleText = cleanText (Some (nextTdText h)).
Proof.
  intros -> Hc Hpre Hrank.
  destruct (candidateOf_Some _ _ Hc) as [Hn [Hv Hk]].
  assert (E : candidatesOf (pre ++ h :: post)
              = candidatesOf pre ++ c :: candidatesOf post).
  { rewrite candidatesOf_app. f_equal.
    change (h :: post) with ([h] ++ post). rewrite candidatesOf_app.
    unfold candidatesOf at 1. cbn [flat_map]. now rewrite Hc. }
  assert (F : find (fun c' => IdKey_eqb (key c') (key c))
                   (candidatesOf (pre ++ h :: post)) = Some c).
  { rewrite E. apply find_first; [|now apply IdKey_eqb_eq].
    intros y Hy. apply In_candidatesOf in Hy. destruct Hy as [h' [Hh' Hy]].
    destruct (IdKey_eqb (key y) (key c)) eqn:K; [|reflexivity].
    apply IdKey_eqb_eq in K. now destruct (Hpre h' y Hh' Hy). }
  assert (N : forall p, rank p < rank (key c) ->
                find (fun c' => IdKey_eqb (key c') p)
                     (candidatesOf (pre ++ h :: post)) = None).
  { intros p Hp. apply find_absent. intros y Hy.
    apply In_candidatesOf in Hy. destruct Hy as [h' [Hh' Hy]].
    destruct (IdKey_eqb (key y) p) eqn:K; [|reflexivity].
    apply IdKey_eqb_eq in K. subst p.
    pose proof (Hrank h' y Hh' Hy). lia. }
  assert (P : preferred [prop_id; property_id; parcel_id]
                (candidatesOf (pre ++ h :: post)) = Some (value c)).
  { cbn [preferred]. destruct (key c) eqn:Kc.
    - now rewrite F.
    - rewrite (N prop_id) by (simpl; lia). now rewrite F.
    - rewrite (N prop_id), (N property_id) by (simpl; lia). now rewrite F. }
  assert (R : extractPropertyId (pre ++ h :: post) titleText
              = cleanText (Some (nextTdText h))).
  { unfold extractPropertyId. rewrite P. cbn [truthy]. rewrite Hn.
    cbn [negb truthy]. rewrite Hn. rewrite (value_clean_fixed _ _ Hv). exact Hv. }
  split; [exact R|]. unfold propertyIdOf. rewrite R, <- Hv. now rewrite Hn.
Qed.

Lemma extractPropertyId_preference_witness :
  extractPropertyId
    [ mkHeader "Parcel ID" "00017-010-008"; mkHeader "Prop ID:" " 12345 ";
      mkHeader "Prop ID" "678" ] "Report: 9"
  = cleanText (Some (str " 12345 ")).
Proof.
  apply (proj1 (extractPropertyId_preference
    [ mkHeader "Parcel ID" "00017-010-008"; mkHeader "Prop ID:" " 12345 ";
      mkHeader "Prop ID" "678" ] "Report: 9"
    [ mkHeader "Parcel ID" "00017-010-008" ] (mkHeader "Prop ID:" " 12345 ")
    [ mkHeader "Prop ID" "678" ] (mkCandidate prop_id "12345")
    eq_refl eq_refl
    ltac:(intros h' c' [<-|[]] H; vm_compute in H; injection H as <-;
          vm_compute; discriminate)
    ltac:(intros; simpl; lia))).
Defined.

Lemma prefixCI_id_shape s :
  prefixCI (str "id") s = true ->
  exists i d t, s = i :: d :: t /\ isWord d = true.
Proof.
  destruct s as [|i [|d t]]; cbn [str list_ascii_of_string prefixCI].
  - discriminate.
  - rewrite andb_false_r. discriminate.
  - intro H. apply andb_true_iff in H. destruct H as [_ H].
    apply andb_true_iff in H. destruct H as [H _].
    apply Ascii.eqb_eq in H. exists i, d, t. split; [reflexivity|].
    now rewrite (canonicalize_eq_isWord _ _ H).
Qed.

Lemma labelAt_labelWordsAt word prev rest :
  startsWordy word = true ->
  labelAt word prev rest = labelWordsAt word prev rest.
Proof.
  intro Hw. unfold labelAt, labelWordsAt.
  destruct (prefixCI word rest) eqn:Hp.
  - rewrite (andb_true_r _), (andb_true_r _).
    assert (Hs : (match prev with None => true | Some _ => false end
                  || atBoundary prev rest) = negb (isWordAt prev)).
    { unfold atBoundary. rewrite (prefixCI_head word rest Hw Hp).
      destruct prev as [c|]; cbn [isWordAt]; [|reflexivity].
      now destruct (isWord c). }
    rewrite Hs. f_equal.
    destruct (prefixCI (str "id") (dropWhile isSpace (skipn (length word) rest)))
      eqn:Hi; [|reflexivity].
    destruct (prefixCI_id_shape _ Hi) as [i [d [t [-> Hd]]]].
    cbn [andb nth_error skipn]. unfold atBoundary. cbn [isWordAt]. rewrite Hd.
    destruct t as [|c t]; cbn [hd_error isWordAt]; [reflexivity|].
    destruct (isWord c) eqn:Ec; cbn [xorb negb orb]; [|reflexivity].
    destruct (Ascii.eqb (canonicalize c) (canonicalize ":")) eqn:E; [|reflexivity].
    apply colon_not_isWord in E. congruence.
  - now rewrite !andb_false_r.
Qed.

Lemma anyIndexFrom_ext P Q s : forall p,
  (forall p s, P p s = Q p s) -> anyIndexFrom P p s = anyIndexFrom Q p s.
Proof.
  induction s as [|c s IH]; intros p H; cbn [anyIndexFrom].
  - now rewrite H.
  - now rewrite H, (IH (Some c) H).
Qed.

(** X19: the label patterns say no more than whole words: each matches
    where its word, spaces or none, and [id] stand with no word character
    before or after, so the alternatives [^] and [:] add nothing, as does
    the comparison with ["prop id"]; and flag [i] does not enlarge the class
    of the characters of an identifier in the title. *)
Theorem label_patterns_whole_words :
  (forall word label,
     startsWordy word = true ->
     labelTest word label = anyIndex (labelWordsAt word) label) /\
  (forall label,
     classifyLabel label =
     if labelTest "prop" label then Some prop_id
     else if labelTest "property" label then Some property_id
     else if labelTest "parcel" label then Some parcel_id
     else None) /\
  (forall c, isIdChar c = isIdCharPlain c).
Proof.
  split; [|split].
  - intros word label Hw. unfold labelTest, anyIndex.
    apply anyIndexFrom_ext. intros p s. now apply labelAt_labelWordsAt.
  - intro label. unfold classifyLabel.
    destruct (streq label (str "prop id")) eqn:E.
    + apply streq_eq in E. subst label. reflexivity.
    + now rewrite orb_false_r.
  - exact isIdChar_plain.
Qed.

Lemma label_patterns_whole_words_witness :
  labelTest "parcel" "parcel id:" = anyIndex (labelWordsAt "parcel") "parcel id:".
Proof.
  apply (proj1 label_patterns_whole_words (str "parcel") (str "parcel id:")).
  reflexivity.
Defined.

(** ** The current owners *)

Lemma filter_head_find {A : Type} (p : A -> bool) l :
  hd_error (filter p l) = find p l.
Proof.
  induction l as [|a l IH]; [reflexivity|]. cbn [filter find].
  destruct (p a); [reflexivity|exact IH].
Qed.

Lemma fallbackSpan_fold l : forall nameText,
  fold_left fallbackSpan l nameText =
  if nonEmpty nameText then nameText
  else match find nameLike l with
       | Some el => cleanText (Some (spanText el))
       | None => []
       end.
Proof.
  induction l as [|el l IH]; intro nameText; cbn [fold_left find].
  - now destruct nameText.
  - rewrite IH. unfold fallbackSpan, nameLike.
    destruct (includes (str "address") (toLowerCase (idOf el)));
      cbn [negb andb]; [reflexivity|].
    destruct (hasDigitRun (cleanText (Some (spanText el))));
      cbn [negb andb]; [reflexivity|].
    destruct (hasAlpha (cleanText (Some (spanText el))));
      cbn [negb andb]; [|reflexivity].
    destruct (3 <=? length (cleanText (Some (spanText el)))) eqn:L;
      cbn [negb andb]; [|reflexivity].
    destruct (nonEmpty nameText) eqn:N; cbn [negb]; [now rewrite N|].
    apply Nat.leb_le in L.
    destruct (cleanText (Some (spanText el))); [simpl in L; lia|reflexivity].
Qed.

Lemma nameTextOf_chosenSpan sections :
  nameTextOf (findOwnerSection sections) =
  match chosenSpan sections with
  | Some el => cleanText (Some (spanText el))
  | None => []
  end.
Proof.
  unfold chosenSpan, nameTextOf.
  destruct (findOwnerSection sections) as [sec|]; [|reflexivity].
  rewrite <- filter_head_find.
  destruct (filter (fun el => includesCI (str "ownername") (idOf el)) (spans sec));
    cbn [hd_error]; [|reflexivity].
  now rewrite fallbackSpan_fold.
Qed.

(** X20: the text parsed for the current owners is that of one span of the
    first section titled owner information: the first span whose [id]
    contains [ownername] in any case, whatever its text; without such a
    span, the first one whose [id] does not contain [address] and whose
    cleaned text has no run of three digits, has a letter and has three
    characters or more, the later ones never replacing it.  The result is
    the parse of the text of that span as it stands, the empty result when
    there is none, and never an exception. *)
Theorem extractCurrentOwners_chosen sections :
  nameTextOf (findOwnerSection sections) =
  match chosenSpan sections with
  | Some el => cleanText (Some (spanText el))
  | None => []
  end /\
  extractCurrentOwners sections =
  parseOwnersFromText (option_map spanText (chosenSpan sections)) /\
  exists r, extractCurrentOwners sections = Normal r.
Proof.
  split; [apply nameTextOf_chosenSpan|]. split.
  - unfold extractCurrentOwners. rewrite nameTextOf_chosenSpan.
    destruct (chosenSpan sections) as [el|]; cbn [option_map].
    + apply parse_after_cleanText.
    + reflexivity.
  - apply parseOwnersFromText_Normal.
Qed.
